(** * CCMemoryEditor: the memory scanner and the struct-field codec

    A shallow embedding of [core/game_memory.py] (class [GameProcess] and
    the worker [CharacterScannerThread]) and of the scan-related methods of
    [GameProcessMonitor] in [gui.py].

    Python integers are [Z]; a byte is a [Z] in [0, 256); a [bytes] object
    is a [list Z]; target-process memory is a finite map from addresses to
    bytes.  Methods of [GameProcess] run in a state-and-exception monad
    over the object ([self.pm]) and the machine it talks to. *)

From stdpp Require Import base numbers list strings gmap sorting.

Open Scope Z_scope.

(** ** Python sequence primitives *)

Module Py.

(** [data[k]] on a sequence: a negative index counts from the end, an index
    outside [-len, len) raises IndexError (here [None]). *)
Definition getitem {A} (data : list A) (k : Z) : option A :=
  let n := Z.of_nat (length data) in
  if bool_decide (0 <= k) then data !! Z.to_nat k
  else if bool_decide (- n <= k) then data !! Z.to_nat (n + k)
  else None.

(** One bound of a slice, the way [PySlice_AdjustIndices] clamps it. *)
Definition clamp (n k : Z) : Z :=
  if bool_decide (k < 0) then Z.max 0 (n + k) else Z.min k n.

(** [data[lo:hi]]. *)
Definition slice {A} (data : list A) (lo hi : Z) : list A :=
  let n := Z.of_nat (length data) in
  let lo' := clamp n lo in
  let hi' := clamp n hi in
  take (Z.to_nat (hi' - lo')) (drop (Z.to_nat lo') data).

(** [range(lo, hi)] as the list it iterates over. *)
Definition range (lo hi : Z) : list Z := seqZ lo (hi - lo).

(** [[x] * n]: a negative count gives the empty list. *)
Definition repeat {A} (x : A) (n : Z) : list A := replicate (Z.to_nat n) x.

End Py.

(** ** Exceptions and the method monad *)

Inductive exn : Type :=
  | RuntimeError (msg : string)
  | ValueError (msg : string)
  | KeyError (key : string)
  | IndexError
  | OverflowError
  | TypeError
  | MemoryReadError (address length : Z)
  | MemoryWriteError (address : Z)
  | ProcessNotFound (name : string).

(** The result of evaluating a Python expression that can raise. *)
Inductive result (A : Type) : Type :=
  | Ok (a : A)
  | Err (e : exn).
Arguments Ok {A} a.
Arguments Err {A} e.

(** The outcome of running a method.  [OutOfFuel] is not a Python outcome:
    it marks a [while] loop that was cut off before it ended. *)
Inductive outcome (A : Type) : Type :=
  | Ret (a : A)
  | Raise (e : exn)
  | OutOfFuel.
Arguments Ret {A} a.
Arguments Raise {A} e.
Arguments OutOfFuel {A}.

(** ** Windows structures and constants ([core/memory_structs.py]) *)

Definition MEM_COMMIT : Z := 0x1000.
Definition PAGE_READWRITE : Z := 0x04.
Definition PAGE_EXECUTE_READWRITE : Z := 0x40.

Record MEMORY_BASIC_INFORMATION : Type := {
  BaseAddress : Z;
  AllocationBase : Z;
  AllocationProtect : Z;
  RegionSize : Z;
  State : Z;
  Protect : Z;
  Type_ : Z
}.

(** ** The machine: the operating system and the target process *)

(** One access of target-process memory through pymem. *)
Inductive access : Type :=
  | ReadAccess (address length : Z)
  | WriteAccess (address : Z) (bytes : list Z).

(** What [GameProcess] can observe of the machine.  [open_process] is the
    outcome of [pymem.Pymem(name)]: the handle of the named process, or
    [None] when it is not running or cannot be opened.  [query] is
    [VirtualQueryEx] on the target process: [None] is its return value 0.
    [accesses] records every read and write that reached pymem, the most
    recent first. *)
Record machine : Type := {
  open_process : string -> option Z;
  lpMinimumApplicationAddress : Z;
  lpMaximumApplicationAddress : Z;
  query : Z -> option MEMORY_BASIC_INFORMATION;
  memory : gmap Z Z;
  accesses : list access
}.

Definition set_memory (mem : gmap Z Z) (w : machine) : machine :=
  {| open_process := open_process w;
     lpMinimumApplicationAddress := lpMinimumApplicationAddress w;
     lpMaximumApplicationAddress := lpMaximumApplicationAddress w;
     query := query w;
     memory := mem;
     accesses := accesses w |}.

Definition record_access (a : access) (w : machine) : machine :=
  {| open_process := open_process w;
     lpMinimumApplicationAddress := lpMinimumApplicationAddress w;
     lpMaximumApplicationAddress := lpMaximumApplicationAddress w;
     query := query w;
     memory := memory w;
     accesses := a :: accesses w |}.

(** The [GameProcess] object: [self.pm] holds the process handle of the
    attached [Pymem] instance, or [None]. *)
Record GameProcess : Type := {
  pm : option Z;
  process_name : string
}.

Definition set_pm (p : option Z) (self : GameProcess) : GameProcess :=
  {| pm := p; process_name := process_name self |}.

Definition state : Type := GameProcess * machine.

Definition M (A : Type) : Type := state -> outcome A * state.

Definition ret {A} (a : A) : M A := fun s => (Ret a, s).
Definition raise {A} (e : exn) : M A := fun s => (Raise e, s).
Definition bind {A B} (m : M A) (k : A -> M B) : M B :=
  fun s =>
    match m s with
    | (Ret a, s') => k a s'
    | (Raise e, s') => (Raise e, s')
    | (OutOfFuel, s') => (OutOfFuel, s')
    end.
Definition lift {A} (r : result A) : M A :=
  match r with
  | Ok a => ret a
  | Err e => raise e
  end.

Notation "x <- m ;; k" := (bind m (fun x => k))
  (at level 100, m at next level, right associativity).
Notation "m ;;; k" := (bind m (fun _ => k))
  (at level 100, right associativity).

(** ** Memory primitives of pymem *)

(** The bytes at [address], [address + 1], ..., when all are mapped. *)
Definition load_bytes (mem : gmap Z Z) (address length : Z) : option (list Z) :=
  mapM (fun a => mem !! a) (seqZ address length).

Fixpoint store_bytes (address : Z) (bytes : list Z) (mem : gmap Z Z) : gmap Z Z :=
  match bytes with
  | [] => mem
  | b :: rest => <[address := b]> (store_bytes (address + 1) rest mem)
  end.

(** [pm.read_bytes(address, length)]. *)
Definition read_bytes (address length : Z) : M (list Z) :=
  fun '(self, w) =>
    let w' := record_access (ReadAccess address length) w in
    match load_bytes (memory w) address length with
    | Some bytes => (Ret bytes, (self, w'))
    | None => (Raise (MemoryReadError address length), (self, w'))
    end.

(** [pm.read_uchar(address)]: one byte, unpacked as an unsigned integer. *)
Definition read_uchar (address : Z) : M Z :=
  fun '(self, w) =>
    let w' := record_access (ReadAccess address 1) w in
    match memory w !! address with
    | Some b => (Ret b, (self, w'))
    | None => (Raise (MemoryReadError address 1), (self, w'))
    end.

(** [pm.write_bytes(address, value, length)] with [length = len(value)]:
    the write goes through when the whole range is mapped. *)
Definition write_bytes (address : Z) (bytes : list Z) : M unit :=
  fun '(self, w) =>
    let w' := record_access (WriteAccess address bytes) w in
    match load_bytes (memory w) address (Z.of_nat (length bytes)) with
    | Some _ => (Ret tt, (self, set_memory (store_bytes address bytes (memory w)) w'))
    | None => (Raise (MemoryWriteError address), (self, w'))
    end.

(** [pm.write_uchar(address, value)]: [ctypes.c_ubyte(value)] keeps the low
    eight bits of the integer. *)
Definition write_uchar (address value : Z) : M unit :=
  write_bytes address [value `mod` 256].

(** ** [int.to_bytes] and [int.from_bytes], big-endian, signed *)

Fixpoint be_encode (n : nat) (u : Z) : list Z :=
  match n with
  | O => []
  | S n' => (u / 256 ^ Z.of_nat n') `mod` 256 :: be_encode n' u
  end.

Definition be_decode (bytes : list Z) : Z :=
  fold_left (fun acc b => acc * 256 + b) bytes 0.

(** [value.to_bytes(n, "big", signed=True)]. *)
Definition to_bytes (n : nat) (value : Z) : result (list Z) :=
  let half := 2 ^ (8 * Z.of_nat n - 1) in
  if bool_decide (- half <= value < half)
  then Ok (be_encode n (value `mod` (2 * half)))
  else Err OverflowError.

(** [int.from_bytes(raw, "big", signed=True)]. *)
Definition from_bytes (raw : list Z) : Z :=
  let u := be_decode raw in
  let half := 2 ^ (8 * Z.of_nat (length raw) - 1) in
  if bool_decide (u < half) then u else u - 2 * half.

(** ** Python values that travel through the codec *)

Inductive pyval : Type :=
  | VInt (n : Z)
  | VBool (b : bool).

(** The value as an integer ([bool] is a subclass of [int]). *)
Definition int_of (v : pyval) : Z :=
  match v with
  | VInt n => n
  | VBool b => if b then 1 else 0
  end.

(** Truth value, as tested by [x if value else y]. *)
Definition truthy (v : pyval) : bool :=
  match v with
  | VInt n => negb (bool_decide (n = 0))
  | VBool b => b
  end.

(** An entry of the [OFFSETS] table of [config.py]. *)
Record field_info : Type := {
  offset : Z;
  type : string
}.

(** [d[key]] on a dict given by its items. *)
Fixpoint dict_get {V} (d : list (string * V)) (key : string) : result V :=
  match d with
  | [] => Err (KeyError key)
  | (k, v) :: rest => if bool_decide (k = key) then Ok v else dict_get rest key
  end.

(** ** Signals of the scanner thread *)

(** The text of a status message.  [ErrorScanning e] stands for the
    f-string "Error scanning memory: {e}" and [Populated n] for "Character
    data populated for {n} entries.". *)
Inductive message : Type :=
  | Text (text : string)
  | ErrorScanning (e : exn)
  | Populated (entries : nat).

(** The data of one character: field name to decoded value. *)
Definition character : Type := list (string * pyval).

(** [status_update = pyqtSignal(str, QColor)] and
    [scan_finished = pyqtSignal(list)]. *)
Inductive signal : Type :=
  | status_update (msg : message) (color : string)
  | scan_finished (data : list character).

(** ** class GameProcess *)

Section GameProcess.

(** The constants imported from [config.py], which is not part of the
    sources at hand: they are parameters of the development. *)
Variable STRUCT_SIZE : Z.
Variable PADDING_LENGTH : Z.
Variable PRECEDING_ZEROES : Z.
Variable FAST_SCAN : bool.
Variable FAST_SCAN_START_ADDRESS : Z.
Variable OFFSETS : list (string * field_info).

(** *** Process handling *)

Definition attach : M bool :=
  fun '(self, w) =>
    match open_process w (process_name self) with
    | Some h => (Ret true, (set_pm (Some h) self, w))
    | None => (Ret false, (set_pm None self, w))
    end.

Definition close : M unit :=
  fun '(self, w) =>
    match pm self with
    | Some _ => (Ret tt, (set_pm None self, w))
    | None => (Ret tt, (self, w))
    end.

Definition not_attached : exn :=
  RuntimeError "Process not attached. Call attach() first.".

Definition ensure_attached : M unit :=
  fun '(self, w) =>
    match pm self with
    | Some _ => (Ret tt, (self, w))
    | None => (Raise not_attached, (self, w))
    end.

(** *** Helpers *)

(** The generator inside [all(...)] of [_matches_pattern]: position [i] of
    the pattern onwards.  [all] stops at the first false element; a
    wildcard never indexes the data. *)
Fixpoint matches_from (data : list Z) (start i : Z) (pattern_bytes : list (option Z))
  : result bool :=
  match pattern_bytes with
  | [] => Ok true
  | None :: rest => matches_from data start (i + 1) rest
  | Some b :: rest =>
      match Py.getitem data (start + i) with
      | None => Err IndexError
      | Some d =>
          if bool_decide (d = b) then matches_from data start (i + 1) rest
          else Ok false
      end
  end.

Definition _matches_pattern (data : list Z) (start : Z) (pattern_bytes : list (option Z))
  : result bool :=
  matches_from data start 0 pattern_bytes.

(** The value read from a [ctypes.c_void_p] field of a structure: an
    integer, or [None] for a null pointer. *)
Definition c_void_p (v : Z) : option Z :=
  if bool_decide (v = 0) then None else Some v.

Definition get_memory_bounds : M (option Z * option Z) :=
  ensure_attached ;;;
  fun '(self, w) =>
    (Ret (c_void_p (lpMinimumApplicationAddress w),
          c_void_p (lpMaximumApplicationAddress w)), (self, w)).

(** *** Generic struct field access *)

Definition read_struct_field (base_address : Z) (field_name : string) : M pyval :=
  ensure_attached ;;;
  field_info <- lift (dict_get OFFSETS field_name) ;;
  let field_address := base_address + offset field_info in
  let field_type := type field_info in
  if bool_decide (field_type = "byte") then
    b <- read_uchar field_address ;; ret (VInt b)
  else if bool_decide (field_type = "bool") then
    b <- read_uchar field_address ;; ret (VBool (bool_decide (b = 0x80)))
  else if bool_decide (field_type = "int32") then
    raw <- read_bytes field_address 4 ;; ret (VInt (from_bytes raw))
  else raise (ValueError ("Unsupported field type: " +:+ field_type)).

Definition write_struct_field (base_address : Z) (field_name : string) (value : pyval)
  : M unit :=
  ensure_attached ;;;
  field_info <- lift (dict_get OFFSETS field_name) ;;
  let field_address := base_address + offset field_info in
  let field_type := type field_info in
  if bool_decide (field_type = "byte") then
    write_uchar field_address (int_of value)
  else if bool_decide (field_type = "bool") then
    write_uchar field_address (if truthy value then 0x80 else 0x00)
  else if bool_decide (field_type = "int32") then
    raw <- lift (to_bytes 4 (int_of value)) ;; write_bytes field_address raw
  else raise (ValueError ("Unsupported field type: " +:+ field_type)).

(** *** Memory scanning *)

Definition pattern_bytes : list (option Z) :=
  [Some 0x80]
  ++ Py.repeat None (STRUCT_SIZE - 1 - PADDING_LENGTH)
  ++ Py.repeat (Some 0x00) PADDING_LENGTH.

(** [all(self._matches_pattern(chunk, i + j * STRUCT_SIZE, pattern_bytes)
    for j in js)]: stops at the first window that does not match. *)
Fixpoint all_windows (chunk : list Z) (i : Z) (js : list Z) : result bool :=
  match js with
  | [] => Ok true
  | j :: rest =>
      match _matches_pattern chunk (i + j * STRUCT_SIZE) pattern_bytes with
      | Err e => Err e
      | Ok false => Ok false
      | Ok true => all_windows chunk i rest
      end
  end.

(** [any(b != 0x00 for b in chunk[i - PRECEDING_ZEROES : i])]. *)
Definition nonzero_before (chunk : list Z) (i : Z) : bool :=
  existsb (fun b => negb (bool_decide (b = 0x00)))
          (Py.slice chunk (i - PRECEDING_ZEROES) i).

(** The [for i in range(...)] loop over one chunk, from offset list
    [offsets] onwards: [Some (address + i)] is its [return], [None] means
    the loop ran to its end. *)
Fixpoint search_chunk (address : Z) (chunk : list Z) (offsets : list Z)
  : result (option Z) :=
  match offsets with
  | [] => Ok None
  | i :: rest =>
      if nonzero_before chunk i then search_chunk address chunk rest
      else
        match all_windows chunk i (Py.range 0 4) with
        | Err e => Err e
        | Ok true => Ok (Some (address + i))
        | Ok false => search_chunk address chunk rest
        end
  end.

Definition chunk_offsets (chunk : list Z) : list Z :=
  Py.range PRECEDING_ZEROES (Z.of_nat (length chunk) - STRUCT_SIZE * 4 + 1).

(** What the search asks of a buffer, in the order it asks: the slice
    [chunk[lo:hi]], a call of [_matches_pattern] at [start] with a pattern
    of [width] entries, and the subscript [data[k]]. *)
Inductive probe : Type :=
  | Sliced (lo hi : Z)
  | Matched (start width : Z)
  | Indexed (k : Z).

(** The same search, keeping beside each result the probes made to reach
    it.  A wildcard makes no probe, a subscript is probed before it can
    raise, and [all] and [any] stop where they stop above. *)
Fixpoint matches_from_log (data : list Z) (start i : Z)
  (pattern_bytes : list (option Z)) : result bool * list probe :=
  match pattern_bytes with
  | [] => (Ok true, [])
  | None :: rest => matches_from_log data start (i + 1) rest
  | Some b :: rest =>
      match Py.getitem data (start + i) with
      | None => (Err IndexError, [Indexed (start + i)])
      | Some d =>
          if bool_decide (d = b) then
            let '(r, log) := matches_from_log data start (i + 1) rest in
            (r, Indexed (start + i) :: log)
          else (Ok false, [Indexed (start + i)])
      end
  end.

Definition _matches_pattern_log (data : list Z) (start : Z)
  (pattern_bytes : list (option Z)) : result bool * list probe :=
  let '(r, log) := matches_from_log data start 0 pattern_bytes in
  (r, Matched start (Z.of_nat (length pattern_bytes)) :: log).

Fixpoint all_windows_log (chunk : list Z) (i : Z) (js : list Z)
  : result bool * list probe :=
  match js with
  | [] => (Ok true, [])
  | j :: rest =>
      match _matches_pattern_log chunk (i + j * STRUCT_SIZE) pattern_bytes with
      | (Err e, log) => (Err e, log)
      | (Ok false, log) => (Ok false, log)
      | (Ok true, log) =>
          let '(r, log') := all_windows_log chunk i rest in (r, log ++ log')
      end
  end.

Definition nonzero_before_log (chunk : list Z) (i : Z) : bool * list probe :=
  (existsb (fun b => negb (bool_decide (b = 0x00)))
     (Py.slice chunk (i - PRECEDING_ZEROES) i),
   [Sliced (i - PRECEDING_ZEROES) i]).

Fixpoint search_chunk_log (address : Z) (chunk : list Z) (offsets : list Z)
  : result (option Z) * list probe :=
  match offsets with
  | [] => (Ok None, [])
  | i :: rest =>
      let '(nonzero, log0) := nonzero_before_log chunk i in
      if nonzero then
        let '(r, log) := search_chunk_log address chunk rest in (r, log0 ++ log)
      else
        match all_windows_log chunk i (Py.range 0 4) with
        | (Err e, log1) => (Err e, log0 ++ log1)
        | (Ok true, log1) => (Ok (Some (address + i)), log0 ++ log1)
        | (Ok false, log1) =>
            let '(r, log) := search_chunk_log address chunk rest in
            (r, log0 ++ log1 ++ log)
        end
  end.

(** A probe that stays inside the buffer: a slice with both bounds in
    [0, len] and in order, a matcher window that lies in the buffer, a
    subscript in [0, len).  Negative bounds and subscripts, which Python
    counts from the end, are not inside. *)
Definition within (data : list Z) (p : probe) : Prop :=
  let n := Z.of_nat (length data) in
  match p with
  | Sliced lo hi => 0 <= lo /\ lo <= hi /\ hi <= n
  | Matched start width => 0 <= start /\ start + width <= n
  | Indexed k => 0 <= k < n
  end.

(** [ctypes.windll.kernel32.VirtualQueryEx(process_handle, address, ...)]:
    [None] when the call returns 0. *)
Definition VirtualQueryEx (process_handle address : Z)
  : M (option MEMORY_BASIC_INFORMATION) :=
  fun '(self, w) => (Ret (query w address), (self, w)).

(** [try: chunk = ... except pymem.exception.MemoryReadError: ...]: [None]
    stands for the handler being taken. *)
Definition try_read (m : M (list Z)) : M (option (list Z)) :=
  fun s =>
    match m s with
    | (Ret chunk, s') => (Ret (Some chunk), s')
    | (Raise (MemoryReadError _ _), s') => (Ret None, s')
    | (Raise e, s') => (Raise e, s')
    | (OutOfFuel, s') => (OutOfFuel, s')
    end.

(** How one turn of the [while] loop ends: with the next value of
    [address], or with the method's [return]. *)
Inductive control : Type :=
  | Continue (address : Z)
  | Return (found : option Z).

Definition chunk_size : Z := 0x1000.

(** The body of [while address < max_address]. *)
Definition scan_step (process_handle max_address address : Z) : M control :=
  mbi <- VirtualQueryEx process_handle address ;;
  match mbi with
  | None => ret (Continue (address + chunk_size))
  | Some mbi =>
      if bool_decide (State mbi = MEM_COMMIT)
         && (bool_decide (Protect mbi = PAGE_READWRITE)
             || bool_decide (Protect mbi = PAGE_EXECUTE_READWRITE))
      then
        let read_size := Z.min (RegionSize mbi) (max_address - address) in
        r <- try_read (read_bytes address read_size) ;;
        match r with
        | None => ret (Continue (address + RegionSize mbi))
        | Some chunk =>
            found <- lift (search_chunk address chunk (chunk_offsets chunk)) ;;
            match found with
            | Some a => ret (Return (Some a))
            | None => ret (Continue (address + RegionSize mbi))
            end
        end
      else ret (Continue (address + RegionSize mbi))
  end.

(** The [while] loop, cut off after [fuel] turns. *)
Fixpoint scan_loop (fuel : nat) (process_handle max_address address : Z)
  : M (option Z) :=
  match fuel with
  | O => fun s => (OutOfFuel, s)
  | S fuel' =>
      if bool_decide (address < max_address) then
        c <- scan_step process_handle max_address address ;;
        match c with
        | Continue address' => scan_loop fuel' process_handle max_address address'
        | Return found => ret found
        end
      else ret None
  end.

Definition start_address : Z :=
  if FAST_SCAN then FAST_SCAN_START_ADDRESS else 0.

(** [self.pm.process_handle], read after [ensure_attached]. *)
Definition process_handle : M Z :=
  fun '(self, w) =>
    match pm self with
    | Some h => (Ret h, (self, w))
    | None => (Raise not_attached, (self, w))
    end.

Definition find_first_character_address (fuel : nat) : M (option Z) :=
  ensure_attached ;;;
  h <- process_handle ;;
  let address := start_address in
  bounds <- get_memory_bounds ;;
  match snd bounds with
  | None =>
      (* the first test [address < max_address] compares an int with None *)
      raise TypeError
  | Some max_address => scan_loop fuel h max_address address
  end.

(** *** Character methods *)

(** The dict comprehension over [OFFSETS], in the table's order. *)
Fixpoint read_fields (base_address : Z) (names : list string)
  : M (list (string * pyval)) :=
  match names with
  | [] => ret []
  | field_name :: rest =>
      v <- read_struct_field base_address field_name ;;
      vs <- read_fields base_address rest ;;
      ret ((field_name, v) :: vs)
  end.

Definition get_character_data (base_address : Z) : M (list (string * pyval)) :=
  ensure_attached ;;;
  read_fields base_address (map fst OFFSETS).

(** The [for i in range(max_characters)] loop, from index list [indices]
    onwards, with the addresses appended so far. *)
Fixpoint collect_addresses (first_address : Z) (indices : list Z) (addresses : list Z)
  : M (list Z) :=
  match indices with
  | [] => ret addresses
  | i :: rest =>
      let address := first_address + i * STRUCT_SIZE in
      first_byte <- read_uchar address ;;
      if bool_decide (first_byte = 0x00) || bool_decide (first_byte = 0x80)
      then collect_addresses first_address rest (addresses ++ [address])
      else ret addresses
  end.

Definition get_character_addresses (fuel : nat) (max_characters : Z) : M (list Z) :=
  ensure_attached ;;;
  first_address <- find_first_character_address fuel ;;
  match first_address with
  | None => ret []
  | Some first_address =>
      collect_addresses first_address (Py.range 0 max_characters) []
  end.

(** The list comprehension of [get_all_character_data]. *)
Fixpoint read_characters (addresses : list Z) : M (list (list (string * pyval))) :=
  match addresses with
  | [] => ret []
  | address :: rest =>
      d <- get_character_data address ;;
      ds <- read_characters rest ;;
      ret (d :: ds)
  end.

Definition get_all_character_data (fuel : nat) (max_characters : Z)
  : M (list (list (string * pyval))) :=
  ensure_attached ;;;
  addresses <- get_character_addresses fuel max_characters ;;
  read_characters addresses.

(** *** class CharacterScannerThread *)

(** The run of the worker emits its signals and returns; [returned] is
    [OutOfFuel] when the scan was cut off before [run] could return. *)
Record worker_run : Type := {
  emitted : list signal;
  returned : outcome unit;
  final : state
}.

Definition run (fuel : nat) (max_characters : Z) (s : state) : worker_run :=
  let scanning :=
    status_update (Text "Scanning memory for character structs...") "#f0f0f0" in
  match get_all_character_data fuel max_characters s with
  | (Ret data, s') =>
      {| emitted := [scanning; scan_finished data]; returned := Ret tt; final := s' |}
  | (Raise e, s') =>
      {| emitted := [scanning; status_update (ErrorScanning e) "#ff5555"];
         returned := Ret tt; final := s' |}
  | (OutOfFuel, s') =>
      {| emitted := [scanning]; returned := OutOfFuel; final := s' |}
  end.

End GameProcess.

(** ** class GameProcessMonitor ([gui.py]): the scan life cycle

    The monitor lives on the GUI thread, whose event loop runs one handler
    at a time.  The model keeps the attributes the scan handlers read and
    write, and what Qt holds for them: the single-shot timers that are
    armed, the worker threads whose [run] has not returned, and the
    signals queued for delivery to the monitor's slots. *)

Module Gui.

Inductive status : Type :=
  | status_none
  | status_attached
  | status_detached.

Record GameProcessMonitor : Type := {
  attached : bool;
  character_data : list character;
  first_character_address : option Z;
  scanner : option nat;
  scanning : bool;
  scan_complete : bool;
  last_status : status;
  status_log : list (message * string);
  apply_changes_enabled : bool;
  rescan_enabled : bool;
  (* Qt *)
  armed_timers : nat;
  threads_created : nat;
  workers_running : list nat;
  signal_queue : list signal
}.

Definition init : GameProcessMonitor :=
  {| attached := false; character_data := []; first_character_address := None;
     scanner := None; scanning := false; scan_complete := false;
     last_status := status_none; status_log := [];
     apply_changes_enabled := false; rescan_enabled := false;
     armed_timers := 0; threads_created := 0; workers_running := [];
     signal_queue := [] |}.

Section Monitor.

(** The signals the run of worker [id] emits, and what the synchronous
    [find_first_character_address] call of [populate_character_fields]
    returns. *)
Variable worker_signals : nat -> list signal.
Variable located_address : option Z.
Variable PROCESS_NAME : string.

Definition append_status (msg : message) (color : string) (g : GameProcessMonitor)
  : GameProcessMonitor :=
  {| attached := attached g; character_data := character_data g;
     first_character_address := first_character_address g;
     scanner := scanner g; scanning := scanning g; scan_complete := scan_complete g;
     last_status := last_status g;
     status_log := status_log g ++ [(msg, color)];
     apply_changes_enabled := apply_changes_enabled g;
     rescan_enabled := rescan_enabled g;
     armed_timers := armed_timers g; threads_created := threads_created g;
     workers_running := workers_running g; signal_queue := signal_queue g |}.

(** The [run] of thread [id] returns: its signals are queued for the GUI
    thread.  Nothing happens for a thread that is not running.  All the
    signals of a run are queued here, at its end, the scanning status
    included, which the code queues when the run starts: the order of the
    status lines of different senders is not that of the code. *)
Definition finish_worker (id : nat) (g : GameProcessMonitor) : GameProcessMonitor :=
  if bool_decide (id ∈ workers_running g) then
    {| attached := attached g; character_data := character_data g;
       first_character_address := first_character_address g;
       scanner := scanner g; scanning := scanning g; scan_complete := scan_complete g;
       last_status := last_status g; status_log := status_log g;
       apply_changes_enabled := apply_changes_enabled g;
       rescan_enabled := rescan_enabled g;
       armed_timers := armed_timers g; threads_created := threads_created g;
       workers_running := filter (fun j => j <> id) (workers_running g);
       signal_queue := signal_queue g ++ worker_signals id |}
  else g.

Definition set_scanner (t : option nat) (g : GameProcessMonitor) : GameProcessMonitor :=
  {| attached := attached g; character_data := character_data g;
     first_character_address := first_character_address g;
     scanner := t; scanning := scanning g; scan_complete := scan_complete g;
     last_status := last_status g; status_log := status_log g;
     apply_changes_enabled := apply_changes_enabled g;
     rescan_enabled := rescan_enabled g;
     armed_timers := armed_timers g; threads_created := threads_created g;
     workers_running := workers_running g; signal_queue := signal_queue g |}.

(** [scanner.quit(); scanner.wait(); self.scanner = None]: [wait] blocks
    until the thread's [run] has returned. *)
Definition stop_scanner (g : GameProcessMonitor) : GameProcessMonitor :=
  match scanner g with
  | Some id => set_scanner None (finish_worker id g)
  | None => g
  end.

(** Creates a [CharacterScannerThread], connects its signals and starts
    it.  There is no test of [self.scanner] here. *)
Definition _begin_scan (g : GameProcessMonitor) : GameProcessMonitor :=
  let id := threads_created g in
  {| attached := attached g; character_data := character_data g;
     first_character_address := first_character_address g;
     scanner := Some id; scanning := scanning g; scan_complete := scan_complete g;
     last_status := last_status g; status_log := status_log g;
     apply_changes_enabled := apply_changes_enabled g;
     rescan_enabled := rescan_enabled g;
     armed_timers := armed_timers g; threads_created := S id;
     workers_running := workers_running g ++ [id];
     signal_queue := signal_queue g |}.

Definition start_scan (g : GameProcessMonitor) : GameProcessMonitor :=
  if negb (attached g) then
    append_status
      (Text ("Cannot scan because " +:+ PROCESS_NAME
             +:+ " is not attached. Please start the game first."))
      "#ff5555" g
  else
    match scanner g with
    | Some _ => append_status (Text "Scan already in progress.") "#ffa500" g
    | None =>
        let g1 :=
          {| attached := attached g; character_data := character_data g;
             first_character_address := first_character_address g;
             scanner := scanner g; scanning := true;
             scan_complete := scan_complete g;
             last_status := last_status g; status_log := status_log g;
             apply_changes_enabled := false; rescan_enabled := false;
             armed_timers := armed_timers g; threads_created := threads_created g;
             workers_running := workers_running g;
             signal_queue := signal_queue g |} in
        let g2 := append_status (Text "Starting scan in 3 seconds...") "#2196f3" g1 in
        (* QTimer.singleShot(3000, self._begin_scan) *)
        {| attached := attached g2; character_data := character_data g2;
           first_character_address := first_character_address g2;
           scanner := scanner g2; scanning := scanning g2;
           scan_complete := scan_complete g2;
           last_status := last_status g2; status_log := status_log g2;
           apply_changes_enabled := apply_changes_enabled g2;
           rescan_enabled := rescan_enabled g2;
           armed_timers := S (armed_timers g2);
           threads_created := threads_created g2;
           workers_running := workers_running g2;
           signal_queue := signal_queue g2 |}
    end.

(** [check_process], given what [self.game_process.attach()] returns.
    [attach] catches its own exceptions, so the handler of the [try] is
    not taken. *)
Definition check_process (attach_ok : bool) (g : GameProcessMonitor)
  : GameProcessMonitor :=
  if attach_ok then
    if negb (attached g) then
      let g1 :=
        {| attached := true; character_data := character_data g;
           first_character_address := first_character_address g;
           scanner := scanner g; scanning := scanning g;
           scan_complete := scan_complete g;
           last_status := last_status g; status_log := status_log g;
           apply_changes_enabled := apply_changes_enabled g;
           rescan_enabled := rescan_enabled g;
           armed_timers := armed_timers g; threads_created := threads_created g;
           workers_running := workers_running g;
           signal_queue := signal_queue g |} in
      let g2 :=
        append_status (Text ("Successfully connected to " +:+ PROCESS_NAME +:+ "!"))
          "#4caf50" g1 in
      let g3 := start_scan g2 in
      {| attached := attached g3; character_data := character_data g3;
         first_character_address := first_character_address g3;
         scanner := scanner g3; scanning := scanning g3;
         scan_complete := scan_complete g3;
         last_status := status_attached; status_log := status_log g3;
         apply_changes_enabled := apply_changes_enabled g3;
         rescan_enabled := rescan_enabled g3;
         armed_timers := armed_timers g3; threads_created := threads_created g3;
         workers_running := workers_running g3;
         signal_queue := signal_queue g3 |}
    else g
  else
    match last_status g with
    | status_detached => g
    | _ =>
        let g1 :=
          {| attached := false; character_data := character_data g;
             first_character_address := None;
             scanner := scanner g; scanning := scanning g;
             scan_complete := scan_complete g;
             last_status := last_status g; status_log := status_log g;
             apply_changes_enabled := apply_changes_enabled g;
             rescan_enabled := rescan_enabled g;
             armed_timers := armed_timers g; threads_created := threads_created g;
             workers_running := workers_running g;
             signal_queue := signal_queue g |} in
        let g2 :=
          append_status (Text ("Waiting for " +:+ PROCESS_NAME +:+ " to start..."))
            "#f0f0f0" g1 in
        let g3 := stop_scanner g2 in
        {| attached := attached g3; character_data := character_data g3;
           first_character_address := first_character_address g3;
           scanner := scanner g3; scanning := scanning g3;
           scan_complete := scan_complete g3;
           last_status := status_detached; status_log := status_log g3;
           apply_changes_enabled := false; rescan_enabled := false;
           armed_timers := armed_timers g3; threads_created := threads_created g3;
           workers_running := workers_running g3;
           signal_queue := signal_queue g3 |}
    end.

(** The slot of [scan_finished].  The refresh of the widgets of the
    selected character is left out: it does not touch the scan state.  The
    call of [find_first_character_address] is taken to return
    [located_address]; a call that raises, which would skip the rest of the
    slot, is not covered. *)
Definition populate_character_fields (all_character_data : list character)
  (g : GameProcessMonitor) : GameProcessMonitor :=
  let g1 :=
    {| attached := attached g; character_data := all_character_data;
       first_character_address := located_address;
       scanner := scanner g; scanning := false; scan_complete := true;
       last_status := last_status g; status_log := status_log g;
       apply_changes_enabled := apply_changes_enabled g;
       rescan_enabled := rescan_enabled g;
       armed_timers := armed_timers g; threads_created := threads_created g;
       workers_running := workers_running g; signal_queue := signal_queue g |} in
  let g2 := append_status (Populated (length all_character_data)) "#4caf50" g1 in
  let g3 :=
    {| attached := attached g2; character_data := character_data g2;
       first_character_address := first_character_address g2;
       scanner := scanner g2; scanning := scanning g2;
       scan_complete := scan_complete g2;
       last_status := last_status g2; status_log := status_log g2;
       apply_changes_enabled :=
         if attached g2 then true else apply_changes_enabled g2;
       rescan_enabled := true;
       armed_timers := armed_timers g2; threads_created := threads_created g2;
       workers_running := workers_running g2; signal_queue := signal_queue g2 |} in
  stop_scanner g3.

(** What the event loop of the GUI thread, or a worker thread, does next. *)
Inductive event : Type :=
  | Timeout (attach_ok : bool)   (* the 1000 ms timer: [check_process] *)
  | SingleShot                   (* an armed single-shot timer fires *)
  | RescanClicked                (* a click on "Rescan Memory" *)
  | WorkerReturns (id : nat)     (* the [run] of a worker returns *)
  | Deliver.                     (* the next queued signal reaches its slot *)

Definition handle (e : event) (g : GameProcessMonitor) : GameProcessMonitor :=
  match e with
  | Timeout attach_ok => check_process attach_ok g
  | SingleShot =>
      match armed_timers g with
      | O => g
      | S n =>
          _begin_scan
            {| attached := attached g; character_data := character_data g;
               first_character_address := first_character_address g;
               scanner := scanner g; scanning := scanning g;
               scan_complete := scan_complete g;
               last_status := last_status g; status_log := status_log g;
               apply_changes_enabled := apply_changes_enabled g;
               rescan_enabled := rescan_enabled g;
               armed_timers := n; threads_created := threads_created g;
               workers_running := workers_running g;
               signal_queue := signal_queue g |}
      end
  | RescanClicked =>
      (* rescan_button.clicked.connect(lambda: monitor._begin_scan()); a
         disabled button emits no click *)
      if rescan_enabled g then _begin_scan g else g
  | WorkerReturns id => finish_worker id g
  | Deliver =>
      match signal_queue g with
      | [] => g
      | sig :: rest =>
          let g' :=
            {| attached := attached g; character_data := character_data g;
               first_character_address := first_character_address g;
               scanner := scanner g; scanning := scanning g;
               scan_complete := scan_complete g;
               last_status := last_status g; status_log := status_log g;
               apply_changes_enabled := apply_changes_enabled g;
               rescan_enabled := rescan_enabled g;
               armed_timers := armed_timers g;
               threads_created := threads_created g;
               workers_running := workers_running g;
               signal_queue := rest |} in
          match sig with
          | status_update msg color => append_status msg color g'
          | scan_finished data => populate_character_fields data g'
          end
      end
  end.

Definition handle_all (events : list event) (g : GameProcessMonitor)
  : GameProcessMonitor :=
  fold_left (fun g e => handle e g) events g.

(** The completion notifications the monitor has received so far. *)
Definition completions (g : GameProcessMonitor) : nat :=
  length (List.filter
            (fun entry => match entry.1 with Populated _ => true | _ => false end)
            (status_log g)).

End Monitor.

End Gui.

(** ** Level unlocks ([gui.py])

    The three "level unlocks" bytes of a character and the index of the
    matching entry in a flattened list of levels. *)

Module Levels.

(** An entry of a flattened list: a label and a tuple of integers. *)
Abbreviation flat_entry := (string * list Z)%type.

(** The cascade both functions apply to the three bytes: a byte that is
    not zero sets every lower byte to 0xFF. *)
Definition cascade (bytes : Z * Z * Z) : Z * Z * Z :=
  let '(byte0, byte1, byte2) := bytes in
  if bool_decide (byte2 <> 0) then (0xFF, 0xFF, byte2)
  else if bool_decide (byte1 <> 0) then (0xFF, byte1, byte2)
  else (byte0, byte1, byte2).

(** [for index, (_, values) in enumerate(flattened_list): if values ==
    cascaded_tuple: return index], from position [index] on. *)
Fixpoint exact_match (cascaded_tuple : list Z) (index : Z) (flattened_list : list flat_entry)
  : option Z :=
  match flattened_list with
  | [] => None
  | (_, values) :: rest =>
      if bool_decide (values = cascaded_tuple) then Some index
      else exact_match cascaded_tuple (index + 1) rest
  end.

(** [for index, (_, (ai, value)) in enumerate(flattened_list): if ai ==
    array_index and value == target: return index], from position [index]
    on.  Unpacking a tuple that is not a pair raises ValueError. *)
Fixpoint fallback_match (array_index target : Z) (index : Z)
  (flattened_list : list flat_entry) : result (option Z) :=
  match flattened_list with
  | [] => Ok None
  | (_, [ai; value]) :: rest =>
      if bool_decide (ai = array_index) && bool_decide (value = target)
      then Ok (Some index)
      else fallback_match array_index target (index + 1) rest
  | _ :: _ => Err (ValueError "values to unpack (expected 2)")
  end.

(** The target of the fallback: the highest byte that is not zero, and
    its position. *)
Definition fallback_target (bytes : Z * Z * Z) : Z * Z :=
  let '(byte0, byte1, byte2) := bytes in
  if bool_decide (byte2 <> 0) then (byte2, 2)
  else if bool_decide (byte1 <> 0) then (byte1, 1)
  else (byte0, 0).

Definition pick_cascading_flat_index (byte_tuple : Z * Z * Z)
  (flattened_list : list flat_entry) : result Z :=
  let '(byte0, byte1, byte2) := cascade byte_tuple in
  match exact_match [byte0; byte1; byte2] 0 flattened_list with
  | Some index => Ok index
  | None =>
      let '(target, array_index) := fallback_target (byte0, byte1, byte2) in
      match fallback_match array_index target 0 flattened_list with
      | Err e => Err e
      | Ok (Some index) => Ok index
      | Ok None => Ok 0
      end
  end.

(** [flat_to_bytes], the local function of [apply_current_changes]. *)
Definition flat_to_bytes (flat_list : list flat_entry) (index : Z) : result (Z * Z * Z) :=
  if negb (bool_decide (0 <= index < Z.of_nat (length flat_list))) then Ok (0, 0, 0)
  else
    match Py.getitem flat_list index with
    | None => Err IndexError
    | Some (_, [byte_index; value]) =>
        let b0 := if bool_decide (byte_index = 0) then value else 0 in
        let b1 := if bool_decide (byte_index = 1) then value else 0 in
        let b2 := if bool_decide (byte_index = 2) then value else 0 in
        Ok (cascade (b0, b1, b2))
    | Some _ => Err (ValueError "values to unpack (expected 2)")
    end.

End Levels.

(** ** [GameProcessMonitor.apply_current_changes] ([gui.py])

    The method reads the widgets through their getters, writes the fields
    of the selected character one after the other and keeps the scanned
    data of that character up to date. *)

Module Apply.

(** What the getters of the widgets return when the method runs. *)
Record widgets : Type := {
  character_unlocked_checked : bool;     (* checkboxes["character_unlocked"].isChecked() *)
  insane_mode_unlocked_checked : bool;   (* checkboxes["insane_mode_unlocked"].isChecked() *)
  combo_current_data : string -> pyval;  (* combos[name].currentData() *)
  combo_current_index : string -> Z;     (* combos[name].currentIndex() *)
  spinbox_values : list (string * Z)     (* spinboxes.items(), each with its value() *)
}.

(** The attributes of the monitor the method reads and writes. *)
Record editor : Type := {
  current_character_name : option string;
  first_character_address : option Z;
  character_data : list character;
  status_log : list (message * string)
}.

Definition append_status (msg : message) (color : string) (m : editor) : editor :=
  {| current_character_name := current_character_name m;
     first_character_address := first_character_address m;
     character_data := character_data m;
     status_log := status_log m ++ [(msg, color)] |}.

Definition set_character_data (data : list character) (m : editor) : editor :=
  {| current_character_name := current_character_name m;
     first_character_address := first_character_address m;
     character_data := data;
     status_log := status_log m |}.

(** [d[key] = value] on a dict given by its items: an existing key keeps
    its place, a new key goes to the end. *)
Fixpoint dict_set {V} (d : list (string * V)) (key : string) (value : V)
  : list (string * V) :=
  match d with
  | [] => [(key, value)]
  | (k, v) :: rest =>
      if bool_decide (k = key) then (k, value) :: rest
      else (k, v) :: dict_set rest key value
  end.

(** The position [data[index]] names, for an index that is in range. *)
Definition position {A} (data : list A) (index : Z) : nat :=
  if bool_decide (0 <= index) then Z.to_nat index
  else Z.to_nat (Z.of_nat (length data) + index).

Section Apply.

Variable STRUCT_SIZE : Z.
Variable OFFSETS : list (string * field_info).
(** [CHARACTERS[name]["id"]] for the names the table has. *)
Variable CHARACTERS : list (string * Z).
Variable NORMAL_LEVEL_UNLOCKS_FLAT : list (string * list Z).
Variable INSANE_LEVEL_UNLOCKS_FLAT : list (string * list Z).

(** A run of [write_struct_field] calls on one record, in order, up to
    the first that raises.  With [remember] set, each write that went
    through is followed by [character_memory_block[field_name] = value]. *)
Fixpoint write_fields (remember : bool) (character_base_address : Z)
  (fields : list (string * pyval)) (block : character) (s : state)
  : outcome unit * character * state :=
  match fields with
  | [] => (Ret tt, block, s)
  | (field_name, value) :: rest =>
      match write_struct_field OFFSETS character_base_address field_name value s with
      | (Ret _, s') =>
          write_fields remember character_base_address rest
            (if remember then dict_set block field_name value else block) s'
      | (Raise e, s') => (Raise e, block, s')
      | (OutOfFuel, s') => (OutOfFuel, block, s')
      end
  end.

(** The two check boxes and the four combo boxes. *)
Definition plain_fields (ui : widgets) : list (string * pyval) :=
  [("is_character_unlocked",
    VInt (if character_unlocked_checked ui then 0x80 else 0x00));
   ("insane_mode",
    VInt (if insane_mode_unlocked_checked ui then 0x01 else 0x00))]
  ++ map (fun combo_name => (combo_name, combo_current_data ui combo_name))
       ["weapon"; "animal_type"; "relic_unlocks"; "skull"].

(** The six level bytes, zipped with their field names. *)
Definition level_fields (normal insane : Z * Z * Z) : list (string * pyval) :=
  let '(normal_level_byte0, normal_level_byte1, normal_level_byte2) := normal in
  let '(insane_level_byte0, insane_level_byte1, insane_level_byte2) := insane in
  [("normal_level_unlocks_0", VInt normal_level_byte0);
   ("normal_level_unlocks_1", VInt normal_level_byte1);
   ("normal_level_unlocks_2", VInt normal_level_byte2);
   ("insane_level_unlocks_0", VInt insane_level_byte0);
   ("insane_level_unlocks_1", VInt insane_level_byte1);
   ("insane_level_unlocks_2", VInt insane_level_byte2)].

(** The stats: the level is shown one higher than it is stored. *)
Definition stat_fields (ui : widgets) : list (string * pyval) :=
  map (fun '(stat_name, value) =>
         (stat_name,
          VInt (if bool_decide (stat_name = "level") then value - 1 else value)))
    (spinbox_values ui).

(** The body of the method once a character and the first address are
    known: the writes to the record of character [id]. *)
Definition apply_to_character (ui : widgets) (m : editor) (s : state)
  (selected_name : string) (id first_address : Z)
  : outcome unit * editor * state :=
  let character_index := id - 1 in
  let character_base_address := first_address + character_index * STRUCT_SIZE in
  match Py.getitem (character_data m) character_index with
  | None => (Raise IndexError, m, s)
  | Some block =>
      let store block' :=
        set_character_data
          (<[position (character_data m) character_index := block']>
             (character_data m)) m in
      match write_fields false character_base_address (plain_fields ui) block s with
      | (Ret _, _, s1) =>
          match
            Levels.flat_to_bytes NORMAL_LEVEL_UNLOCKS_FLAT
              (combo_current_index ui "normal_level_unlocks"),
            Levels.flat_to_bytes INSANE_LEVEL_UNLOCKS_FLAT
              (combo_current_index ui "insane_level_unlocks")
          with
          | Err e, _ => (Raise e, m, s1)
          | Ok _, Err e => (Raise e, m, s1)
          | Ok normal, Ok insane =>
              match write_fields true character_base_address
                      (level_fields normal insane ++ stat_fields ui) block s1 with
              | (Ret _, block', s2) =>
                  (Ret tt,
                   append_status
                     (Text ("Applied changes to " +:+ selected_name +:+ "."))
                     "#4caf50" (store block'),
                   s2)
              | (o, block', s2) => (o, store block', s2)
              end
          end
      | (o, _, s1) => (o, m, s1)
      end
  end.

(** The method, given the widgets: its outcome, the monitor and the
    process afterwards. *)
Definition apply_current_changes (ui : widgets) (m : editor) (s : state)
  : outcome unit * editor * state :=
  let no_character :=
    (Ret tt, append_status (Text "No character selected.") "#ff5555" m, s) in
  let no_address :=
    (Ret tt, append_status (Text "No base address yet.") "#ff5555" m, s) in
  match current_character_name m with
  | None => no_character
  | Some selected_name =>
      if bool_decide (selected_name = "") then no_character
      else
        match dict_get CHARACTERS selected_name with
        | Err _ => no_character
        | Ok id =>
            match first_character_address m with
            | None => no_address
            | Some first_address =>
                if bool_decide (first_address = 0) then no_address
                else apply_to_character ui m s selected_name id first_address
            end
        end
  end.

End Apply.

End Apply.

(** * Properties *)

(** ** The byte-pattern matcher *)

Lemma matches_from_true data start i pat :
  matches_from data start i pat = Ok true <->
  forall (p : nat) b, pat !! p = Some (Some b) ->
    Py.getitem data (start + (i + Z.of_nat p)) = Some b.
Proof.
  revert i. induction pat as [|[b0|] rest IH]; intros i; simpl.
  - split; [intros _ p b Hp; by rewrite lookup_nil in Hp | done].
  - destruct (Py.getitem data (start + i)) as [d|] eqn:Hd.
    + case_bool_decide as Hdb.
      * subst d. rewrite IH. split.
        -- intros H [|p] b Hp; simpl in Hp.
           ++ injection Hp as <-. by rewrite Z.add_0_r.
           ++ rewrite <- (H p b Hp). f_equal. lia.
        -- intros H p b Hp. rewrite <- (H (S p) b Hp). f_equal. lia.
      * split; [done|]. intros H. specialize (H O b0 eq_refl).
        rewrite Z.add_0_r in H. congruence.
    + split; [done|]. intros H. specialize (H O b0 eq_refl).
      rewrite Z.add_0_r in H. congruence.
  - rewrite IH. split.
    + intros H [|p] b Hp; simpl in Hp; [done|].
      rewrite <- (H p b Hp). f_equal. lia.
    + intros H p b Hp. rewrite <- (H (S p) b Hp). f_equal. lia.
Qed.

Lemma matches_from_wildcards data start i pat :
  Forall (fun b => b = None) pat -> matches_from data start i pat = Ok true.
Proof.
  intros H. revert i. induction H as [|b rest -> _ IH]; intros i; simpl; auto.
Qed.

(** Inside the buffer the matcher never raises. *)
Lemma matches_from_in_bounds data start i pat :
  0 <= start + i ->
  start + i + Z.of_nat (length pat) <= Z.of_nat (length data) ->
  exists r, matches_from data start i pat = Ok r.
Proof.
  revert i. induction pat as [|[b0|] rest IH]; intros i Hlo Hhi; simpl in *.
  - eauto.
  - unfold Py.getitem. rewrite bool_decide_true by lia.
    destruct (lookup_lt_is_Some_2 data (Z.to_nat (start + i))) as [d ->]; [lia|].
    case_bool_decide; [|eauto]. apply IH; lia.
  - apply IH; lia.
Qed.

(** C2: the matcher returns true exactly when every non-wildcard position
    of the pattern equals the byte of the buffer at that position (indexed
    the way Python indexes [data[start + i]]); an all-wildcard pattern
    matches whatever the buffer holds; and while the window lies inside the
    buffer the call returns a boolean.  The function is pure: it takes and
    returns no state. *)
Theorem matches_pattern_spec (data : list Z) (start : Z) (pattern : list (option Z)) :
  (_matches_pattern data start pattern = Ok true <->
   forall (p : nat) b, pattern !! p = Some (Some b) ->
     Py.getitem data (start + Z.of_nat p) = Some b)
  /\ (Forall (fun b => b = None) pattern ->
      _matches_pattern data start pattern = Ok true)
  /\ (0 <= start ->
      start + Z.of_nat (length pattern) <= Z.of_nat (length data) ->
      exists r, _matches_pattern data start pattern = Ok r).
Proof.
  unfold _matches_pattern. split; [|split].
  - apply matches_from_true.
  - apply matches_from_wildcards.
  - intros H1 H2. apply matches_from_in_bounds; lia.
Qed.

(** ** Memory primitives *)

Lemma load_bytes_spec mem address length bytes :
  load_bytes mem address length = Some bytes <->
  List.length bytes = Z.to_nat length /\
  forall (k : nat) b, bytes !! k = Some b -> mem !! (address + Z.of_nat k) = Some b.
Proof.
  unfold load_bytes. rewrite mapM_Some. split.
  - intros H. split.
    + rewrite <- (Forall2_length _ _ _ H). apply length_seqZ.
    + intros k b Hk.
      destruct (Forall2_lookup_r _ _ _ _ _ H Hk) as (a & Ha & Hab).
      apply lookup_seqZ in Ha as [-> _]. exact Hab.
  - intros [Hlen H]. apply Forall2_same_length_lookup_2.
    + by rewrite length_seqZ.
    + intros k a b Ha Hb. apply lookup_seqZ in Ha as [-> _]. by apply H.
Qed.

Lemma load_bytes_is_Some mem address length :
  is_Some (load_bytes mem address length) <->
  forall a, address <= a < address + length -> is_Some (mem !! a).
Proof.
  unfold load_bytes. rewrite mapM_is_Some, Forall_seqZ. reflexivity.
Qed.

Lemma store_bytes_lookup_below address bytes mem a :
  a < address -> store_bytes address bytes mem !! a = mem !! a.
Proof.
  revert address. induction bytes as [|b rest IH]; intros address Ha; simpl; [done|].
  rewrite lookup_insert_ne by lia. apply IH. lia.
Qed.

Lemma store_bytes_lookup address bytes mem (k : nat) b :
  bytes !! k = Some b ->
  store_bytes address bytes mem !! (address + Z.of_nat k) = Some b.
Proof.
  revert address k. induction bytes as [|b0 rest IH]; intros address k Hk; [done|].
  destruct k as [|k]; simpl in *.
  - injection Hk as ->. rewrite Z.add_0_r. apply lookup_insert_eq.
  - rewrite lookup_insert_ne by lia.
    replace (address + Z.of_nat (S k)) with (address + 1 + Z.of_nat k) by lia.
    by apply (IH (address + 1)).
Qed.

Lemma load_store_bytes address bytes mem :
  load_bytes (store_bytes address bytes mem) address (Z.of_nat (length bytes)) = Some bytes.
Proof.
  apply load_bytes_spec. split; [lia|]. intros k b Hk. by apply store_bytes_lookup.
Qed.

(** ** [to_bytes] and [from_bytes] *)

Lemma be_encode_length n u : length (be_encode n u) = n.
Proof. induction n; simpl; congruence. Qed.

Lemma be_decode_encode_acc n u acc :
  fold_left (fun a b => a * 256 + b) (be_encode n u) acc
  = acc * 256 ^ Z.of_nat n + u `mod` 256 ^ Z.of_nat n.
Proof.
  revert acc. induction n as [|n IH]; intros acc.
  - simpl. rewrite Z.mod_1_r. lia.
  - cbn [be_encode fold_left]. rewrite IH.
    rewrite Nat2Z.inj_succ, Z.pow_succ_r by lia.
    rewrite (Z.mul_comm 256 (256 ^ Z.of_nat n)).
    rewrite (Z.rem_mul_r u (256 ^ Z.of_nat n) 256) by lia.
    lia.
Qed.

Lemma be_decode_encode n u : be_decode (be_encode n u) = u `mod` 256 ^ Z.of_nat n.
Proof. unfold be_decode. rewrite be_decode_encode_acc. lia. Qed.

Lemma from_to_bytes_int32 (v : Z) :
  - 2147483648 <= v <= 2147483647 ->
  exists raw, to_bytes 4 v = Ok raw /\ length raw = 4%nat /\ from_bytes raw = v
    /\ raw = [(v `mod` 4294967296 / 16777216) `mod` 256;
              (v `mod` 4294967296 / 65536) `mod` 256;
              (v `mod` 4294967296 / 256) `mod` 256;
              (v `mod` 4294967296) `mod` 256].
Proof.
  intros Hv. unfold to_bytes.
  change (2 ^ (8 * Z.of_nat 4 - 1)) with 2147483648.
  rewrite bool_decide_true by lia.
  change (2 * 2147483648) with 4294967296.
  eexists. split; [reflexivity|]. split; [apply be_encode_length|]. split.
  - unfold from_bytes. rewrite be_decode_encode, be_encode_length.
    change (256 ^ Z.of_nat 4) with 4294967296.
    change (2 ^ (8 * Z.of_nat 4 - 1)) with 2147483648.
    rewrite Zmod_mod.
    case_bool_decide; Z.div_mod_to_equations; lia.
  - cbn [be_encode]. 
    change (256 ^ Z.of_nat 3) with 16777216. change (256 ^ Z.of_nat 2) with 65536.
    change (256 ^ Z.of_nat 1) with 256. change (256 ^ Z.of_nat 0) with 1.
    by rewrite Z.div_1_r.
Qed.

(** ** Running the primitives *)

#[local] Arguments read_uchar : simpl never.
#[local] Arguments read_bytes : simpl never.
#[local] Arguments write_bytes : simpl never.
#[local] Arguments write_uchar : simpl never.
#[local] Arguments ensure_attached : simpl never.

Lemma ensure_attached_ok self w h :
  pm self = Some h -> ensure_attached (self, w) = (Ret tt, (self, w)).
Proof. intros H. unfold ensure_attached. by rewrite H. Qed.

Lemma ensure_attached_none self w :
  pm self = None -> ensure_attached (self, w) = (Raise not_attached, (self, w)).
Proof. intros H. unfold ensure_attached. by rewrite H. Qed.

Lemma read_uchar_ok self w address b :
  memory w !! address = Some b ->
  read_uchar address (self, w)
  = (Ret b, (self, record_access (ReadAccess address 1) w)).
Proof. intros H. unfold read_uchar. by rewrite H. Qed.

Lemma read_bytes_ok self w address length bytes :
  load_bytes (memory w) address length = Some bytes ->
  read_bytes address length (self, w)
  = (Ret bytes, (self, record_access (ReadAccess address length) w)).
Proof. intros H. unfold read_bytes. by rewrite H. Qed.

Lemma write_bytes_ok self w address bytes :
  is_Some (load_bytes (memory w) address (Z.of_nat (length bytes))) ->
  write_bytes address bytes (self, w)
  = (Ret tt, (self, set_memory (store_bytes address bytes (memory w))
                      (record_access (WriteAccess address bytes) w))).
Proof. intros [old H]. unfold write_bytes. by rewrite H. Qed.

Lemma write_uchar_ok self w address value :
  is_Some (memory w !! address) ->
  write_uchar address value (self, w)
  = (Ret tt, (self, set_memory (<[address := value `mod` 256]> (memory w))
                      (record_access (WriteAccess address [value `mod` 256]) w))).
Proof.
  intros H. unfold write_uchar. rewrite write_bytes_ok; [done|].
  apply load_bytes_is_Some. intros a Ha. simpl in Ha.
  by replace a with address by lia.
Qed.

(** ** The field codec *)

Section Codec.

Variable OFFSETS : list (string * field_info).

(** The values a field type is declared to hold. *)
Definition valid_value (field_type : string) (v : pyval) : Prop :=
  (field_type = "byte" /\ exists n, v = VInt n /\ 0 <= n <= 255)
  \/ (field_type = "bool" /\ exists b, v = VBool b)
  \/ (field_type = "int32" /\ exists n, v = VInt n /\ - 2147483648 <= n <= 2147483647).

(** The number of bytes a field type occupies. *)
Definition field_width (field_type : string) : Z :=
  if bool_decide (field_type = "int32") then 4 else 1.

(** C4: a boolean field decodes to true exactly when the stored byte is
    0x80, so a stored 0x01 decodes to false; encoding writes the single
    byte 0x80 for true and 0x00 for false. *)
Theorem bool_field_codec self w h base_address field_name fi :
  pm self = Some h ->
  dict_get OFFSETS field_name = Ok fi ->
  type fi = "bool" ->
  let address := base_address + offset fi in
  (forall b, memory w !! address = Some b ->
     exists r, fst (read_struct_field OFFSETS base_address field_name (self, w))
               = Ret (VBool r) /\ (r = true <-> b = 0x80))
  /\ (memory w !! address = Some 0x01 ->
      fst (read_struct_field OFFSETS base_address field_name (self, w))
      = Ret (VBool false))
  /\ (forall v : bool, is_Some (memory w !! address) ->
      let byte := if v then 0x80 else 0x00 in
      write_struct_field OFFSETS base_address field_name (VBool v) (self, w)
      = (Ret tt, (self, set_memory (<[address := byte]> (memory w))
                          (record_access (WriteAccess address [byte]) w)))).
Proof.
  intros Hpm Hget Hty address.
  assert (Hread : forall b, memory w !! address = Some b ->
            fst (read_struct_field OFFSETS base_address field_name (self, w))
            = Ret (VBool (bool_decide (b = 0x80)))).
  { intros b Hb. unfold read_struct_field, bind.
    rewrite (ensure_attached_ok _ _ _ Hpm), Hget. simpl. rewrite Hty. simpl.
    fold address. by rewrite (read_uchar_ok _ _ _ _ Hb). }
  split; [|split].
  - intros b Hb. eexists. split; [by apply Hread|]. by rewrite bool_decide_eq_true.
  - intros Hb. by rewrite (Hread _ Hb).
  - intros v Hv byte. unfold write_struct_field, bind.
    rewrite (ensure_attached_ok _ _ _ Hpm), Hget. simpl. rewrite Hty. simpl.
    fold address. rewrite (write_uchar_ok _ _ _ _ Hv). by destruct v.
Qed.

(** C3: for a field of type byte, bool or int32 and a value in the range of
    that type, writing the field and reading it back from the memory the
    write left yields the value written; an int32 is laid out as four
    bytes, most significant first, in two's complement. *)
Theorem write_read_roundtrip self w h base_address field_name fi v :
  pm self = Some h ->
  dict_get OFFSETS field_name = Ok fi ->
  valid_value (type fi) v ->
  let address := base_address + offset fi in
  is_Some (load_bytes (memory w) address (field_width (type fi))) ->
  exists w1,
    write_struct_field OFFSETS base_address field_name v (self, w)
    = (Ret tt, (self, w1))
    /\ fst (read_struct_field OFFSETS base_address field_name (self, w1)) = Ret v
    /\ (forall n, type fi = "int32" -> v = VInt n ->
        let u := n `mod` 4294967296 in
        memory w1 = <[address := (u / 16777216) `mod` 256]>
                    (<[address + 1 := (u / 65536) `mod` 256]>
                    (<[address + 2 := (u / 256) `mod` 256]>
                    (<[address + 3 := u `mod` 256]> (memory w))))).
Proof.
  intros Hpm Hget Hval address Hmapped.
  unfold write_struct_field, read_struct_field, bind.
  rewrite (ensure_attached_ok _ _ _ Hpm), Hget. cbn [lift ret]. fold address.
  destruct Hval as [[Hty (n & -> & Hn)]|[[Hty (b & ->)]|[Hty (n & -> & Hn)]]];
    rewrite Hty in *; cbn [bool_decide decide_rel] in *.
  - assert (Hb : is_Some (memory w !! address)).
    { apply (proj1 (load_bytes_is_Some _ _ _) Hmapped). unfold field_width; simpl. lia. }
    simpl. rewrite (write_uchar_ok _ _ _ _ Hb). eexists. split; [reflexivity|].
    rewrite (ensure_attached_ok _ _ _ Hpm). simpl.
    split; [|intros ? [=]].
    erewrite read_uchar_ok; [|simpl; apply lookup_insert_eq].
    simpl. by rewrite Z.mod_small by lia.
  - assert (Hb : is_Some (memory w !! address)).
    { apply (proj1 (load_bytes_is_Some _ _ _) Hmapped). unfold field_width; simpl. lia. }
    simpl. rewrite (write_uchar_ok _ _ _ _ Hb). eexists. split; [reflexivity|].
    rewrite (ensure_attached_ok _ _ _ Hpm). simpl.
    split; [|intros ? [=]].
    erewrite read_uchar_ok; [|simpl; apply lookup_insert_eq].
    simpl. by destruct b.
  - destruct (from_to_bytes_int32 n Hn) as (raw & Hto & Hlen & Hfrom & Hraw).
    simpl. rewrite Hto. cbn [lift ret].
    rewrite write_bytes_ok by (by rewrite Hlen).
    eexists. split; [reflexivity|].
    rewrite (ensure_attached_ok _ _ _ Hpm). simpl.
    split.
    + erewrite read_bytes_ok.
      * simpl. by rewrite Hfrom.
      * simpl. change 4 with (Z.of_nat 4). rewrite <- Hlen. apply load_store_bytes.
    + intros n' _ [= <-]. simpl. rewrite Hraw. simpl.
      by replace (address + 1 + 1) with (address + 2) by lia;
         replace (address + 2 + 1) with (address + 3) by lia.
Qed.

(** C8: a field whose descriptor declares any other type makes both the
    read and the write raise the unsupported-field-type error, and neither
    touches the target process: the machine, with its memory and its record
    of accesses, is left as it was. *)
Theorem unsupported_field_type self w h base_address field_name fi v :
  pm self = Some h ->
  dict_get OFFSETS field_name = Ok fi ->
  type fi <> "byte" -> type fi <> "bool" -> type fi <> "int32" ->
  read_struct_field OFFSETS base_address field_name (self, w)
  = (Raise (ValueError ("Unsupported field type: " +:+ type fi)), (self, w))
  /\ write_struct_field OFFSETS base_address field_name v (self, w)
  = (Raise (ValueError ("Unsupported field type: " +:+ type fi)), (self, w)).
Proof.
  intros Hpm Hget H1 H2 H3.
  unfold read_struct_field, write_struct_field, bind.
  rewrite (ensure_attached_ok _ _ _ Hpm), Hget. cbn [lift ret].
  by rewrite !bool_decide_false by done.
Qed.

End Codec.

(** ** Attachment *)

Section Attachment.

Variable STRUCT_SIZE : Z.
Variable PADDING_LENGTH : Z.
Variable PRECEDING_ZEROES : Z.
Variable FAST_SCAN : bool.
Variable FAST_SCAN_START_ADDRESS : Z.
Variable OFFSETS : list (string * field_info).

(** Every operation of [GameProcess] other than [attach] and [close],
    started in state [s], raises the not-attached error and leaves [s] as
    it is. *)
Definition reports_not_attached (s : state) : Prop :=
  (forall base_address field_name,
     read_struct_field OFFSETS base_address field_name s = (Raise not_attached, s))
  /\ (forall base_address field_name value,
     write_struct_field OFFSETS base_address field_name value s = (Raise not_attached, s))
  /\ (forall fuel,
     find_first_character_address STRUCT_SIZE PADDING_LENGTH PRECEDING_ZEROES
       FAST_SCAN FAST_SCAN_START_ADDRESS fuel s = (Raise not_attached, s))
  /\ get_memory_bounds s = (Raise not_attached, s)
  /\ (forall base_address,
     get_character_data OFFSETS base_address s = (Raise not_attached, s))
  /\ (forall fuel max_characters,
     get_character_addresses STRUCT_SIZE PADDING_LENGTH PRECEDING_ZEROES
       FAST_SCAN FAST_SCAN_START_ADDRESS fuel max_characters s = (Raise not_attached, s))
  /\ (forall fuel max_characters,
     get_all_character_data STRUCT_SIZE PADDING_LENGTH PRECEDING_ZEROES
       FAST_SCAN FAST_SCAN_START_ADDRESS OFFSETS fuel max_characters s
     = (Raise not_attached, s)).

Lemma reports_not_attached_intro self w :
  pm self = None -> reports_not_attached (self, w).
Proof.
  intros H. repeat split; intros;
    unfold read_struct_field, write_struct_field, find_first_character_address,
      get_memory_bounds, get_character_data, get_character_addresses,
      get_all_character_data, bind;
    by rewrite (ensure_attached_none _ _ H).
Qed.

(** C7: with no process attached every operation other than [attach] and
    [close] raises the not-attached error; that is the case right after
    [close], whatever the state before; [close] on a closed object does
    nothing; and an [attach] that cannot open the process returns false and
    leaves the object not attached. *)
Theorem not_attached_errors :
  (forall self w, pm self = None -> reports_not_attached (self, w))
  /\ (forall s, fst (close s) = Ret tt
             /\ pm (fst (snd (close s))) = None
             /\ reports_not_attached (snd (close s))
             /\ close (snd (close s)) = (Ret tt, snd (close s)))
  /\ (forall self w, open_process w (process_name self) = None ->
        fst (attach (self, w)) = Ret false
        /\ pm (fst (snd (attach (self, w)))) = None
        /\ reports_not_attached (snd (attach (self, w)))).
Proof.
  split; [|split].
  - apply reports_not_attached_intro.
  - intros [self w]. unfold close.
    destruct (pm self) as [h|] eqn:Hpm; simpl.
    + repeat split; by try apply reports_not_attached_intro.
    + rewrite Hpm. repeat split; by try apply reports_not_attached_intro.
  - intros self w H. unfold attach. rewrite H. simpl.
    repeat split; by try apply reports_not_attached_intro.
Qed.

End Attachment.

(** ** The record locator on one chunk *)

Lemma getitem_nonneg {A} (data : list A) (k : Z) :
  0 <= k -> Py.getitem data k = data !! Z.to_nat k.
Proof. intros H. unfold Py.getitem. by rewrite bool_decide_true. Qed.

Lemma existsb_false {A} (f : A -> bool) (l : list A) :
  existsb f l = false <-> Forall (fun x => f x = false) l.
Proof.
  induction l as [|x l IH]; simpl.
  - split; [constructor|done].
  - rewrite orb_false_iff, IH, Forall_cons. reflexivity.
Qed.

Lemma slice_lookup {A} (data : list A) (lo hi : Z) (k : nat) :
  0 <= lo -> lo <= hi -> hi <= Z.of_nat (length data) ->
  Py.slice data lo hi !! k
  = if bool_decide (Z.of_nat k < hi - lo) then data !! Z.to_nat (lo + Z.of_nat k) else None.
Proof.
  intros H1 H2 H3. unfold Py.slice, Py.clamp.
  rewrite !bool_decide_false by lia.
  rewrite !Z.min_l by lia.
  case_bool_decide.
  - rewrite lookup_take_lt by lia. rewrite lookup_drop. f_equal. lia.
  - apply lookup_take_ge. lia.
Qed.

Section Locator.

Variable STRUCT_SIZE : Z.
Variable PADDING_LENGTH : Z.
Variable PRECEDING_ZEROES : Z.

(** The lengths configured in [config.py] are lengths, and the padding is
    part of the struct. *)
Hypothesis PRECEDING_ZEROES_nonneg : 0 <= PRECEDING_ZEROES.
Hypothesis PADDING_LENGTH_nonneg : 0 <= PADDING_LENGTH.
Hypothesis PADDING_LENGTH_fits : PADDING_LENGTH < STRUCT_SIZE.

Local Abbreviation pattern := (pattern_bytes STRUCT_SIZE PADDING_LENGTH).
Local Abbreviation offsets_of := (chunk_offsets STRUCT_SIZE PRECEDING_ZEROES).
Local Abbreviation search :=
  (search_chunk STRUCT_SIZE PADDING_LENGTH PRECEDING_ZEROES).

(** *** The record signature and the table start, in the words of the
    specification *)

(** The [PRECEDING_ZEROES] bytes immediately before offset [i] are zero. *)
Definition zero_preceded (chunk : list Z) (i : Z) : Prop :=
  forall k, i - PRECEDING_ZEROES <= k < i -> chunk !! Z.to_nat k = Some 0.

(** The window of length [STRUCT_SIZE] at offset [o] matches the record
    signature: first byte 0x80, then wildcards, then [PADDING_LENGTH] zero
    bytes. *)
Definition signature_at (chunk : list Z) (o : Z) : Prop :=
  chunk !! Z.to_nat o = Some 0x80
  /\ forall k, o + STRUCT_SIZE - PADDING_LENGTH <= k < o + STRUCT_SIZE ->
       chunk !! Z.to_nat k = Some 0.

(** Offset [i] is preceded by zeroes and starts four consecutive records. *)
Definition table_at (chunk : list Z) (i : Z) : Prop :=
  zero_preceded chunk i
  /\ forall j, 0 <= j < 4 -> signature_at chunk (i + j * STRUCT_SIZE).

(** The offsets the locator considers in a chunk. *)
Definition considered (chunk : list Z) (i : Z) : Prop :=
  PRECEDING_ZEROES <= i <= Z.of_nat (length chunk) - 4 * STRUCT_SIZE.

(** [i] is the first considered offset of the chunk that starts a table. *)
Definition first_table_offset (chunk : list Z) (i : Z) : Prop :=
  considered chunk i /\ table_at chunk i
  /\ forall i', considered chunk i' -> i' < i -> ~ table_at chunk i'.

Definition no_table (chunk : list Z) : Prop :=
  forall i, considered chunk i -> ~ table_at chunk i.

(** *** The pattern *)

Lemma pattern_length : Z.of_nat (length pattern) = STRUCT_SIZE.
Proof.
  unfold pattern_bytes, Py.repeat.
  rewrite !length_app, !length_replicate. simpl. lia.
Qed.

Lemma pattern_lookup (p : nat) b :
  pattern !! p = Some (Some b) <->
  (p = O /\ b = 0x80)
  \/ (STRUCT_SIZE - PADDING_LENGTH <= Z.of_nat p < STRUCT_SIZE /\ b = 0).
Proof.
  unfold pattern_bytes, Py.repeat. destruct p as [|p]; simpl.
  - split; [intros [= <-]; by left|]. intros [[_ ->]|[? _]]; [done|lia].
  - rewrite lookup_app_Some, !lookup_replicate, length_replicate. split.
    + intros [[[=] _]|[Hle [[= <-] Hlt]]]. right. split; [lia|done].
    + intros [[[=] _]|[Hp ->]]. right. split; [lia|]. split; [done|lia].
Qed.

Lemma matches_signature chunk o :
  0 <= o ->
  _matches_pattern chunk o pattern = Ok true <-> signature_at chunk o.
Proof.
  intros Ho. unfold _matches_pattern. rewrite matches_from_true. split.
  - intros H. split.
    + rewrite <- getitem_nonneg by done.
      specialize (H O 0x80 (proj2 (pattern_lookup O 0x80) (or_introl (conj eq_refl eq_refl)))).
      by rewrite !Z.add_0_r in H.
    + intros k Hk. rewrite <- getitem_nonneg by lia.
      specialize (H (Z.to_nat (k - o)) 0).
      rewrite Z.add_0_l, Z2Nat.id in H by lia.
      replace (o + (k - o)) with k in H by lia.
      apply H, pattern_lookup. right. split; [|done]. rewrite Z2Nat.id; lia.
  - intros [H0 Hpad] p b [[-> ->]|[Hp ->]]%pattern_lookup.
    + rewrite getitem_nonneg by lia. by rewrite !Z.add_0_r.
    + rewrite getitem_nonneg by lia. apply Hpad. lia.
Qed.

Lemma all_windows_spec chunk i js :
  (forall j, j ∈ js ->
     0 <= i + j * STRUCT_SIZE /\
     i + j * STRUCT_SIZE + STRUCT_SIZE <= Z.of_nat (length chunk)) ->
  exists r, all_windows STRUCT_SIZE PADDING_LENGTH chunk i js = Ok r
    /\ (r = true <-> forall j, j ∈ js -> signature_at chunk (i + j * STRUCT_SIZE)).
Proof.
  induction js as [|j rest IH]; intros Hin; simpl.
  - exists true. split; [done|]. split; [|done]. intros _ j Hj. by apply elem_of_nil in Hj.
  - destruct (Hin j) as [Hlo Hhi]; [by left|].
    destruct (matches_from_in_bounds chunk (i + j * STRUCT_SIZE) 0 pattern) as [r Hr].
    { lia. } { rewrite pattern_length. lia. }
    fold (_matches_pattern chunk (i + j * STRUCT_SIZE) pattern) in Hr.
    rewrite Hr. destruct r.
    + destruct IH as (r & -> & Hiff); [intros; apply Hin; by right|].
      exists r. split; [done|]. rewrite Hiff. split.
      * intros H j' [->|Hj']%elem_of_cons; [|by apply H].
        by apply matches_signature.
      * intros H j' Hj'. apply H. by right.
    + exists false. split; [done|]. split; [done|]. intros H.
      specialize (H j (list_elem_of_here _ _)).
      apply matches_signature in H; [congruence|done].
Qed.

Lemma nonzero_before_spec chunk i :
  0 <= i - PRECEDING_ZEROES -> i <= Z.of_nat (length chunk) ->
  nonzero_before PRECEDING_ZEROES chunk i = false <-> zero_preceded chunk i.
Proof.
  intros Hlo Hhi. unfold nonzero_before, zero_preceded.
  rewrite existsb_false, Forall_lookup. split.
  - intros H k Hk.
    destruct (lookup_lt_is_Some_2 chunk (Z.to_nat k)) as [b Hb]; [lia|].
    specialize (H (Z.to_nat (k - (i - PRECEDING_ZEROES))) b).
    rewrite slice_lookup, bool_decide_true in H by lia.
    rewrite Z2Nat.id in H by lia.
    replace (i - PRECEDING_ZEROES + (k - (i - PRECEDING_ZEROES))) with k in H by lia.
    specialize (H Hb). apply negb_false_iff, bool_decide_eq_true in H. by subst b.
  - intros H k b. rewrite slice_lookup by lia.
    case_bool_decide; [|done]. intros Hb.
    rewrite H in Hb by lia. injection Hb as <-. done.
Qed.

(** *** The search over the offsets of a chunk *)

Lemma considered_bounds chunk i :
  considered chunk i ->
  0 <= i - PRECEDING_ZEROES /\ i <= Z.of_nat (length chunk)
  /\ forall j, 0 <= j < 4 ->
       0 <= i + j * STRUCT_SIZE
       /\ i + j * STRUCT_SIZE + STRUCT_SIZE <= Z.of_nat (length chunk).
Proof.
  unfold considered. intros Hi. split; [lia|]. split; [lia|].
  intros j Hj. assert (j = 0 \/ j = 1 \/ j = 2 \/ j = 3) as Hc by lia.
  destruct Hc as [-> | [-> | [-> | ->]]]; lia.
Qed.

Lemma elem_of_offsets chunk i : i ∈ offsets_of chunk <-> considered chunk i.
Proof.
  unfold chunk_offsets, Py.range, considered. rewrite elem_of_seqZ. lia.
Qed.

(** One offset: the two tests of the loop body decide [table_at]. *)
Lemma offset_test chunk i :
  considered chunk i ->
  exists r, all_windows STRUCT_SIZE PADDING_LENGTH chunk i (Py.range 0 4) = Ok r
    /\ (nonzero_before PRECEDING_ZEROES chunk i = false /\ r = true
        <-> table_at chunk i).
Proof.
  intros [Hlo [Hhi Hwin]]%considered_bounds.
  destruct (all_windows_spec chunk i (Py.range 0 4)) as (r & Hr & Hiff).
  { intros j Hj%elem_of_seqZ. apply Hwin. lia. }
  exists r. split; [done|]. unfold table_at.
  rewrite nonzero_before_spec, Hiff by done.
  unfold Py.range. setoid_rewrite elem_of_seqZ.
  split; intros [Hz Hs]; (split; [done|]); intros j Hj; apply Hs; lia.
Qed.

Lemma search_chunk_offsets chunk address offsets :
  (forall i, i ∈ offsets -> considered chunk i) ->
  exists r, search address chunk offsets = Ok r /\
    match r with
    | Some a => exists pre i post,
        offsets = pre ++ i :: post /\ a = address + i /\ table_at chunk i
        /\ Forall (fun i' => ~ table_at chunk i') pre
    | None => Forall (fun i' => ~ table_at chunk i') offsets
    end.
Proof.
  induction offsets as [|i rest IH]; intros Hin; cbn [search_chunk].
  - exists None. by split.
  - destruct (offset_test chunk i) as (r & Hr & Hiff); [apply Hin; by left|].
    destruct IH as (r' & Hr' & Hspec); [intros; apply Hin; by right|].
    assert (Hskip : ~ table_at chunk i ->
      exists r0, Ok r' = Ok r0 /\
        match r0 with
        | Some a => exists pre i0 post,
            i :: rest = pre ++ i0 :: post /\ a = address + i0 /\ table_at chunk i0
            /\ Forall (fun i' => ~ table_at chunk i') pre
        | None => Forall (fun i' => ~ table_at chunk i') (i :: rest)
        end).
    { intros Hno. exists r'. split; [done|]. destruct r' as [a|].
      - destruct Hspec as (pre & i0 & post & -> & -> & Ht & Hpre).
        exists (i :: pre), i0, post. split; [done|]. split; [done|].
        split; [done|]. by constructor.
      - by constructor. }
    rewrite Hr, Hr'.
    destruct (nonzero_before PRECEDING_ZEROES chunk i) eqn:Hnz.
    + apply Hskip. rewrite <- Hiff. intros [? _]. congruence.
    + destruct r.
      * exists (Some (address + i)). split; [done|].
        exists [], i, rest. split; [done|]. split; [done|].
        split; [by apply Hiff|constructor].
      * apply Hskip. rewrite <- Hiff. intros [_ ?]. congruence.
Qed.

(** What the search of a chunk at base [address] may return. *)
Definition chunk_result (address : Z) (chunk : list Z) (r : option Z) : Prop :=
  match r with
  | Some a => exists i, a = address + i /\ first_table_offset chunk i
  | None => no_table chunk
  end.

Lemma search_chunk_first chunk address :
  exists r, search address chunk (offsets_of chunk) = Ok r
    /\ chunk_result address chunk r.
Proof.
  destruct (search_chunk_offsets chunk address (offsets_of chunk)) as (r & Hr & Hspec).
  { intros i. apply elem_of_offsets. }
  exists r. split; [done|]. destruct r as [a|]; simpl.
  - destruct Hspec as (pre & i & post & Heq & -> & Ht & Hpre).
    exists i. split; [done|].
    assert (Hi : offsets_of chunk !! length pre = Some i).
    { rewrite Heq. by apply list_lookup_middle. }
    pose proof Hi as Hi'. apply lookup_seqZ in Hi' as [Hi' _].
    split; [|split]; [|done|].
    + apply elem_of_offsets, list_elem_of_lookup. eauto.
    + intros i' Hc Hlt Ht'.
      rewrite Forall_lookup in Hpre.
      apply (Hpre (Z.to_nat (i' - PRECEDING_ZEROES)) i'); [|done].
      assert (Hk : (Z.to_nat (i' - PRECEDING_ZEROES) < length pre)%nat).
      { unfold considered in Hc. lia. }
      rewrite <- (lookup_app_l pre (i :: post)) by done.
      rewrite <- Heq. apply lookup_seqZ. unfold considered in Hc. lia.
  - intros i Hc%elem_of_offsets. by apply (proj1 (Forall_forall _ _) Hspec).
Qed.

(** *** The probes of the search *)

Local Abbreviation search_log :=
  (search_chunk_log STRUCT_SIZE PADDING_LENGTH PRECEDING_ZEROES).

(** The logged search computes what the search computes. *)
Lemma matches_from_log_result data start pat : forall i,
  (matches_from_log data start i pat).1 = matches_from data start i pat.
Proof.
  induction pat as [|[b|] rest IH]; intros i; simpl; [done| |apply IH].
  destruct (Py.getitem data (start + i)) as [d|]; [|done].
  case_bool_decide; [|done].
  specialize (IH (i + 1)). by destruct (matches_from_log _ _ _ _).
Qed.

Lemma matches_pattern_log_result data start pat :
  (_matches_pattern_log data start pat).1 = _matches_pattern data start pat.
Proof.
  unfold _matches_pattern_log, _matches_pattern.
  rewrite <- matches_from_log_result. by destruct (matches_from_log _ _ _ _).
Qed.

Lemma all_windows_log_result chunk i js :
  (all_windows_log STRUCT_SIZE PADDING_LENGTH chunk i js).1
  = all_windows STRUCT_SIZE PADDING_LENGTH chunk i js.
Proof.
  induction js as [|j rest IH]; simpl; [done|].
  rewrite <- matches_pattern_log_result.
  destruct (_matches_pattern_log _ _ _) as [[[|]|e] log]; simpl; [|done..].
  rewrite <- IH. by destruct (all_windows_log _ _ _ _ _).
Qed.

Lemma search_chunk_log_result address chunk offsets :
  (search_log address chunk offsets).1 = search address chunk offsets.
Proof.
  induction offsets as [|i rest IH]; cbn [search_chunk_log search_chunk]; [done|].
  unfold nonzero_before_log, nonzero_before.
  destruct (existsb _ _).
  - rewrite <- IH. by destruct (search_log _ _ _).
  - rewrite <- all_windows_log_result.
    destruct (all_windows_log _ _ _ _ _) as [[[|]|e] log1]; simpl; [done| |done].
    rewrite <- IH. by destruct (search_log _ _ _).
Qed.

(** A window inside the buffer is probed inside the buffer. *)
Lemma matches_from_log_within data start pat : forall i,
  0 <= start + i ->
  start + i + Z.of_nat (length pat) <= Z.of_nat (length data) ->
  Forall (within data) (matches_from_log data start i pat).2.
Proof.
  induction pat as [|[b|] rest IH]; intros i Hlo Hhi; simpl in *.
  - constructor.
  - assert (Hk : within data (Indexed (start + i))) by (simpl; lia).
    destruct (Py.getitem data (start + i)) as [d|];
      [|constructor; [exact Hk|constructor]].
    case_bool_decide; [|constructor; [exact Hk|constructor]].
    specialize (IH (i + 1)).
    destruct (matches_from_log _ _ _ _) as [r log]. simpl in *.
    constructor; [done|]. apply IH; lia.
  - apply IH; lia.
Qed.

Lemma all_windows_log_within chunk i js :
  (forall j, j ∈ js ->
     0 <= i + j * STRUCT_SIZE /\
     i + j * STRUCT_SIZE + STRUCT_SIZE <= Z.of_nat (length chunk)) ->
  Forall (within chunk) (all_windows_log STRUCT_SIZE PADDING_LENGTH chunk i js).2.
Proof.
  induction js as [|j rest IH]; intros Hin; simpl; [constructor|].
  destruct (Hin j) as [Hlo Hhi]; [by left|].
  assert (Hwin : Forall (within chunk)
            (_matches_pattern_log chunk (i + j * STRUCT_SIZE) pattern).2).
  { unfold _matches_pattern_log.
    pose proof (matches_from_log_within chunk (i + j * STRUCT_SIZE) pattern 0) as H.
    rewrite pattern_length in H |- *.
    destruct (matches_from_log _ _ _ _) as [r log]. cbn [snd] in *.
    constructor; [unfold within; lia|apply H; lia]. }
  destruct (_matches_pattern_log _ _ _) as [[[|]|e] log]; simpl in *; [|done..].
  assert (Hrest : Forall (within chunk)
            (all_windows_log STRUCT_SIZE PADDING_LENGTH chunk i rest).2).
  { apply IH. intros j' Hj'. apply Hin. by right. }
  destruct (all_windows_log _ _ _ _ _) as [r log']. simpl in *.
  by apply Forall_app.
Qed.

Lemma search_chunk_log_within address chunk offsets :
  (forall i, i ∈ offsets -> considered chunk i) ->
  Forall (within chunk) (search_log address chunk offsets).2.
Proof.
  induction offsets as [|i rest IH]; intros Hin; cbn [search_chunk_log];
    [constructor|].
  assert (Hrest : Forall (within chunk) (search_log address chunk rest).2).
  { apply IH. intros i' Hi'. apply Hin. by right. }
  destruct (considered_bounds chunk i) as (Hlo & Hhi & Hwin); [apply Hin; by left|].
  assert (Hslice : within chunk (Sliced (i - PRECEDING_ZEROES) i)) by (simpl; lia).
  assert (Hwindows : Forall (within chunk)
            (all_windows_log STRUCT_SIZE PADDING_LENGTH chunk i (Py.range 0 4)).2).
  { apply all_windows_log_within. intros j Hj%elem_of_seqZ. apply Hwin. lia. }
  unfold nonzero_before_log. destruct (existsb _ _).
  - destruct (search_log _ _ _) as [r log]. simpl in *. by constructor.
  - destruct (all_windows_log _ _ _ _ _) as [[[|]|e] log1]; simpl in *.
    + constructor; [done|]. done.
    + destruct (search_log _ _ _) as [r log]. simpl in *.
      constructor; [done|]. by apply Forall_app.
    + by constructor.
Qed.

(** The log leaves nothing out: an offset that no table precedes is
    reached, its slice is taken, and when the slice is all zero the
    matcher is called on its first window and reads its first byte. *)
Lemma search_chunk_log_reaches address chunk pre : forall offsets i post,
  offsets = pre ++ i :: post ->
  (forall i', i' ∈ offsets -> considered chunk i') ->
  Forall (fun i' => ~ table_at chunk i') pre ->
  Sliced (i - PRECEDING_ZEROES) i ∈ (search_log address chunk offsets).2
  /\ (zero_preceded chunk i ->
      Matched i STRUCT_SIZE ∈ (search_log address chunk offsets).2
      /\ Indexed i ∈ (search_log address chunk offsets).2).
Proof.
  induction pre as [|i0 pre IH]; intros offsets i post -> Hin Hpre;
    cbn [app search_chunk_log]; unfold nonzero_before_log.
  - destruct (considered_bounds chunk i) as (Hlo & Hhi & Hwin); [apply Hin; by left|].
    assert (Hfirst : zero_preceded chunk i ->
      exists log1, (all_windows_log STRUCT_SIZE PADDING_LENGTH chunk i (Py.range 0 4)).2
        = Matched i STRUCT_SIZE :: Indexed i :: log1).
    { intros _. destruct (Hwin 0) as [_ Hend]; [lia|].
      change (Py.range 0 4) with (0 :: Py.range 1 4). cbn [all_windows_log].
      unfold _matches_pattern_log. rewrite pattern_length.
      replace (i + 0 * STRUCT_SIZE) with i by lia.
      unfold pattern_bytes. cbn [app matches_from_log]. rewrite Z.add_0_r.
      rewrite getitem_nonneg by lia.
      destruct (lookup_lt_is_Some_2 chunk (Z.to_nat i)) as [d ->]; [lia|].
      case_bool_decide.
      - destruct (all_windows_log _ _ _ _ (Py.range 1 4)) as [r' log'].
        destruct (matches_from_log _ _ _ _) as [[[|]|e] log]; cbn [snd]; eauto.
      - cbn [snd]. eauto. }
    destruct (existsb _ _) eqn:Hnz.
    + destruct (search_log _ _ _) as [r log]. simpl.
      split; [by left|]. intros Hz.
      apply nonzero_before_spec in Hz; [|done..]. unfold nonzero_before in Hz.
      congruence.
    + assert (Hlog : forall rest,
        Sliced (i - PRECEDING_ZEROES) i
          ∈ [Sliced (i - PRECEDING_ZEROES) i]
            ++ (all_windows_log STRUCT_SIZE PADDING_LENGTH chunk i (Py.range 0 4)).2
            ++ rest
        /\ (zero_preceded chunk i ->
            Matched i STRUCT_SIZE
              ∈ [Sliced (i - PRECEDING_ZEROES) i]
                ++ (all_windows_log STRUCT_SIZE PADDING_LENGTH chunk i (Py.range 0 4)).2
                ++ rest
            /\ Indexed i
              ∈ [Sliced (i - PRECEDING_ZEROES) i]
                ++ (all_windows_log STRUCT_SIZE PADDING_LENGTH chunk i (Py.range 0 4)).2
                ++ rest)).
      { intros rest. split; [by left|]. intros Hz.
        destruct (Hfirst Hz) as [log1 ->]. simpl.
        split; [right; by left|]. right. right. by left. }
      destruct (all_windows_log _ _ _ _ _) as [[[|]|e] log1]; simpl in *.
      * specialize (Hlog []). by rewrite app_nil_r in Hlog.
      * destruct (search_log _ _ _) as [r log]. simpl. apply Hlog.
      * specialize (Hlog []). by rewrite app_nil_r in Hlog.
  - apply Forall_cons in Hpre as [Hno Hpre].
    destruct (IH (pre ++ i :: post) i post eq_refl) as [Hslice Hmatch];
      [intros i' Hi'; apply Hin; by right|done|].
    assert (Hrest : forall before,
      Sliced (i - PRECEDING_ZEROES) i
        ∈ before ++ (search_log address chunk (pre ++ i :: post)).2
      /\ (zero_preceded chunk i ->
          Matched i STRUCT_SIZE
            ∈ before ++ (search_log address chunk (pre ++ i :: post)).2
          /\ Indexed i
            ∈ before ++ (search_log address chunk (pre ++ i :: post)).2)).
    { intros before. split; [apply elem_of_app; by right|].
      intros Hz. destruct (Hmatch Hz). split; apply elem_of_app; by right. }
    destruct (offset_test chunk i0) as (r0 & Hr0 & Hiff); [apply Hin; by left|].
    rewrite <- all_windows_log_result in Hr0.
    destruct (existsb _ _) eqn:Hnz.
    + destruct (search_log _ _ _) as [r log]. cbn [snd] in *. apply Hrest.
    + destruct (all_windows_log _ _ _ _ _) as [[[|]|e] log1]; cbn [fst] in Hr0.
      * exfalso. apply Hno, Hiff. injection Hr0 as <-. by split.
      * destruct (search_log _ _ _) as [r log]. cbn [snd] in *.
        rewrite app_assoc. apply Hrest.
      * done.
Qed.

(** C10: the inner search stays inside the chunk.  Every offset it
    considers keeps the slice of preceding bytes and the four signature
    windows inside the chunk; the search never raises; and the probes the
    search makes, logged as it runs (each slice, each call of the matcher,
    each subscript), are all inside the chunk: no slice bound and no
    subscript is negative or past the end.  The logged search returns what
    the search returns, and it logs the slice of every offset that no
    table precedes and, when that slice is all zero, the call of the
    matcher at the offset and the read of its first byte. *)
Theorem search_within_chunk (chunk : list Z) (address : Z) :
  (forall i, i ∈ offsets_of chunk ->
     0 <= i - PRECEDING_ZEROES
     /\ i + 4 * STRUCT_SIZE <= Z.of_nat (length chunk)
     /\ forall j (p : nat), j ∈ Py.range 0 4 -> (p < length pattern)%nat ->
          0 <= i + j * STRUCT_SIZE + Z.of_nat p < Z.of_nat (length chunk))
  /\ (exists r, search address chunk (offsets_of chunk) = Ok r)
  /\ (forall offsets,
        (search_log address chunk offsets).1 = search address chunk offsets)
  /\ Forall (within chunk) (search_log address chunk (offsets_of chunk)).2
  /\ (forall i, i ∈ offsets_of chunk ->
        (forall i', i' ∈ offsets_of chunk -> i' < i -> ~ table_at chunk i') ->
        Sliced (i - PRECEDING_ZEROES) i
          ∈ (search_log address chunk (offsets_of chunk)).2
        /\ (zero_preceded chunk i ->
            Matched i STRUCT_SIZE ∈ (search_log address chunk (offsets_of chunk)).2
            /\ Indexed i ∈ (search_log address chunk (offsets_of chunk)).2)).
Proof.
  split; [|split; [|split; [|split]]].
  - intros i Hi%elem_of_offsets.
    destruct (considered_bounds _ _ Hi) as (Hlo & Hhi & Hwin).
    unfold considered in Hi. split; [lia|]. split; [lia|].
    intros j p Hj%elem_of_seqZ Hp.
    destruct (Hwin j) as [H1 H2]; [lia|].
    pose proof pattern_length. lia.
  - destruct (search_chunk_first chunk address) as (r & Hr & _). eauto.
  - intros offsets. apply search_chunk_log_result.
  - apply search_chunk_log_within. intros i. apply elem_of_offsets.
  - intros i Hi Hbefore.
    apply list_elem_of_lookup in Hi as [k Hk].
    pose proof (take_drop_middle _ _ _ Hk) as Hsplit. symmetry in Hsplit.
    apply (search_chunk_log_reaches address chunk _ _ i _ Hsplit).
    + intros i'. apply elem_of_offsets.
    + apply Forall_forall. intros i' Hi'.
      apply list_elem_of_lookup in Hi' as [k' Hk'].
      pose proof (lookup_lt_Some _ _ _ Hk') as Hlt. rewrite length_take in Hlt.
      rewrite lookup_take_lt in Hk' by lia.
      apply Hbefore; [apply list_elem_of_lookup; eauto|].
      apply lookup_seqZ in Hk as [-> _]. apply lookup_seqZ in Hk' as [-> _]. lia.
Qed.

(** *** The synthetic buffer *)

(** A record that matches the signature. *)
Definition matches_signature_template (rec : list Z) : Prop :=
  Z.of_nat (length rec) = STRUCT_SIZE
  /\ rec !! O = Some 0x80
  /\ forall k : nat, STRUCT_SIZE - PADDING_LENGTH <= Z.of_nat k < STRUCT_SIZE ->
       rec !! k = Some 0.

Definition synthetic_buffer (rec : list Z) : list Z :=
  Py.repeat 0 PRECEDING_ZEROES ++ rec ++ rec ++ rec ++ rec.

Lemma synthetic_buffer_length rec :
  matches_signature_template rec ->
  Z.of_nat (length (synthetic_buffer rec)) = PRECEDING_ZEROES + 4 * STRUCT_SIZE.
Proof.
  intros [Hlen _]. unfold synthetic_buffer, Py.repeat.
  rewrite !length_app, length_replicate. lia.
Qed.

Lemma synthetic_buffer_record rec (j : Z) (k : nat) :
  matches_signature_template rec -> 0 <= j < 4 -> (k < length rec)%nat ->
  synthetic_buffer rec !! Z.to_nat (PRECEDING_ZEROES + j * STRUCT_SIZE + Z.of_nat k)
  = rec !! k.
Proof.
  intros [Hlen _] Hj Hk. unfold synthetic_buffer, Py.repeat.
  rewrite lookup_app_r; rewrite length_replicate; [|lia].
  assert (j = 0 \/ j = 1 \/ j = 2 \/ j = 3) as Hc by lia.
  destruct Hc as [-> | [-> | [-> | ->]]].
  - rewrite lookup_app_l by lia. f_equal. lia.
  - rewrite lookup_app_r by lia. rewrite lookup_app_l by lia. f_equal. lia.
  - do 2 (rewrite lookup_app_r by lia). rewrite lookup_app_l by lia. f_equal. lia.
  - do 3 (rewrite lookup_app_r by lia). f_equal. lia.
Qed.

Lemma synthetic_buffer_table rec :
  matches_signature_template rec ->
  table_at (synthetic_buffer rec) PRECEDING_ZEROES.
Proof.
  intros Hrec. pose proof Hrec as (Hlen & H0 & Hpad). split.
  - intros k Hk. unfold synthetic_buffer, Py.repeat.
    rewrite lookup_app_l by (rewrite length_replicate; lia).
    apply lookup_replicate_2. lia.
  - intros j Hj. split.
    + rewrite <- H0, <- (synthetic_buffer_record rec j O) by (done || lia).
      f_equal. lia.
    + intros k Hk.
      rewrite <- (Hpad (Z.to_nat (k - (PRECEDING_ZEROES + j * STRUCT_SIZE)))) by lia.
      rewrite <- (synthetic_buffer_record rec j) by (done || lia).
      f_equal. lia.
Qed.

Lemma search_synthetic_buffer rec address :
  matches_signature_template rec ->
  search address (synthetic_buffer rec) (offsets_of (synthetic_buffer rec))
  = Ok (Some (address + PRECEDING_ZEROES)).
Proof.
  intros Hrec.
  pose proof (synthetic_buffer_length rec Hrec) as Hlen.
  pose proof (synthetic_buffer_table rec Hrec) as Htab.
  destruct (search_chunk_first (synthetic_buffer rec) address) as (r & -> & Hres).
  destruct r as [a|]; simpl in Hres.
  - destruct Hres as (i & -> & Hc & _). unfold considered in Hc.
    do 3 f_equal. lia.
  - exfalso. apply (Hres PRECEDING_ZEROES); [|done]. unfold considered. lia.
Qed.

End Locator.

(** ** The region enumerator *)

(** A region is handed to the locator when it is committed and mapped
    read-write or execute-read-write. *)
Definition qualifies (mbi : MEMORY_BASIC_INFORMATION) : bool :=
  bool_decide (State mbi = MEM_COMMIT)
  && (bool_decide (Protect mbi = PAGE_READWRITE)
      || bool_decide (Protect mbi = PAGE_EXECUTE_READWRITE)).

(** What the enumerator meets at the cursor. *)
Inductive region : Type :=
  | QueryFailure
  | Skipped (size : Z)
  | Unreadable (size : Z)
  | Readable (size : Z) (chunk : list Z).

Definition region_at (w : machine) (max_address address : Z) : region :=
  match query w address with
  | None => QueryFailure
  | Some mbi =>
      if qualifies mbi then
        match load_bytes (memory w) address
                (Z.min (RegionSize mbi) (max_address - address)) with
        | Some chunk => Readable (RegionSize mbi) chunk
        | None => Unreadable (RegionSize mbi)
        end
      else Skipped (RegionSize mbi)
  end.

(** The cursor after a region: one page further on a query failure, the
    region's reported size further otherwise. *)
Definition advance (address : Z) (r : region) : Z :=
  match r with
  | QueryFailure => address + 4096
  | Skipped size | Unreadable size | Readable size _ => address + size
  end.

(** The readable regions from the cursor up to the maximum address, each
    with its base and its bytes, in the order they are met. *)
Fixpoint enumerate_regions (w : machine) (max_address : Z) (fuel : nat) (address : Z)
  : option (list (Z * list Z)) :=
  match fuel with
  | O => None
  | S fuel' =>
      if bool_decide (address < max_address) then
        let r := region_at w max_address address in
        match enumerate_regions w max_address fuel' (advance address r) with
        | None => None
        | Some rest =>
            Some match r with
                 | Readable _ chunk => (address, chunk) :: rest
                 | _ => rest
                 end
        end
      else Some []
  end.

(** The readable regions the cursor passes on its way from [address] to
    [stop], in the order they are met; [None] when the cursor is not at
    [stop] after at most [fuel] regions.  What lies at [stop] and beyond
    is not looked at. *)
Fixpoint regions_before (w : machine) (max_address stop : Z) (fuel : nat)
  (address : Z) : option (list (Z * list Z)) :=
  if bool_decide (address = stop) then Some []
  else
    match fuel with
    | O => None
    | S fuel' =>
        if bool_decide (address < max_address) then
          let r := region_at w max_address address in
          match regions_before w max_address stop fuel' (advance address r) with
          | None => None
          | Some rest =>
              Some match r with
                   | Readable _ chunk => (address, chunk) :: rest
                   | _ => rest
                   end
          end
        else None
    end.

(** Two machines that show the scanner the same target: they differ at
    most in the record of accesses. *)
Definition same_target (w w' : machine) : Prop :=
  open_process w' = open_process w
  /\ lpMinimumApplicationAddress w' = lpMinimumApplicationAddress w
  /\ lpMaximumApplicationAddress w' = lpMaximumApplicationAddress w
  /\ query w' = query w
  /\ memory w' = memory w.

Lemma same_target_refl w : same_target w w.
Proof. by repeat split. Qed.

Lemma same_target_trans w1 w2 w3 :
  same_target w1 w2 -> same_target w2 w3 -> same_target w1 w3.
Proof. unfold same_target. intuition congruence. Qed.

Lemma same_target_record_access a w : same_target w (record_access a w).
Proof. by repeat split. Qed.

Lemma region_at_same_target w w' max_address address :
  same_target w w' -> region_at w' max_address address = region_at w max_address address.
Proof. intros (_ & _ & _ & Hq & Hm). unfold region_at. by rewrite Hq, Hm. Qed.

Lemma enumerate_regions_same_target w w' max_address fuel address :
  same_target w w' ->
  enumerate_regions w' max_address fuel address
  = enumerate_regions w max_address fuel address.
Proof.
  intros H. revert address. induction fuel as [|fuel IH]; intros address; simpl; [done|].
  by rewrite (region_at_same_target _ _ _ _ H), IH.
Qed.

Lemma regions_before_same_target w w' max_address stop fuel address :
  same_target w w' ->
  regions_before w' max_address stop fuel address
  = regions_before w max_address stop fuel address.
Proof.
  intros H. revert address.
  induction fuel as [|fuel IH]; intros address; simpl; [done|].
  by rewrite (region_at_same_target _ _ _ _ H), IH.
Qed.

(** A successful query reports a region that is not empty. *)
Definition regions_nonempty (w : machine) : Prop :=
  forall address mbi, query w address = Some mbi -> 0 < RegionSize mbi.

Lemma advance_increases w max_address address :
  regions_nonempty w -> address < advance address (region_at w max_address address).
Proof.
  intros Hpos. unfold region_at.
  destruct (query w address) as [mbi|] eqn:Hq; simpl; [|lia].
  specialize (Hpos _ _ Hq).
  destruct (qualifies mbi); [destruct (load_bytes _ _ _)|]; simpl; lia.
Qed.

Lemma enumerate_regions_total w max_address (n : nat) address :
  regions_nonempty w ->
  max_address - address <= Z.of_nat n ->
  exists regions, forall fuel, (n < fuel)%nat ->
    enumerate_regions w max_address fuel address = Some regions.
Proof.
  intros Hpos. revert address. induction n as [|n IH]; intros address Hn.
  - exists []. intros [|fuel] Hf; [lia|]. simpl. by rewrite bool_decide_false by lia.
  - destruct (decide (address < max_address)) as [Hlt|Hge].
    + pose proof (advance_increases w max_address address Hpos) as Hadv.
      destruct (IH (advance address (region_at w max_address address))) as [rest Hrest];
        [lia|].
      eexists. intros [|fuel] Hf; [lia|]. simpl.
      rewrite bool_decide_true by done. rewrite Hrest by lia. reflexivity.
    + exists []. intros [|fuel] Hf; [lia|]. simpl. by rewrite bool_decide_false.
Qed.

(** The regions come out in ascending order of their bases, and each is
    what the machine shows at its base. *)
Lemma enumerate_regions_sorted w max_address fuel address regions :
  regions_nonempty w ->
  enumerate_regions w max_address fuel address = Some regions ->
  Forall (fun bc => address <= bc.1 < max_address
            /\ exists size, region_at w max_address bc.1 = Readable size bc.2) regions
  /\ StronglySorted (fun x y => x.1 < y.1) regions.
Proof.
  intros Hpos. revert address regions.
  induction fuel as [|fuel IH]; intros address regions; simpl; [done|].
  case_bool_decide as Hlt; [|intros [= <-]; split; constructor].
  pose proof (advance_increases w max_address address Hpos) as Hadv.
  destruct (enumerate_regions _ _ fuel _) as [rest|] eqn:Hrest; [|done].
  intros [= <-]. destruct (IH _ _ Hrest) as [Hall Hsorted].
  assert (Hall' : Forall (fun bc => address <= bc.1 < max_address
            /\ exists size, region_at w max_address bc.1 = Readable size bc.2) rest).
  { eapply Forall_impl; [exact Hall|]. simpl. intros bc [? ?]. split; [lia|done]. }
  destruct (region_at w max_address address) as [|size|size|size chunk] eqn:Hr;
    try by split.
  split.
  - constructor; [|done]. simpl. split; [lia|]. rewrite Hr. eauto.
  - constructor; [done|]. eapply Forall_impl; [exact Hall|].
    intros bc [? _]. simpl in *. lia.
Qed.

(** ** The scanning loop *)

Section Scanner.

Variable STRUCT_SIZE : Z.
Variable PADDING_LENGTH : Z.
Variable PRECEDING_ZEROES : Z.
Variable FAST_SCAN : bool.
Variable FAST_SCAN_START_ADDRESS : Z.

Local Abbreviation offsets_of := (chunk_offsets STRUCT_SIZE PRECEDING_ZEROES).
Local Abbreviation search :=
  (search_chunk STRUCT_SIZE PADDING_LENGTH PRECEDING_ZEROES).
Local Abbreviation step :=
  (scan_step STRUCT_SIZE PADDING_LENGTH PRECEDING_ZEROES).
Local Abbreviation loop :=
  (scan_loop STRUCT_SIZE PADDING_LENGTH PRECEDING_ZEROES).
Local Abbreviation start := (start_address FAST_SCAN FAST_SCAN_START_ADDRESS).
Local Abbreviation find_first :=
  (find_first_character_address STRUCT_SIZE PADDING_LENGTH PRECEDING_ZEROES
     FAST_SCAN FAST_SCAN_START_ADDRESS).
Local Abbreviation character_addresses :=
  (get_character_addresses STRUCT_SIZE PADDING_LENGTH PRECEDING_ZEROES
     FAST_SCAN FAST_SCAN_START_ADDRESS).

(** One turn of the loop, read off the region at the cursor. *)
Lemma scan_step_run h max_address address self w :
  exists w', same_target w w' /\
    step h max_address address (self, w)
    = (match region_at w max_address address with
       | Readable size chunk =>
           match search address chunk (offsets_of chunk) with
           | Ok (Some a) => Ret (Return (Some a))
           | Ok None => Ret (Continue (address + size))
           | Err e => Raise e
           end
       | r => Ret (Continue (advance address r))
       end, (self, w')).
Proof.
  unfold scan_step, bind, VirtualQueryEx, region_at, try_read, read_bytes.
  destruct (query w address) as [mbi|]; [|exists w; split; [apply same_target_refl|done]].
  fold (qualifies mbi).
  destruct (qualifies mbi); [|exists w; split; [apply same_target_refl|done]].
  destruct (load_bytes _ _ _) as [chunk|];
    [|eexists; split; [apply same_target_record_access|done]].
  simpl. unfold lift.
  destruct (search address chunk (offsets_of chunk)) as [[a|]|e]; simpl;
    eexists; (split; [apply same_target_record_access|done]).
Qed.

Lemma scan_step_continue h max_address address s a' s' :
  step h max_address address s = (Ret (Continue a'), s') ->
  a' = advance address (region_at s.2 max_address address).
Proof.
  destruct s as [self w].
  destruct (scan_step_run h max_address address self w) as (w' & _ & ->). simpl.
  destruct (region_at w max_address address) as [|size|size|size chunk];
    try (by intros [= <-]).
  destruct (search _ _ _) as [[a|]|e]; by intros [= <-].
Qed.

(** The loop leaves the object and the target as they were. *)
Lemma scan_loop_same_target fuel h max_address address self w o s' :
  loop fuel h max_address address (self, w) = (o, s') ->
  s'.1 = self /\ same_target w s'.2.
Proof.
  revert address w. induction fuel as [|fuel IH]; intros address w; simpl.
  - intros [= <- <-]. split; [done|apply same_target_refl].
  - case_bool_decide; [|intros [= <- <-]; split; [done|apply same_target_refl]].
    unfold bind.
    destruct (scan_step_run h max_address address self w) as (w' & Hw' & ->).
    destruct (region_at w max_address address) as [|size|size|size chunk];
      try (intros H'; destruct (IH _ _ H') as [? ?]; split;
           [done|by eapply same_target_trans]).
    destruct (search _ _ _) as [[a|]|e].
    + intros [= <- <-]. by split.
    + intros H'. destruct (IH _ _ H') as [? ?]. split; [done|by eapply same_target_trans].
    + intros [= <- <-]. by split.
Qed.

(** With regions that are not empty the loop ends: more turns than there
    are addresses below the maximum are never needed. *)
Lemma scan_loop_terminates h max_address (n : nat) :
  forall fuel address self w,
    regions_nonempty w ->
    max_address - address <= Z.of_nat n -> (n < fuel)%nat ->
    (loop fuel h max_address address (self, w)).1 <> OutOfFuel.
Proof.
  induction n as [|n IH]; intros [|fuel] address self w Hpos Hn Hf; try lia; simpl.
  - by rewrite bool_decide_false by lia.
  - case_bool_decide as Hlt; [|done].
    unfold bind.
    destruct (scan_step_run h max_address address self w) as (w' & Hw' & ->).
    pose proof (advance_increases w max_address address Hpos) as Hadv.
    assert (Hpos' : regions_nonempty w').
    { intros a mbi Ha. apply (Hpos a). destruct Hw' as (_ & _ & _ & <- & _). done. }
    destruct (region_at w max_address address) as [|size|size|size chunk];
      try (apply IH; [done|simpl in *; lia|lia]).
    destruct (search _ _ _) as [[a|]|e]; [done| |done].
    apply IH; [done|simpl in *; lia|lia].
Qed.

Lemma find_first_run self w h fuel :
  pm self = Some h ->
  lpMaximumApplicationAddress w <> 0 ->
  find_first fuel (self, w)
  = loop fuel h (lpMaximumApplicationAddress w) start (self, w).
Proof.
  intros Hpm Hmax. unfold find_first_character_address, get_memory_bounds, bind.
  rewrite (ensure_attached_ok _ _ _ Hpm). unfold process_handle. rewrite Hpm.
  rewrite (ensure_attached_ok _ _ _ Hpm). simpl. unfold c_void_p.
  by rewrite (bool_decide_false _ Hmax).
Qed.

(** A null maximum address reads as [None], and the loop test raises. *)
Lemma find_first_null_bound self w h fuel :
  pm self = Some h ->
  lpMaximumApplicationAddress w = 0 ->
  find_first fuel (self, w) = (Raise TypeError, (self, w)).
Proof.
  intros Hpm Hmax. unfold find_first_character_address, get_memory_bounds, bind.
  rewrite (ensure_attached_ok _ _ _ Hpm). unfold process_handle. rewrite Hpm.
  rewrite (ensure_attached_ok _ _ _ Hpm). simpl. unfold c_void_p.
  by rewrite (bool_decide_true _ Hmax).
Qed.

(** C6, for regions that are not empty: when every successful query
    reports a region size of at least one byte, each turn of the loop moves
    the cursor strictly forward, by one page of 4096 bytes on a query
    failure and by the reported region size otherwise, and the loop reaches
    its end; query failures and unreadable regions do not stop it. *)
Theorem scan_loop_progress self w h :
  pm self = Some h ->
  regions_nonempty w ->
  (forall address s a' s',
     same_target w s.2 ->
     step h (lpMaximumApplicationAddress w) address s = (Ret (Continue a'), s') ->
     address < a'
     /\ match query w address with
        | None => a' = address + 4096
        | Some mbi => a' = address + RegionSize mbi
        end)
  /\ exists turns, forall fuel, (turns <= fuel)%nat ->
       (find_first fuel (self, w)).1 <> OutOfFuel.
Proof.
  intros Hpm Hpos. split.
  - intros address s a' s' Hs Hstep.
    apply scan_step_continue in Hstep.
    rewrite (region_at_same_target _ _ _ _ Hs) in Hstep. subst a'.
    split; [by apply advance_increases|].
    unfold region_at. destruct (query w address) as [mbi|]; [|done].
    destruct (qualifies mbi); [destruct (load_bytes _ _ _)|]; done.
  - exists (S (Z.to_nat (lpMaximumApplicationAddress w - start))).
    intros fuel Hf.
    destruct (decide (lpMaximumApplicationAddress w = 0)) as [Hmax|Hmax].
    + by rewrite (find_first_null_bound _ _ _ _ Hpm Hmax).
    + rewrite (find_first_run _ _ _ _ Hpm Hmax).
      eapply scan_loop_terminates; [done| |exact Hf]. lia.
Qed.

(** *** The record enumerator *)

(** The flag byte of a record: 0x00 (locked) or 0x80 (unlocked). *)
Definition valid_flag (b : Z) : Prop := b = 0x00 \/ b = 0x80.

(** The flag byte of candidate [i] of the table at [first_address]. *)
Definition flag_byte (w : machine) (first_address i : Z) : option Z :=
  memory w !! (first_address + i * STRUCT_SIZE).

Definition record_address (first_address i : Z) : Z :=
  first_address + i * STRUCT_SIZE.

Lemma flag_byte_same_target w w' first_address i :
  same_target w w' -> flag_byte w' first_address i = flag_byte w first_address i.
Proof. intros (_ & _ & _ & _ & Hm). unfold flag_byte. by rewrite Hm. Qed.

Lemma collect_addresses_all first_address indices : forall addresses self w,
  (forall i, i ∈ indices ->
     exists b, flag_byte w first_address i = Some b /\ valid_flag b) ->
  exists w', same_target w w' /\
    collect_addresses STRUCT_SIZE first_address indices addresses (self, w)
    = (Ret (addresses ++ (record_address first_address <$> indices)), (self, w')).
Proof.
  induction indices as [|i rest IH]; intros addresses self w Hvalid; simpl.
  - exists w. split; [apply same_target_refl|]. by rewrite app_nil_r.
  - destruct (Hvalid i) as (b & Hb & Hflag); [by left|].
    unfold bind. rewrite (read_uchar_ok _ _ _ _ Hb).
    assert (Hok : bool_decide (b = 0) || bool_decide (b = 128) = true).
    { destruct Hflag as [-> | ->]; done. }
    rewrite Hok.
    destruct (IH (addresses ++ [first_address + i * STRUCT_SIZE]) self
                (record_access (ReadAccess (first_address + i * STRUCT_SIZE) 1) w))
      as (w' & Hw' & ->).
    { intros j Hj. apply Hvalid. by right. }
    exists w'. split.
    + eapply same_target_trans; [apply same_target_record_access|done].
    + by rewrite <- app_assoc.
Qed.

Lemma collect_addresses_stop first_address pre k post : forall addresses self w,
  (forall i, i ∈ pre ->
     exists b, flag_byte w first_address i = Some b /\ valid_flag b) ->
  (exists b, flag_byte w first_address k = Some b /\ ~ valid_flag b) ->
  exists w', same_target w w' /\
    collect_addresses STRUCT_SIZE first_address (pre ++ k :: post) addresses (self, w)
    = (Ret (addresses ++ (record_address first_address <$> pre)), (self, w')).
Proof.
  induction pre as [|i rest IH]; intros addresses self w Hvalid Hstop; simpl.
  - destruct Hstop as (b & Hb & Hflag).
    unfold bind. rewrite (read_uchar_ok _ _ _ _ Hb).
    assert (Hno : bool_decide (b = 0) || bool_decide (b = 128) = false).
    { apply orb_false_iff. split; apply bool_decide_eq_false; intros ->;
        apply Hflag; [by left|by right]. }
    rewrite Hno. eexists. split; [apply same_target_record_access|].
    by rewrite app_nil_r.
  - destruct (Hvalid i) as (b & Hb & Hflag); [by left|].
    unfold bind. rewrite (read_uchar_ok _ _ _ _ Hb).
    assert (Hok : bool_decide (b = 0) || bool_decide (b = 128) = true).
    { destruct Hflag as [-> | ->]; done. }
    rewrite Hok.
    destruct (IH (addresses ++ [first_address + i * STRUCT_SIZE]) self
                (record_access (ReadAccess (first_address + i * STRUCT_SIZE) 1) w))
      as (w' & Hw' & ->).
    { intros j Hj. apply Hvalid. by right. }
    { done. }
    exists w'. split.
    + eapply same_target_trans; [apply same_target_record_access|done].
    + by rewrite <- app_assoc.
Qed.

Lemma find_first_same_target fuel self w o s' :
  find_first fuel (self, w) = (o, s') -> s'.1 = self /\ same_target w s'.2.
Proof.
  destruct (pm self) as [h|] eqn:Hpm.
  - destruct (decide (lpMaximumApplicationAddress w = 0)) as [Hmax|Hmax].
    + rewrite (find_first_null_bound _ _ _ _ Hpm Hmax). intros [= <- <-].
      split; [done|apply same_target_refl].
    + rewrite (find_first_run _ _ _ _ Hpm Hmax). apply scan_loop_same_target.
  - unfold find_first_character_address, bind.
    rewrite (ensure_attached_none _ _ Hpm). intros [= <- <-].
    split; [done|apply same_target_refl].
Qed.

Lemma get_character_addresses_run fuel max_characters self w r s1 :
  find_first fuel (self, w) = (Ret r, s1) ->
  character_addresses fuel max_characters (self, w)
  = match r with
    | None => (Ret [], s1)
    | Some first_address =>
        collect_addresses STRUCT_SIZE first_address (Py.range 0 max_characters) [] s1
    end.
Proof.
  intros Hfind. unfold get_character_addresses, bind.
  destruct (pm self) as [h|] eqn:Hpm.
  - rewrite (ensure_attached_ok _ _ _ Hpm), Hfind. by destruct r.
  - unfold find_first_character_address, bind in Hfind.
    by rewrite (ensure_attached_none _ _ Hpm) in Hfind.
Qed.

(** C5: when the locator finds no first address the enumerator returns the
    empty list and raises nothing; when the flag byte of candidate [k],
    [k < max_count], is the first that is neither 0x00 nor 0x80, it returns
    the [k] addresses of candidates 0 to [k - 1] and nothing from [k] on;
    when the flag bytes of all [max_count] candidates are valid it returns
    all [max_count] addresses. *)
Theorem get_character_addresses_spec (fuel : nat) (max_count : Z) (s : state) :
  (forall s1, find_first fuel s = (Ret None, s1) ->
     character_addresses fuel max_count s = (Ret [], s1))
  /\ (forall first_address s1 k,
        find_first fuel s = (Ret (Some first_address), s1) ->
        0 <= k < max_count ->
        (forall i, 0 <= i < k ->
           exists b, flag_byte s.2 first_address i = Some b /\ valid_flag b) ->
        (exists b, flag_byte s.2 first_address k = Some b /\ ~ valid_flag b) ->
        (character_addresses fuel max_count s).1
        = Ret (record_address first_address <$> seqZ 0 k))
  /\ (forall first_address s1,
        find_first fuel s = (Ret (Some first_address), s1) ->
        (forall i, 0 <= i < max_count ->
           exists b, flag_byte s.2 first_address i = Some b /\ valid_flag b) ->
        (character_addresses fuel max_count s).1
        = Ret (record_address first_address <$> seqZ 0 max_count)).
Proof.
  destruct s as [self w]. split; [|split].
  - intros s1 Hfind. by rewrite (get_character_addresses_run _ _ _ _ _ _ Hfind).
  - intros first_address [self1 w1] k Hfind Hk Hvalid Hstop.
    rewrite (get_character_addresses_run _ _ _ _ _ _ Hfind).
    destruct (find_first_same_target _ _ _ _ _ Hfind) as [Hself Hw]. simpl in *.
    unfold Py.range.
    replace (max_count - 0) with (k + (1 + (max_count - k - 1))) by lia.
    rewrite seqZ_app by lia. rewrite (seqZ_app _ 1) by lia.
    change (seqZ (0 + k) 1) with [0 + k]. simpl app. rewrite Z.add_0_l.
    destruct (collect_addresses_stop first_address (seqZ 0 k) k
                (seqZ (k + 1) (max_count - k - 1)) [] self1 w1) as (w' & _ & ->).
    + intros i Hi%elem_of_seqZ. rewrite (flag_byte_same_target _ _ _ _ Hw).
      apply Hvalid. lia.
    + by rewrite (flag_byte_same_target _ _ _ _ Hw).
    + done.
  - intros first_address [self1 w1] Hfind Hvalid.
    rewrite (get_character_addresses_run _ _ _ _ _ _ Hfind).
    destruct (find_first_same_target _ _ _ _ _ Hfind) as [Hself Hw]. simpl in *.
    unfold Py.range. rewrite Z.sub_0_r.
    destruct (collect_addresses_all first_address (seqZ 0 max_count) [] self1 w1)
      as (w' & _ & ->); [|done].
    intros i Hi%elem_of_seqZ. rewrite (flag_byte_same_target _ _ _ _ Hw).
    apply Hvalid. lia.
Qed.

End Scanner.

(** ** The record locator over the address space *)

Section FirstRecord.

Variable STRUCT_SIZE : Z.
Variable PADDING_LENGTH : Z.
Variable PRECEDING_ZEROES : Z.
Variable FAST_SCAN : bool.
Variable FAST_SCAN_START_ADDRESS : Z.

Hypothesis PRECEDING_ZEROES_nonneg : 0 <= PRECEDING_ZEROES.
Hypothesis PADDING_LENGTH_nonneg : 0 <= PADDING_LENGTH.
Hypothesis PADDING_LENGTH_fits : PADDING_LENGTH < STRUCT_SIZE.

Local Abbreviation loop :=
  (scan_loop STRUCT_SIZE PADDING_LENGTH PRECEDING_ZEROES).
Local Abbreviation start := (start_address FAST_SCAN FAST_SCAN_START_ADDRESS).
Local Abbreviation find_first :=
  (find_first_character_address STRUCT_SIZE PADDING_LENGTH PRECEDING_ZEROES
     FAST_SCAN FAST_SCAN_START_ADDRESS).
Local Abbreviation no_table_in :=
  (no_table STRUCT_SIZE PADDING_LENGTH PRECEDING_ZEROES).
Local Abbreviation first_offset :=
  (first_table_offset STRUCT_SIZE PADDING_LENGTH PRECEDING_ZEROES).

(** What the locator may return over the regions in scan order: the
    address of the first table offset of the first region that has one, or
    nothing when no region has one. *)
Definition located (regions : list (Z * list Z)) (r : option Z) : Prop :=
  match r with
  | Some a => exists pre base chunk post i,
      regions = pre ++ (base, chunk) :: post
      /\ Forall (fun bc => no_table_in bc.2) pre
      /\ a = base + i
      /\ first_offset chunk i
  | None => Forall (fun bc => no_table_in bc.2) regions
  end.

Lemma scan_loop_located h max_address fuel :
  forall address regions self w,
    enumerate_regions w max_address fuel address = Some regions ->
    exists r w',
      loop fuel h max_address address (self, w) = (Ret r, (self, w'))
      /\ located regions r.
Proof.
  induction fuel as [|fuel IH]; intros address regions self w; simpl; [done|].
  case_bool_decide as Hlt.
  - destruct (enumerate_regions w max_address fuel _) as [rest|] eqn:Hrest; [|done].
    intros [= <-]. unfold bind.
    destruct (scan_step_run STRUCT_SIZE PADDING_LENGTH PRECEDING_ZEROES
                h max_address address self w) as (w' & Hw' & ->).
    rewrite <- (enumerate_regions_same_target _ _ _ _ _ Hw') in Hrest.
    destruct (region_at w max_address address) as [|size|size|size chunk];
      try (by apply IH).
    destruct (search_chunk_first STRUCT_SIZE PADDING_LENGTH PRECEDING_ZEROES
                PRECEDING_ZEROES_nonneg PADDING_LENGTH_nonneg PADDING_LENGTH_fits
                chunk address) as (r0 & -> & Hres).
    destruct r0 as [a|]; simpl in Hres.
    + destruct Hres as (i & -> & Hfirst).
      exists (Some (address + i)), w'. split; [done|].
      exists [], address, chunk, rest, i.
      split; [done|]. split; [constructor|]. by split.
    + destruct (IH (address + size) _ self w' Hrest) as (r & w'' & -> & Hloc).
      exists r, w''. split; [done|]. destruct r as [a|]; simpl in *.
      * destruct Hloc as (pre & base & chunk' & post & i & -> & Hpre & -> & Hfirst).
        exists ((address, chunk) :: pre), base, chunk', post, i.
        split; [done|]. split; [by constructor|]. by split.
      * by constructor.
  - intros [= <-]. exists None, w. split; [done|]. constructor.
Qed.

Lemma first_offset_unique chunk i i' :
  first_offset chunk i -> first_offset chunk i' -> i = i'.
Proof.
  intros (Hc & Ht & Hmin) (Hc' & Ht' & Hmin').
  destruct (Z.lt_trichotomy i i') as [Hlt | [Heq | Hgt]]; [|done|].
  - by destruct (Hmin' i Hc Hlt).
  - by destruct (Hmin i' Hc' Hgt).
Qed.

(** At a readable region that holds a table the loop returns with the
    first table offset of the region. *)
Lemma scan_loop_at_table h max_address base size chunk i self w fuel :
  base < max_address ->
  region_at w max_address base = Readable size chunk ->
  first_offset chunk i ->
  (0 < fuel)%nat ->
  (loop fuel h max_address base (self, w)).1 = Ret (Some (base + i)).
Proof.
  intros Hlt Hregion Hfirst Hf. destruct fuel as [|fuel]; [lia|]. simpl.
  rewrite bool_decide_true by done. unfold bind.
  destruct (scan_step_run STRUCT_SIZE PADDING_LENGTH PRECEDING_ZEROES
              h max_address base self w) as (w' & _ & ->).
  rewrite Hregion.
  destruct (search_chunk_first STRUCT_SIZE PADDING_LENGTH PRECEDING_ZEROES
              PRECEDING_ZEROES_nonneg PADDING_LENGTH_nonneg PADDING_LENGTH_fits
              chunk base) as (r0 & -> & Hres).
  destruct r0 as [a|]; simpl in Hres.
  - destruct Hres as (i' & -> & Hfirst'). simpl.
    by rewrite (first_offset_unique chunk i i' Hfirst Hfirst').
  - destruct Hfirst as (Hc & Ht & _). by destruct (Hres i Hc).
Qed.

(** The loop gets to a table through regions without one, whatever lies
    beyond the table. *)
Lemma scan_loop_reaches_table h max_address base size chunk i turns :
  forall address pre self w fuel,
    base < max_address ->
    region_at w max_address base = Readable size chunk ->
    first_offset chunk i ->
    regions_before w max_address base turns address = Some pre ->
    Forall (fun bc => no_table_in bc.2) pre ->
    (turns < fuel)%nat ->
    (loop fuel h max_address address (self, w)).1 = Ret (Some (base + i)).
Proof.
  induction turns as [|turns IH];
    intros address pre self w fuel Hlt Hregion Hfirst Hbefore Hpre Hf;
    simpl in Hbefore; case_bool_decide as Hstop;
    try (subst address; eapply scan_loop_at_table; [done..|lia]); [done|].
  case_bool_decide as Hlt'; [|done].
  destruct (regions_before _ _ _ turns _) as [rest|] eqn:Hrest; [|done].
  injection Hbefore as <-.
  destruct fuel as [|fuel]; [lia|]. simpl.
  rewrite bool_decide_true by done. unfold bind.
  destruct (scan_step_run STRUCT_SIZE PADDING_LENGTH PRECEDING_ZEROES
              h max_address address self w) as (w' & Hw' & ->).
  rewrite <- (regions_before_same_target _ _ _ _ _ _ Hw') in Hrest.
  rewrite <- (region_at_same_target _ _ _ _ Hw') in Hregion.
  destruct (region_at w max_address address) as [|size'|size'|size' chunk'];
    try (eapply IH; [done..|lia]).
  apply Forall_cons in Hpre as [Hno Hpre]. simpl in Hno.
  destruct (search_chunk_first STRUCT_SIZE PADDING_LENGTH PRECEDING_ZEROES
              PRECEDING_ZEROES_nonneg PADDING_LENGTH_nonneg PADDING_LENGTH_fits
              chunk' address) as (r0 & -> & Hres).
  destruct r0 as [a|]; simpl in Hres.
  - destruct Hres as (i' & _ & Hc & Ht & _). by destruct (Hno i' Hc).
  - eapply IH; [done..|lia].
Qed.

(** C1, for a maximum application address that is not null.  What the
    locator returns is read off the readable regions in the order the
    cursor meets them.  When the cursor gets to a readable region that
    holds a table start, through regions that hold none, the locator
    returns the base of that region plus the first offset [i] of it,
    [PRECEDING_ZEROES <= i <= len - 4 * STRUCT_SIZE], whose
    [PRECEDING_ZEROES] preceding bytes are zero and whose four consecutive
    windows match the signature, whatever lies beyond.  A first region
    that reads as [PRECEDING_ZEROES] zero bytes followed by four copies of
    a record matching the signature gives the address right after the zero
    run.  When every successful query reports a region that is not empty,
    the locator returns, the regions come in strictly ascending order of
    their bases, and the result is [None] when no offset of any region
    starts a table. *)
Theorem find_first_character_address_spec self w h :
  pm self = Some h ->
  lpMaximumApplicationAddress w <> 0 ->
  let max_address := lpMaximumApplicationAddress w in
  (regions_nonempty w ->
   exists turns regions,
     (forall fuel, (turns <= fuel)%nat ->
        enumerate_regions w max_address fuel start = Some regions)
     /\ StronglySorted (fun x y => x.1 < y.1) regions
     /\ Forall (fun bc => start <= bc.1 < max_address
                  /\ exists size, region_at w max_address bc.1 = Readable size bc.2)
          regions
     /\ forall fuel, (turns <= fuel)%nat ->
          exists r w', find_first fuel (self, w) = (Ret r, (self, w'))
                       /\ located regions r)
  /\ (forall base size chunk i turns pre fuel,
        regions_before w max_address base turns start = Some pre ->
        Forall (fun bc => no_table_in bc.2) pre ->
        base < max_address ->
        region_at w max_address base = Readable size chunk ->
        first_offset chunk i ->
        (turns < fuel)%nat ->
        (find_first fuel (self, w)).1 = Ret (Some (base + i)))
  /\ (forall rec size fuel,
        matches_signature_template STRUCT_SIZE PADDING_LENGTH rec ->
        start < max_address ->
        region_at w max_address start
        = Readable size (synthetic_buffer PRECEDING_ZEROES rec) ->
        (0 < fuel)%nat ->
        (find_first fuel (self, w)).1 = Ret (Some (start + PRECEDING_ZEROES))).
Proof.
  intros Hpm Hmax max_address. split; [|split].
  - intros Hpos.
    destruct (enumerate_regions_total w max_address
                (Z.to_nat (max_address - start)) start Hpos) as [regions Hregions];
      [lia|].
    exists (S (Z.to_nat (max_address - start))), regions.
    assert (Hfuel : forall fuel, (S (Z.to_nat (max_address - start)) <= fuel)%nat ->
              enumerate_regions w max_address fuel start = Some regions).
    { intros fuel Hf. apply Hregions. lia. }
    destruct (enumerate_regions_sorted w max_address _ start regions Hpos
                (Hfuel _ (le_n _))) as [Hall Hsorted].
    split; [done|]. split; [done|]. split; [done|].
    intros fuel Hf. rewrite (find_first_run _ _ _ _ _ _ _ _ _ Hpm Hmax).
    by apply scan_loop_located, Hfuel.
  - intros base size chunk i turns pre fuel Hbefore Hpre Hlt Hregion Hfirst Hf.
    rewrite (find_first_run _ _ _ _ _ _ _ _ _ Hpm Hmax).
    by eapply scan_loop_reaches_table.
  - intros rec size [|fuel] Hrec Hlt Hregion Hf; [lia|].
    rewrite (find_first_run _ _ _ _ _ _ _ _ _ Hpm Hmax). simpl.
    fold max_address. rewrite bool_decide_true by done. unfold bind.
    destruct (scan_step_run STRUCT_SIZE PADDING_LENGTH PRECEDING_ZEROES
                h max_address start self w) as (w' & _ & ->).
    rewrite Hregion.
    by rewrite (search_synthetic_buffer STRUCT_SIZE PADDING_LENGTH PRECEDING_ZEROES
                  PRECEDING_ZEROES_nonneg PADDING_LENGTH_nonneg PADDING_LENGTH_fits).
Qed.

End FirstRecord.

(** ** A concrete scenario

    Record size 50, padding length 4, ten preceding zeroes; one readable
    region at address 0 that holds the zero run, four unlocked records and
    the first byte, 0x42, of what is not a record. *)

Module Scenario.

Definition STRUCT_SIZE : Z := 50.
Definition PADDING_LENGTH : Z := 4.
Definition PRECEDING_ZEROES : Z := 10.
Definition FAST_SCAN : bool := false.
Definition FAST_SCAN_START_ADDRESS : Z := 0.

Definition OFFSETS : list (string * field_info) :=
  [("character_unlocked", {| offset := 0; type := "bool" |});
   ("level", {| offset := 1; type := "byte" |});
   ("gold", {| offset := 4; type := "int32" |});
   ("ratio", {| offset := 8; type := "float" |})].

Definition record : list Z :=
  [0x80] ++ replicate 45 7 ++ replicate 4 0.

Definition table : list Z := synthetic_buffer PRECEDING_ZEROES record.

Definition whole_region (size : Z) : MEMORY_BASIC_INFORMATION :=
  {| BaseAddress := 0; AllocationBase := 0; AllocationProtect := PAGE_READWRITE;
     RegionSize := size; State := MEM_COMMIT; Protect := PAGE_READWRITE;
     Type_ := 0 |}.

(** The machine whose process memory is [bytes], mapped at address 0 as
    one read-write region. *)
Definition machine_of (bytes : list Z) : machine :=
  {| open_process := fun name => if bool_decide (name = "game.exe") then Some 1 else None;
     lpMinimumApplicationAddress := 0;
     lpMaximumApplicationAddress := Z.of_nat (length bytes);
     query := fun _ => Some (whole_region (Z.of_nat (length bytes)));
     memory := store_bytes 0 bytes ∅;
     accesses := [] |}.

Definition attached_process : GameProcess :=
  {| pm := Some 1; process_name := "game.exe" |}.

Definition closed_process : GameProcess :=
  {| pm := None; process_name := "game.exe" |}.

End Scenario.

(** ** The scanner thread and the monitor *)

(** A run of the worker that returns has emitted the scanning status and
    then either one completion with the records or one error status. *)
Lemma run_emits S_ PL PZ FS FSA OFFSETS fuel max_characters s :
  returned (run S_ PL PZ FS FSA OFFSETS fuel max_characters s) = Ret tt ->
  exists scanning_msg,
    (exists data,
       emitted (run S_ PL PZ FS FSA OFFSETS fuel max_characters s)
       = [status_update scanning_msg "#f0f0f0"; scan_finished data])
    \/ (exists e,
       emitted (run S_ PL PZ FS FSA OFFSETS fuel max_characters s)
       = [status_update scanning_msg "#f0f0f0";
          status_update (ErrorScanning e) "#ff5555"]).
Proof.
  unfold run.
  destruct (get_all_character_data _ _ _ _ _ _ _ _ _) as [[data|e|] s']; simpl;
    intros H; [| |done]; eexists; [left|right]; eauto.
Qed.

(** [start_scan] turns a request down while [self.scanner] is set. *)
Lemma start_scan_guard name g id :
  Gui.attached g = true -> Gui.scanner g = Some id ->
  Gui.start_scan name g
  = Gui.append_status (Text "Scan already in progress.") "#ffa500" g.
Proof. intros Ha Hs. unfold Gui.start_scan. by rewrite Ha, Hs. Qed.

(** [_begin_scan] starts a worker whatever [self.scanner] holds. *)
Lemma begin_scan_unguarded g :
  Gui.workers_running (Gui._begin_scan g)
  = Gui.workers_running g ++ [Gui.threads_created g].
Proof. reflexivity. Qed.

Module RescanTwice.

Import Scenario.

(** What each worker emits: the run of [CharacterScannerThread] on the
    scenario's process. *)
Definition worker_signals (id : nat) : list signal :=
  emitted (run STRUCT_SIZE PADDING_LENGTH PRECEDING_ZEROES FAST_SCAN
             FAST_SCAN_START_ADDRESS (take 3 OFFSETS) 1 42
             (attached_process, machine_of (table ++ [0x42]))).

Definition handle_all : list Gui.event -> Gui.GameProcessMonitor -> Gui.GameProcessMonitor :=
  Gui.handle_all worker_signals (Some 10) "game.exe".

(** The process is found, the first scan runs and its result is
    delivered; then "Rescan Memory" is clicked twice. *)
Definition first_scan : list Gui.event :=
  [Gui.Timeout true; Gui.SingleShot; Gui.WorkerReturns 0; Gui.Deliver; Gui.Deliver].

Definition two_clicks : list Gui.event :=
  first_scan ++ [Gui.RescanClicked; Gui.RescanClicked].

Definition both_delivered : list Gui.event :=
  two_clicks ++ [Gui.WorkerReturns 1; Gui.WorkerReturns 2;
                 Gui.Deliver; Gui.Deliver; Gui.Deliver; Gui.Deliver].

(** C9, on the code: after the first scan one worker per click is
    started; the second click finds worker 1 running and starts worker 2
    beside it, and each of the two delivers its own completion. *)
Theorem rescan_starts_second_worker :
  Gui.workers_running (handle_all first_scan Gui.init) = []
  /\ Gui.completions (handle_all first_scan Gui.init) = 1%nat
  /\ Gui.rescan_enabled (handle_all first_scan Gui.init) = true
  /\ Gui.workers_running (handle_all two_clicks Gui.init) = [1%nat; 2%nat]
  /\ Gui.workers_running (handle_all both_delivered Gui.init) = []
  /\ Gui.completions (handle_all both_delivered Gui.init) = 3%nat.
Proof. vm_compute. repeat split; reflexivity. Qed.

End RescanTwice.

(** ** The properties on the scenario *)

Module Witness.

Import Scenario.

(** The matcher on a three-byte buffer: wildcards only, and the signature
    shape. *)
Lemma matches_pattern_spec_witness :
  _matches_pattern [0x80; 7; 0] 0 [None; None; None] = Ok true
  /\ exists r, _matches_pattern [0x80; 7; 0] 0 [Some 0x80; None; Some 0] = Ok r.
Proof.
  split.
  - apply (proj1 (proj2 (matches_pattern_spec [0x80; 7; 0] 0 [None; None; None]))).
    repeat constructor.
  - apply (proj2 (proj2 (matches_pattern_spec [0x80; 7; 0] 0
                           [Some 0x80; None; Some 0]))); simpl; lia.
Defined.

(** A stored 0x01 reads as false. *)
Lemma bool_field_codec_witness :
  (read_struct_field OFFSETS 10 "character_unlocked"
     (attached_process, machine_of (replicate 11 0x01))).1 = Ret (VBool false).
Proof.
  refine (proj1 (proj2 (bool_field_codec OFFSETS attached_process
            (machine_of (replicate 11 0x01)) 1 10 "character_unlocked"
            {| offset := 0; type := "bool" |} _ _ _)) _); reflexivity.
Defined.

(** Writing -2 to the int32 field of the first record and reading it back. *)
Lemma write_read_roundtrip_witness :
  exists w1,
    write_struct_field OFFSETS 10 "gold" (VInt (-2)) (attached_process, machine_of table)
    = (Ret tt, (attached_process, w1))
    /\ (read_struct_field OFFSETS 10 "gold" (attached_process, w1)).1 = Ret (VInt (-2)).
Proof.
  destruct (write_read_roundtrip OFFSETS attached_process (machine_of table) 1 10
              "gold" {| offset := 4; type := "int32" |} (VInt (-2)))
    as (w1 & Hwrite & Hread & _).
  - reflexivity.
  - reflexivity.
  - right. right. split; [reflexivity|]. exists (-2). split; [reflexivity|lia].
  - vm_compute. eauto.
  - exists w1. split; assumption.
Defined.

(** The field declared as float is refused and the machine is untouched. *)
Lemma unsupported_field_type_witness :
  read_struct_field OFFSETS 10 "ratio" (attached_process, machine_of table)
  = (Raise (ValueError "Unsupported field type: float"),
     (attached_process, machine_of table)).
Proof.
  refine (proj1 (unsupported_field_type OFFSETS attached_process (machine_of table)
            1 10 "ratio" {| offset := 8; type := "float" |} (VInt 0) _ _ _ _ _));
    (reflexivity || discriminate).
Defined.

(** Every operation on the closed process reports that it is not attached. *)
Lemma not_attached_errors_witness :
  reports_not_attached STRUCT_SIZE PADDING_LENGTH PRECEDING_ZEROES FAST_SCAN
    FAST_SCAN_START_ADDRESS OFFSETS (closed_process, machine_of table).
Proof.
  refine (proj1 (not_attached_errors STRUCT_SIZE PADDING_LENGTH PRECEDING_ZEROES
            FAST_SCAN FAST_SCAN_START_ADDRESS OFFSETS)
            closed_process (machine_of table) _).
  reflexivity.
Defined.

Lemma config_lengths :
  0 <= PRECEDING_ZEROES /\ 0 <= PADDING_LENGTH /\ PADDING_LENGTH < STRUCT_SIZE.
Proof. unfold PRECEDING_ZEROES, PADDING_LENGTH, STRUCT_SIZE. lia. Defined.

Lemma record_matches_signature :
  matches_signature_template STRUCT_SIZE PADDING_LENGTH record.
Proof.
  split; [reflexivity|]. split; [reflexivity|].
  intros k Hk. unfold STRUCT_SIZE, PADDING_LENGTH in Hk.
  assert (k = 46 \/ k = 47 \/ k = 48 \/ k = 49)%nat as Hc by lia.
  destruct Hc as [-> | [-> | [-> | ->]]]; reflexivity.
Defined.

(** Offset 10 of the table stays inside its 210 bytes, the search of the
    table does not raise, all its probes are inside the table, and the
    byte at offset 10 is among them. *)
Lemma search_within_chunk_witness :
  (0 <= 10 - PRECEDING_ZEROES /\ 10 + 4 * STRUCT_SIZE <= Z.of_nat (length table))
  /\ (exists r, search_chunk STRUCT_SIZE PADDING_LENGTH PRECEDING_ZEROES 0 table
                  (chunk_offsets STRUCT_SIZE PRECEDING_ZEROES table) = Ok r)
  /\ Forall (within table)
       (search_chunk_log STRUCT_SIZE PADDING_LENGTH PRECEDING_ZEROES 0 table
          (chunk_offsets STRUCT_SIZE PRECEDING_ZEROES table)).2
  /\ Indexed 10
       ∈ (search_chunk_log STRUCT_SIZE PADDING_LENGTH PRECEDING_ZEROES 0 table
            (chunk_offsets STRUCT_SIZE PRECEDING_ZEROES table)).2.
Proof.
  destruct config_lengths as (H1 & H2 & H3).
  destruct (search_within_chunk STRUCT_SIZE PADDING_LENGTH PRECEDING_ZEROES
              H1 H2 H3 table 0) as (Hoff & Hsearch & _ & Hwithin & Hreached).
  assert (Hten : 10 ∈ chunk_offsets STRUCT_SIZE PRECEDING_ZEROES table).
  { vm_compute. left. }
  split; [|split; [exact Hsearch|split; [exact Hwithin|]]].
  - destruct (Hoff 10 Hten) as (Hlo & Hhi & _). by split.
  - destruct (Hreached 10 Hten) as [_ Hread].
    + intros i' Hi' Hlt. vm_compute in Hi'.
      apply elem_of_cons in Hi' as [-> | Hi']; [lia|by apply elem_of_nil in Hi'].
    + apply Hread.
      apply (synthetic_buffer_table STRUCT_SIZE PADDING_LENGTH PRECEDING_ZEROES
               H1 H2 H3 record record_matches_signature).
Defined.

Lemma regions_nonempty_machine_of bytes :
  bytes <> [] -> regions_nonempty (machine_of bytes).
Proof.
  intros Hne a mbi [= <-]. simpl. destruct bytes; [done|]. simpl. lia.
Defined.

(** The scan of the scenario's single region ends. *)
Lemma scan_loop_progress_witness :
  exists turns, forall fuel, (turns <= fuel)%nat ->
    (find_first_character_address STRUCT_SIZE PADDING_LENGTH PRECEDING_ZEROES
       FAST_SCAN FAST_SCAN_START_ADDRESS fuel
       (attached_process, machine_of table)).1 <> OutOfFuel.
Proof.
  refine (proj2 (scan_loop_progress STRUCT_SIZE PADDING_LENGTH PRECEDING_ZEROES
            FAST_SCAN FAST_SCAN_START_ADDRESS attached_process (machine_of table) 1
            _ _)).
  - reflexivity.
  - by apply regions_nonempty_machine_of.
Defined.

(** The flag byte 0x42 of candidate 4 ends the table after four records. *)
Lemma get_character_addresses_spec_witness :
  (get_character_addresses STRUCT_SIZE PADDING_LENGTH PRECEDING_ZEROES
     FAST_SCAN FAST_SCAN_START_ADDRESS 1 42
     (attached_process, machine_of (table ++ [0x42]))).1
  = Ret [10; 60; 110; 160].
Proof.
  refine (proj1 (proj2 (get_character_addresses_spec STRUCT_SIZE PADDING_LENGTH
            PRECEDING_ZEROES FAST_SCAN FAST_SCAN_START_ADDRESS 1 42
            (attached_process, machine_of (table ++ [0x42]))))
            10 (attached_process,
                record_access (ReadAccess 0 211) (machine_of (table ++ [0x42])))
            4 _ _ _ _).
  - reflexivity.
  - lia.
  - intros i Hi. assert (i = 0 \/ i = 1 \/ i = 2 \/ i = 3) as Hc by lia.
    exists 0x80. split; [|by right].
    destruct Hc as [-> | [-> | [-> | ->]]]; reflexivity.
  - exists 0x42. split; [reflexivity|]. intros [H|H]; discriminate H.
Defined.

(** The machine of the counterexample to termination: every query
    succeeds and reports a free region of size zero. *)
Definition empty_region : MEMORY_BASIC_INFORMATION :=
  {| BaseAddress := 0; AllocationBase := 0; AllocationProtect := 0;
     RegionSize := 0; State := 0x10000; Protect := 0x01; Type_ := 0 |}.

Definition stalled_machine : machine :=
  {| open_process := fun _ => Some 1;
     lpMinimumApplicationAddress := 0;
     lpMaximumApplicationAddress := 1;
     query := fun _ => Some empty_region;
     memory := ∅;
     accesses := [] |}.

Lemma stalled_loop fuel :
  scan_loop STRUCT_SIZE PADDING_LENGTH PRECEDING_ZEROES fuel 1 1 0
    (attached_process, stalled_machine)
  = (OutOfFuel, (attached_process, stalled_machine)).
Proof.
  induction fuel as [|fuel IH]; [reflexivity|].
  cbn [scan_loop]. rewrite bool_decide_true by lia. unfold bind.
  change (scan_step STRUCT_SIZE PADDING_LENGTH PRECEDING_ZEROES 1 1 0
            (attached_process, stalled_machine))
    with (@Ret control (Continue 0), (attached_process, stalled_machine)).
  exact IH.
Qed.

(** C6 as stated fails: with a reported region size of zero the cursor
    stays at 0 below the maximum address 1, and no number of turns ends
    the loop. *)
Lemma zero_size_region_stalls :
  (scan_step STRUCT_SIZE PADDING_LENGTH PRECEDING_ZEROES 1 1 0
     (attached_process, stalled_machine)).1 = Ret (Continue 0)
  /\ ~ exists fuel,
       (find_first_character_address STRUCT_SIZE PADDING_LENGTH PRECEDING_ZEROES
          FAST_SCAN FAST_SCAN_START_ADDRESS fuel
          (attached_process, stalled_machine)).1 <> OutOfFuel.
Proof.
  split; [reflexivity|]. intros [fuel H]. apply H.
  rewrite (find_first_run STRUCT_SIZE PADDING_LENGTH PRECEDING_ZEROES FAST_SCAN
             FAST_SCAN_START_ADDRESS attached_process stalled_machine 1 fuel eq_refl
             ltac:(discriminate)).
  change (lpMaximumApplicationAddress stalled_machine) with 1.
  change (start_address FAST_SCAN FAST_SCAN_START_ADDRESS) with 0.
  by rewrite stalled_loop.
Qed.

(** The table in a region of its own, and above it regions of size
    zero up to the maximum address 300. *)
Definition table_below_empty_regions : machine :=
  {| open_process := fun _ => Some 1;
     lpMinimumApplicationAddress := 0;
     lpMaximumApplicationAddress := 300;
     query := fun address =>
       if bool_decide (address < 210) then Some (whole_region 210)
       else Some empty_region;
     memory := store_bytes 0 table ∅;
     accesses := [] |}.

(** The locator finds the table right after the ten zero bytes, also
    when regions of size zero lie above it. *)
Lemma find_first_character_address_spec_witness :
  (find_first_character_address STRUCT_SIZE PADDING_LENGTH PRECEDING_ZEROES
     FAST_SCAN FAST_SCAN_START_ADDRESS 1 (attached_process, machine_of table)).1
  = Ret (Some 10)
  /\ (find_first_character_address STRUCT_SIZE PADDING_LENGTH PRECEDING_ZEROES
        FAST_SCAN FAST_SCAN_START_ADDRESS 1
        (attached_process, table_below_empty_regions)).1
     = Ret (Some 10)
  /\ ~ regions_nonempty table_below_empty_regions.
Proof.
  destruct config_lengths as (H1 & H2 & H3).
  split; [|split].
  - refine (proj2 (proj2 (find_first_character_address_spec STRUCT_SIZE PADDING_LENGTH
              PRECEDING_ZEROES FAST_SCAN FAST_SCAN_START_ADDRESS H1 H2 H3
              attached_process (machine_of table) 1 _ _))
              record 210 1%nat record_matches_signature _ _ _).
    + reflexivity.
    + discriminate.
    + reflexivity.
    + reflexivity.
    + lia.
  - refine (proj1 (proj2 (find_first_character_address_spec STRUCT_SIZE PADDING_LENGTH
              PRECEDING_ZEROES FAST_SCAN FAST_SCAN_START_ADDRESS H1 H2 H3
              attached_process table_below_empty_regions 1 _ _))
              0 210 table 10 0%nat [] 1%nat _ _ _ _ _ _).
    + reflexivity.
    + discriminate.
    + reflexivity.
    + constructor.
    + reflexivity.
    + reflexivity.
    + split; [|split].
      * unfold considered. simpl. unfold PRECEDING_ZEROES, STRUCT_SIZE. lia.
      * apply (synthetic_buffer_table STRUCT_SIZE PADDING_LENGTH PRECEDING_ZEROES
                 H1 H2 H3 record record_matches_signature).
      * unfold considered. intros i'. simpl. unfold PRECEDING_ZEROES, STRUCT_SIZE. lia.
    + lia.
  - intros Hpos. specialize (Hpos 210 empty_region eq_refl). simpl in Hpos. lia.
Defined.

(** C1 as stated fails.  The stalled machine has no readable region, so
    no offset of any region starts a table, and yet the locator returns
    nothing, [None] included, however many turns it is given; and with a
    null maximum application address the locator raises TypeError at the
    first test of its loop. *)
Lemma no_table_no_result :
  (forall address,
     region_at stalled_machine (lpMaximumApplicationAddress stalled_machine) address
     = Skipped 0)
  /\ (~ exists fuel r,
        (find_first_character_address STRUCT_SIZE PADDING_LENGTH PRECEDING_ZEROES
           FAST_SCAN FAST_SCAN_START_ADDRESS fuel
           (attached_process, stalled_machine)).1 = Ret r)
  /\ (forall fuel,
        (find_first_character_address STRUCT_SIZE PADDING_LENGTH PRECEDING_ZEROES
           FAST_SCAN FAST_SCAN_START_ADDRESS fuel
           (attached_process, machine_of [])).1 = Raise TypeError).
Proof.
  split; [|split].
  - intros address. reflexivity.
  - intros (fuel & r & H).
    rewrite (find_first_run STRUCT_SIZE PADDING_LENGTH PRECEDING_ZEROES FAST_SCAN
               FAST_SCAN_START_ADDRESS attached_process stalled_machine 1 fuel eq_refl
               ltac:(discriminate)) in H.
    change (lpMaximumApplicationAddress stalled_machine) with 1 in H.
    change (start_address FAST_SCAN FAST_SCAN_START_ADDRESS) with 0 in H.
    by rewrite stalled_loop in H.
  - intros fuel.
    by rewrite (find_first_null_bound STRUCT_SIZE PADDING_LENGTH PRECEDING_ZEROES
                  FAST_SCAN FAST_SCAN_START_ADDRESS attached_process (machine_of []) 1
                  fuel eq_refl eq_refl).
Qed.

End Witness.

(** * Further properties *)

(** ** Level unlocks *)

Module LevelFacts.

Import Levels.

(** Every entry carries a pair [(array_index, value)]. *)
Definition pairs (flat : list flat_entry) : Prop :=
  Forall (fun e : flat_entry => length e.2 = 2%nat) flat.

Lemma cascade_idempotent bytes : cascade (cascade bytes) = cascade bytes.
Proof.
  destruct bytes as [[b0 b1] b2]. unfold cascade.
  repeat (case_bool_decide; simpl); try done; congruence.
Qed.

Lemma exact_match_pairs c0 c1 c2 flat : forall i,
  pairs flat -> exact_match [c0; c1; c2] i flat = None.
Proof.
  induction flat as [|[name values] rest IH]; intros i Hp; simpl; [done|].
  apply Forall_cons in Hp as [Hlen Hrest]. simpl in Hlen.
  rewrite bool_decide_false; [by apply IH|].
  intros ->. discriminate Hlen.
Qed.

Lemma exact_match_range cascaded flat : forall i idx,
  exact_match cascaded i flat = Some idx ->
  i <= idx < i + Z.of_nat (length flat).
Proof.
  induction flat as [|[name values] rest IH]; intros i idx; simpl; [done|].
  case_bool_decide.
  - intros [= <-]. lia.
  - intros H'. apply IH in H'. lia.
Qed.

Lemma fallback_match_range ai t flat : forall i idx,
  fallback_match ai t i flat = Ok (Some idx) ->
  i <= idx < i + Z.of_nat (length flat).
Proof.
  induction flat as [|[name values] rest IH]; intros i idx; simpl; [done|].
  destruct values as [|x [|y [|z vs]]]; try done.
  destruct (bool_decide (x = ai) && bool_decide (y = t)).
  - intros [= <-]. lia.
  - intros H'. apply IH in H'. lia.
Qed.

(** On pairs the fallback loop does not raise and returns the first entry
    that carries the pair it looks for. *)
Lemma fallback_match_pairs ai t flat : forall i,
  pairs flat ->
  match fallback_match ai t i flat with
  | Ok (Some idx) => exists (k : nat) name,
      idx = i + Z.of_nat k /\ flat !! k = Some (name, [ai; t])
      /\ forall (k' : nat) name', (k' < k)%nat -> flat !! k' <> Some (name', [ai; t])
  | Ok None => forall (k : nat) name, flat !! k <> Some (name, [ai; t])
  | Err _ => False
  end.
Proof.
  induction flat as [|[name values] rest IH]; intros i Hp; simpl.
  - intros k name'. by rewrite lookup_nil.
  - apply Forall_cons in Hp as [Hlen Hrest]. simpl in Hlen.
    destruct values as [|x [|y [|z vs]]]; try discriminate Hlen.
    destruct (bool_decide (x = ai) && bool_decide (y = t)) eqn:Hxy.
    + apply andb_true_iff in Hxy as [->%bool_decide_eq_true ->%bool_decide_eq_true].
      exists O, name. split; [lia|]. split; [done|]. intros k' name' Hk. lia.
    + assert (Hne : [x; y] <> [ai; t]).
      { intros [= -> ->]. by rewrite !bool_decide_true in Hxy. }
      specialize (IH (i + 1) Hrest).
      destruct (fallback_match ai t (i + 1) rest) as [[idx|]|e]; [| |done].
      * destruct IH as (k & name' & -> & Hk & Hfirst).
        exists (S k), name'. split; [lia|]. split; [done|].
        intros [|k'] name'' Hlt; simpl; [congruence|]. apply Hfirst. lia.
      * intros [|k] name'; simpl; [congruence|]. apply IH.
Qed.

(** X1: on a list of pairs, the bytes [flat_to_bytes] computes for an
    index lead [pick_cascading_flat_index] back to that index, provided
    the entry is the first with its pair and, for an entry of byte 1 or 2,
    its value is not zero. *)
Theorem flat_index_roundtrip (flat : list flat_entry) (index : nat) name bi v :
  pairs flat ->
  flat !! index = Some (name, [bi; v]) ->
  bi = 0 \/ ((bi = 1 \/ bi = 2) /\ v <> 0) ->
  (forall (k : nat) name', (k < index)%nat -> flat !! k <> Some (name', [bi; v])) ->
  exists bytes,
    flat_to_bytes flat (Z.of_nat index) = Ok bytes
    /\ pick_cascading_flat_index bytes flat = Ok (Z.of_nat index).
Proof.
  intros Hp Hentry Hbi Hfirst.
  pose proof (lookup_lt_Some _ _ _ Hentry) as Hlt.
  assert (Hbytes : flat_to_bytes flat (Z.of_nat index)
                   = Ok (cascade (if bool_decide (bi = 0) then v else 0,
                                  if bool_decide (bi = 1) then v else 0,
                                  if bool_decide (bi = 2) then v else 0))).
  { unfold flat_to_bytes. rewrite bool_decide_true by lia. simpl.
    rewrite getitem_nonneg by lia. by rewrite Nat2Z.id, Hentry. }
  eexists. split; [exact Hbytes|].
  unfold pick_cascading_flat_index. rewrite cascade_idempotent.
  destruct (cascade _) as [[c0 c1] c2] eqn:Hc.
  rewrite (exact_match_pairs _ _ _ _ _ Hp).
  assert (Htarget : fallback_target (c0, c1, c2) = (v, bi)).
  { rewrite <- Hc. unfold cascade, fallback_target.
    destruct Hbi as [-> | [[-> | ->] Hv]]; simpl;
      repeat (case_bool_decide; simpl); try done; congruence. }
  rewrite Htarget.
  pose proof (fallback_match_pairs bi v flat 0 Hp) as Hfb.
  destruct (fallback_match bi v 0 flat) as [[idx|]|e]; [| |done].
  - destruct Hfb as (k & name' & -> & Hk & Hmin).
    f_equal. rewrite Z.add_0_l. f_equal.
    destruct (Nat.lt_trichotomy k index) as [Hlt'|[->|Hgt]]; [|done|].
    + exfalso. by apply (Hfirst k name').
    + exfalso. by apply (Hmin index name).
  - exfalso. by apply (Hfb index name).
Qed.

(** X2: the index returned is a position of the list (or 0 when the list
    is empty), so it can be given to the combo box; and it depends on the
    highest byte that is not zero only: lower bytes are ignored. *)
Theorem pick_index_in_range (flat : list flat_entry) (b0 b1 b2 : Z) :
  (forall idx, pick_cascading_flat_index (b0, b1, b2) flat = Ok idx ->
     0 <= idx /\ (idx < Z.of_nat (length flat) \/ idx = 0))
  /\ (forall b0' b1', b2 <> 0 ->
        pick_cascading_flat_index (b0', b1', b2) flat
        = pick_cascading_flat_index (b0, b1, b2) flat)
  /\ (forall b0', b2 = 0 -> b1 <> 0 ->
        pick_cascading_flat_index (b0', b1, b2) flat
        = pick_cascading_flat_index (b0, b1, b2) flat).
Proof.
  split; [|split].
  - intros idx. unfold pick_cascading_flat_index.
    destruct (cascade _) as [[c0 c1] c2].
    destruct (exact_match _ 0 flat) as [i|] eqn:Hex.
    + intros [= <-]. apply exact_match_range in Hex. lia.
    + destruct (fallback_target _) as [target ai].
      destruct (fallback_match ai target 0 flat) as [[i|]|e] eqn:Hfb; [| |done].
      * intros [= <-]. apply fallback_match_range in Hfb. lia.
      * intros [= <-]. lia.
  - intros b0' b1' Hb2. unfold pick_cascading_flat_index, cascade.
    by rewrite !bool_decide_true by done.
  - intros b0' -> Hb1. unfold pick_cascading_flat_index, cascade.
    rewrite !bool_decide_false by (intros H; by apply H).
    by rewrite !bool_decide_true by done.
Qed.

(** X3: on a list of pairs that has an entry for the highest byte that is
    not zero, the index picked for three bytes gives back, through
    [flat_to_bytes], the cascaded form of those bytes: what is written
    back is the bytes read with every byte below the highest one set to
    0xFF. *)
Theorem pick_then_flat_to_bytes (flat : list flat_entry) (bytes : Z * Z * Z) :
  pairs flat ->
  (exists (k : nat) name,
     flat !! k = Some (name, [(fallback_target (cascade bytes)).2;
                              (fallback_target (cascade bytes)).1])) ->
  exists idx,
    pick_cascading_flat_index bytes flat = Ok idx
    /\ flat_to_bytes flat idx = Ok (cascade bytes).
Proof.
  intros Hp (k0 & name0 & Hk0).
  unfold pick_cascading_flat_index.
  destruct (cascade bytes) as [[c0 c1] c2] eqn:Hc.
  rewrite (exact_match_pairs _ _ _ _ _ Hp).
  destruct (fallback_target (c0, c1, c2)) as [target ai] eqn:Ht. simpl in Hk0.
  pose proof (fallback_match_pairs ai target flat 0 Hp) as Hfb.
  destruct (fallback_match ai target 0 flat) as [[idx|]|e]; [| |done].
  - destruct Hfb as (k & name & -> & Hk & _).
    exists (0 + Z.of_nat k). split; [done|].
    pose proof (lookup_lt_Some _ _ _ Hk) as Hlt.
    unfold flat_to_bytes. rewrite bool_decide_true by lia. simpl.
    rewrite getitem_nonneg by lia.
    replace (Z.to_nat (0 + Z.of_nat k)) with k by lia. rewrite Hk.
    f_equal. rewrite <- Hc in Ht |- *.
    destruct bytes as [[b0 b1] b2]. unfold cascade, fallback_target in *.
    repeat (case_bool_decide; simpl in * ); simplify_eq; try done; congruence.
  - exfalso. by apply (Hfb k0 name0).
Qed.

(** X4: [flat_to_bytes] gives three zero bytes for an index outside the
    list (the -1 of an empty combo box included), and whatever it returns
    is in cascaded form: with byte 2 set, bytes 0 and 1 are 0xFF; with
    byte 1 set, byte 0 is 0xFF. *)
Theorem flat_to_bytes_cascaded (flat : list flat_entry) (index : Z) :
  (~ (0 <= index < Z.of_nat (length flat)) -> flat_to_bytes flat index = Ok (0, 0, 0))
  /\ (forall b0 b1 b2, flat_to_bytes flat index = Ok (b0, b1, b2) ->
        (b2 <> 0 -> b0 = 0xFF /\ b1 = 0xFF)
        /\ (b1 <> 0 -> b0 = 0xFF)).
Proof.
  split.
  - intros Hout. unfold flat_to_bytes. by rewrite bool_decide_false.
  - intros b0 b1 b2. unfold flat_to_bytes.
    case_bool_decide; simpl; [|intros [= <- <- <-]; done].
    destruct (Py.getitem flat index) as [[name values]|]; [|done].
    destruct values as [|bi [|v [|z vs]]]; try done.
    unfold cascade.
    repeat (case_bool_decide; simpl); intros [= <- <- <-]; split; intros;
      try done; try lia; try (split; congruence); try congruence.
Qed.

End LevelFacts.

(** ** The field codec, continued *)

Lemma store_bytes_lookup_outside address bytes mem a :
  ~ (address <= a < address + Z.of_nat (length bytes)) ->
  store_bytes address bytes mem !! a = mem !! a.
Proof.
  revert address. induction bytes as [|b rest IH]; intros address Ha; simpl in *; [done|].
  rewrite lookup_insert_ne by lia. apply IH. lia.
Qed.

Lemma store_bytes_id address bytes mem :
  load_bytes mem address (Z.of_nat (length bytes)) = Some bytes ->
  store_bytes address bytes mem = mem.
Proof.
  intros [_ H]%load_bytes_spec. revert address H.
  induction bytes as [|b rest IH]; intros address H; simpl; [done|].
  rewrite IH.
  - apply insert_id. specialize (H O b eq_refl). by rewrite Z.add_0_r in H.
  - intros k b' Hk. specialize (H (S k) b' Hk).
    by replace (address + 1 + Z.of_nat k) with (address + Z.of_nat (S k)) by lia.
Qed.

Lemma load_bytes_agree mem mem' address length :
  (forall a, address <= a < address + length -> mem' !! a = mem !! a) ->
  load_bytes mem' address length = load_bytes mem address length.
Proof.
  intros H. unfold load_bytes. apply Forall_mapM_ext, Forall_seqZ. exact H.
Qed.

(** What [write_bytes] leaves behind, whatever its outcome. *)
Lemma write_bytes_outcome address bytes self w o s' :
  write_bytes address bytes (self, w) = (o, s') ->
  s'.1 = self
  /\ ((o = Ret tt /\ memory s'.2 = store_bytes address bytes (memory w))
      \/ (o <> Ret tt /\ memory s'.2 = memory w)).
Proof.
  unfold write_bytes. destruct (load_bytes _ _ _); intros [= <- <-]; simpl.
  - split; [done|]. by left.
  - split; [done|]. by right.
Qed.

Lemma be_encode_high n : forall c d,
  be_encode n (c * 256 ^ Z.of_nat n + d) = be_encode n d.
Proof.
  induction n as [|n IH]; intros c d; [done|].
  cbn [be_encode]. f_equal.
  - rewrite Nat2Z.inj_succ, Z.pow_succ_r by lia.
    replace (c * (256 * 256 ^ Z.of_nat n) + d)
      with (d + (c * 256) * 256 ^ Z.of_nat n) by lia.
    rewrite Z.div_add by lia.
    rewrite Z.add_mod, Z.mod_mul, Z.add_0_r, Z.mod_mod by lia. done.
  - rewrite Nat2Z.inj_succ, Z.pow_succ_r by lia.
    replace (c * (256 * 256 ^ Z.of_nat n) + d)
      with ((c * 256) * 256 ^ Z.of_nat n + d) by lia.
    apply IH.
Qed.

Lemma be_decode_acc bytes : forall acc,
  fold_left (fun a b => a * 256 + b) bytes acc
  = acc * 256 ^ Z.of_nat (length bytes) + be_decode bytes.
Proof.
  unfold be_decode.
  induction bytes as [|b rest IH]; intros acc; simpl fold_left.
  - simpl. lia.
  - rewrite IH, (IH (0 * 256 + b)).
    change (length (b :: rest)) with (S (length rest)).
    rewrite Nat2Z.inj_succ, Z.pow_succ_r by lia. lia.
Qed.

Lemma be_decode_range bytes :
  Forall (fun b => 0 <= b < 256) bytes ->
  0 <= be_decode bytes < 256 ^ Z.of_nat (length bytes).
Proof.
  induction 1 as [|b rest Hb _ IH].
  - unfold be_decode. simpl. lia.
  - unfold be_decode. cbn [fold_left]. rewrite be_decode_acc.
    change (length (b :: rest)) with (S (length rest)).
    rewrite Nat2Z.inj_succ, Z.pow_succ_r by lia.
    assert (0 < 256 ^ Z.of_nat (length rest)) by (apply Z.pow_pos_nonneg; lia).
    nia.
Qed.

Lemma be_encode_decode bytes :
  Forall (fun b => 0 <= b < 256) bytes ->
  be_encode (length bytes) (be_decode bytes) = bytes.
Proof.
  induction 1 as [|b rest Hb Hrest IH]; [done|].
  pose proof (be_decode_range rest Hrest) as Hr.
  unfold be_decode at 1. cbn [fold_left]. rewrite be_decode_acc.
  change (length (b :: rest)) with (S (length rest)). cbn [be_encode].
  replace (0 * 256 + b) with b by lia. f_equal.
  - rewrite Z.div_add_l by lia. rewrite Z.div_small by lia.
    rewrite Z.add_0_r. apply Z.mod_small. lia.
  - by rewrite be_encode_high.
Qed.

Lemma to_from_bytes_int32 raw :
  length raw = 4%nat -> Forall (fun b => 0 <= b < 256) raw ->
  - 2147483648 <= from_bytes raw <= 2147483647
  /\ to_bytes 4 (from_bytes raw) = Ok raw.
Proof.
  intros Hlen Hraw. pose proof (be_decode_range raw Hraw) as Hr.
  rewrite Hlen in Hr. change (256 ^ Z.of_nat 4) with 4294967296 in Hr.
  assert (Hrange : - 2147483648 <= from_bytes raw <= 2147483647).
  { unfold from_bytes. rewrite Hlen.
    change (2 ^ (8 * Z.of_nat 4 - 1)) with 2147483648.
    case_bool_decide; lia. }
  split; [done|]. unfold to_bytes.
  change (2 ^ (8 * Z.of_nat 4 - 1)) with 2147483648.
  rewrite bool_decide_true by lia. f_equal.
  change (2 * 2147483648) with 4294967296.
  assert (Hmod : from_bytes raw `mod` 4294967296 = be_decode raw).
  { unfold from_bytes. rewrite Hlen.
    change (2 ^ (8 * Z.of_nat 4 - 1)) with 2147483648.
    case_bool_decide; Z.div_mod_to_equations; lia. }
  rewrite Hmod, <- Hlen. by apply be_encode_decode.
Qed.

Lemma dict_get_missing {V} (d : list (string * V)) key :
  key ∉ d.*1 -> dict_get d key = Err (KeyError key).
Proof.
  induction d as [|[k v] rest IH]; intros Hnot; simpl; [done|].
  rewrite fmap_cons in Hnot. apply not_elem_of_cons in Hnot as [Hne Hrest].
  simpl in Hne. rewrite bool_decide_false by congruence. by apply IH.
Qed.

Lemma dict_get_declared {V} (d : list (string * V)) key :
  key ∈ d.*1 -> exists v, dict_get d key = Ok v.
Proof.
  induction d as [|[k v] rest IH]; intros Hin; simpl.
  - by apply elem_of_nil in Hin.
  - case_bool_decide; [eauto|].
    rewrite fmap_cons in Hin. apply elem_of_cons in Hin as [Heq|Hin]; [|by apply IH].
    simpl in Heq. congruence.
Qed.

Section CodecFacts.

Variable OFFSETS : list (string * field_info).

(** The bytes of a field: [field_width] bytes from its address on. *)
Definition in_field (base_address : Z) (fi : field_info) (a : Z) : Prop :=
  base_address + offset fi <= a < base_address + offset fi + field_width (type fi).

Lemma write_frame base_address field_name value self w o s' :
  write_struct_field OFFSETS base_address field_name value (self, w) = (o, s') ->
  s'.1 = self
  /\ (o <> Ret tt -> memory s'.2 = memory w)
  /\ (forall fi a, dict_get OFFSETS field_name = Ok fi ->
        ~ in_field base_address fi a -> memory s'.2 !! a = memory w !! a).
Proof.
  unfold write_struct_field, bind, in_field, field_width.
  destruct (pm self) as [h|] eqn:Hpm.
  2:{ rewrite (ensure_attached_none _ _ Hpm). intros [= <- <-]. by repeat split. }
  rewrite (ensure_attached_ok _ _ _ Hpm).
  destruct (dict_get OFFSETS field_name) as [fi|e]; simpl;
    [|intros [= <- <-]; by repeat split].
  assert (Hone : forall b o s',
            write_uchar (base_address + offset fi) b (self, w) = (o, s') ->
            s'.1 = self /\ (o <> Ret tt -> memory s'.2 = memory w)
            /\ forall a, ~ (base_address + offset fi <= a < base_address + offset fi + 1) ->
                 memory s'.2 !! a = memory w !! a).
  { intros b o0 s0 [Hself Hmem]%write_bytes_outcome. split; [done|].
    destruct Hmem as [[-> Hmem]|[Hne Hmem]]; rewrite Hmem.
    - split; [done|]. intros a Ha. apply store_bytes_lookup_outside. simpl. lia.
    - by split. }
  repeat case_bool_decide.
  - intros (Hself & Hfail & Hframe)%Hone. split; [done|]. split; [done|].
    intros fi' a [= <-]. rewrite bool_decide_false by (by destruct (type fi); congruence).
    apply Hframe.
  - intros (Hself & Hfail & Hframe)%Hone. split; [done|]. split; [done|].
    intros fi' a [= <-]. rewrite bool_decide_false by congruence. apply Hframe.
  - destruct (to_bytes 4 (int_of value)) as [raw|e] eqn:Hto; simpl;
      [|intros [= <- <-]; by repeat split].
    assert (Hlen : length raw = 4%nat).
    { unfold to_bytes in Hto. case_bool_decide; [|done].
      injection Hto as <-. reflexivity. }
    intros [Hself Hmem]%write_bytes_outcome. split; [done|].
    destruct Hmem as [[-> Hmem]|[Hne Hmem]]; rewrite Hmem.
    + split; [done|]. intros fi' a [= <-]. rewrite bool_decide_true by done.
      intros Ha. apply store_bytes_lookup_outside. rewrite Hlen. lia.
    + by split.
  - intros [= <- <-]. by repeat split.
Qed.

(** X5: a write changes no byte outside the field it is given, and no
    byte at all when it raises; the object keeps its handle. *)
Theorem write_struct_field_frame base_address field_name value self w o s' :
  write_struct_field OFFSETS base_address field_name value (self, w) = (o, s') ->
  s'.1 = self
  /\ (o <> Ret tt -> memory s'.2 = memory w)
  /\ (forall fi a, dict_get OFFSETS field_name = Ok fi ->
        ~ in_field base_address fi a -> memory s'.2 !! a = memory w !! a).
Proof. apply write_frame. Qed.

(** A read depends on the bytes of its field only. *)
Lemma read_struct_field_agree base_address field_name fi self w w' :
  dict_get OFFSETS field_name = Ok fi ->
  (forall a, in_field base_address fi a -> memory w' !! a = memory w !! a) ->
  (read_struct_field OFFSETS base_address field_name (self, w')).1
  = (read_struct_field OFFSETS base_address field_name (self, w)).1.
Proof.
  intros Hget Hagree. unfold read_struct_field, bind.
  destruct (pm self) as [h|] eqn:Hpm;
    [|by rewrite !(ensure_attached_none _ _ Hpm)].
  rewrite !(ensure_attached_ok _ _ _ Hpm), Hget. simpl.
  assert (Hone : type fi <> "int32" ->
            memory w' !! (base_address + offset fi) = memory w !! (base_address + offset fi)).
  { intros Hne. apply Hagree. unfold in_field, field_width.
    rewrite bool_decide_false by done. lia. }
  destruct (decide (type fi = "byte")) as [Hbyte|Hbyte].
  { rewrite !bool_decide_true by done.
    unfold read_uchar. rewrite Hone by congruence. by destruct (memory w !! _). }
  rewrite !(bool_decide_false (type fi = "byte")) by done.
  destruct (decide (type fi = "bool")) as [Hbool|Hbool].
  { rewrite !bool_decide_true by done.
    unfold read_uchar. rewrite Hone by congruence. by destruct (memory w !! _). }
  rewrite !(bool_decide_false (type fi = "bool")) by done.
  destruct (decide (type fi = "int32")) as [Hint|Hint].
  - rewrite !bool_decide_true by done. unfold read_bytes.
    rewrite (load_bytes_agree (memory w) (memory w') _ 4).
    + by destruct (load_bytes _ _ _).
    + intros a Ha. apply Hagree. unfold in_field, field_width.
      rewrite bool_decide_true by done. lia.
  - by rewrite !bool_decide_false by done.
Qed.

(** X6: writing one field does not change what a read of another field
    returns, in the same record or in another one, as long as the bytes of
    the two fields do not overlap. *)
Theorem disjoint_fields_independent
    base_a name_a fi_a value base_b name_b fi_b self w o s' :
  dict_get OFFSETS name_a = Ok fi_a ->
  dict_get OFFSETS name_b = Ok fi_b ->
  (forall a, in_field base_a fi_a a -> ~ in_field base_b fi_b a) ->
  write_struct_field OFFSETS base_a name_a value (self, w) = (o, s') ->
  (read_struct_field OFFSETS base_b name_b s').1
  = (read_struct_field OFFSETS base_b name_b (self, w)).1.
Proof.
  intros Ha Hb Hdisjoint Hwrite. destruct s' as [self' w'].
  destruct (write_frame _ _ _ _ _ _ _ Hwrite) as (Hself & _ & Hframe).
  simpl in Hself. subst self'.
  apply (read_struct_field_agree _ _ fi_b); [done|].
  intros a Hin. apply (Hframe fi_a a Ha). intros Hin'. by apply (Hdisjoint a).
Qed.

End CodecFacts.

Section CodecEdges.

Variable OFFSETS : list (string * field_info).

(** X7: an int32 field refuses a value outside the signed 32-bit range
    with OverflowError before anything is written: pymem is not called and
    the machine is left as it was. *)
Theorem int32_overflow base_address field_name fi n self w h :
  pm self = Some h ->
  dict_get OFFSETS field_name = Ok fi ->
  type fi = "int32" ->
  n < - 2147483648 \/ 2147483647 < n ->
  write_struct_field OFFSETS base_address field_name (VInt n) (self, w)
  = (Raise OverflowError, (self, w)).
Proof.
  intros Hpm Hget Hty Hn. unfold write_struct_field, bind.
  rewrite (ensure_attached_ok _ _ _ Hpm), Hget. simpl. rewrite Hty. simpl.
  unfold to_bytes. change (2 ^ (8 * Z.of_nat 4 - 1)) with 2147483648.
  by rewrite bool_decide_false by lia.
Qed.

(** X8: a field name that [OFFSETS] does not declare makes the read and
    the write raise KeyError, after the attachment test and before any
    access to the process. *)
Theorem undeclared_field base_address field_name value self w h :
  pm self = Some h ->
  field_name ∉ OFFSETS.*1 ->
  read_struct_field OFFSETS base_address field_name (self, w)
  = (Raise (KeyError field_name), (self, w))
  /\ write_struct_field OFFSETS base_address field_name value (self, w)
  = (Raise (KeyError field_name), (self, w)).
Proof.
  intros Hpm Hnot. unfold read_struct_field, write_struct_field, bind.
  by rewrite (ensure_attached_ok _ _ _ Hpm), (dict_get_missing _ _ Hnot).
Qed.

(** X9: reading a field and writing the value read back succeeds, and
    for a byte or an int32 field it leaves the memory as it was; for a
    bool field it does so exactly when the stored byte is 0x00 or 0x80:
    any other stored byte is replaced by 0x00. *)
Theorem read_then_write_back base_address field_name fi raw self w h :
  pm self = Some h ->
  dict_get OFFSETS field_name = Ok fi ->
  type fi = "byte" \/ type fi = "bool" \/ type fi = "int32" ->
  load_bytes (memory w) (base_address + offset fi) (field_width (type fi)) = Some raw ->
  Forall (fun b => 0 <= b < 256) raw ->
  exists v w1 w2,
    read_struct_field OFFSETS base_address field_name (self, w) = (Ret v, (self, w1))
    /\ write_struct_field OFFSETS base_address field_name v (self, w1)
       = (Ret tt, (self, w2))
    /\ (type fi <> "bool" -> memory w2 = memory w)
    /\ (type fi = "bool" ->
        (memory w2 = memory w <-> raw = [0x00] \/ raw = [0x80])
        /\ (raw <> [0x80] ->
            memory w2 = <[base_address + offset fi := 0x00]> (memory w))).
Proof.
  intros Hpm Hget Hty Hload Hraw.
  unfold read_struct_field, write_struct_field, bind.
  rewrite (ensure_attached_ok _ _ _ Hpm), Hget. cbn [lift ret].
  set (address := base_address + offset fi) in *.
  assert (Hsingle : type fi <> "int32" ->
            exists b, raw = [b] /\ memory w !! address = Some b /\ 0 <= b < 256).
  { intros Hne. unfold field_width in Hload. rewrite bool_decide_false in Hload by done.
    apply load_bytes_spec in Hload as [Hlen Hbytes].
    destruct raw as [|b [|b' raw]]; try discriminate Hlen.
    exists b. split; [done|]. split.
    - specialize (Hbytes O b eq_refl). by rewrite Z.add_0_r in Hbytes.
    - by apply Forall_cons in Hraw as [? _]. }
  destruct Hty as [Hty|[Hty|Hty]].
  - destruct Hsingle as (b & -> & Hb & Hrange); [by rewrite Hty|].
    rewrite Hty. simpl. rewrite (read_uchar_ok _ _ _ _ Hb). simpl.
    do 3 eexists. split; [reflexivity|].
    rewrite (ensure_attached_ok _ _ _ Hpm). simpl.
    rewrite write_uchar_ok by (simpl; eauto).
    split; [reflexivity|]. simpl.
    split; [|intros Hx; discriminate Hx]. intros _.
    rewrite Z.mod_small by lia. by apply insert_id.
  - destruct Hsingle as (b & -> & Hb & Hrange); [by rewrite Hty|].
    rewrite Hty. simpl. rewrite (read_uchar_ok _ _ _ _ Hb). simpl.
    do 3 eexists. split; [reflexivity|].
    rewrite (ensure_attached_ok _ _ _ Hpm). simpl.
    rewrite write_uchar_ok by (simpl; eauto).
    split; [reflexivity|]. simpl.
    split; [done|]. intros _. split.
    + split.
      * intros Heq. assert (Hat : memory w !! address
          = Some ((if bool_decide (b = 128) then 128 else 0) `mod` 256)).
        { rewrite <- Heq. apply lookup_insert_eq. }
        rewrite Hb in Hat. injection Hat as Hat.
        case_bool_decide; [right|left]; f_equal; [done|].
        by rewrite Hat.
      * intros [[= ->]|[= ->]]; simpl; by apply insert_id.
    + intros Hne. rewrite bool_decide_false; [done|]. intros ->. by apply Hne.
  - rewrite Hty. simpl.
    unfold field_width in Hload. rewrite bool_decide_true in Hload by done.
    rewrite (read_bytes_ok _ _ _ _ _ Hload). simpl.
    assert (Hlen : length raw = 4%nat).
    { apply load_bytes_spec in Hload as [Hlen _]. exact Hlen. }
    do 3 eexists. split; [reflexivity|].
    rewrite (ensure_attached_ok _ _ _ Hpm). simpl.
    destruct (to_from_bytes_int32 raw Hlen Hraw) as [_ ->]. simpl.
    rewrite write_bytes_ok by (simpl; rewrite Hlen; eauto).
    split; [reflexivity|]. simpl.
    split; [|intros Hx; discriminate Hx]. intros _.
    apply store_bytes_id. by rewrite Hlen.
Qed.

(** X10: an int32 field is read most significant byte first, in two's
    complement: the four stored bytes b0 b1 b2 b3 give b0*2^24 + b1*2^16 +
    b2*2^8 + b3, less 2^32 when b0 is 0x80 or more, a value of the signed
    32-bit range. *)
Theorem int32_read_big_endian base_address field_name fi b0 b1 b2 b3 self w h :
  pm self = Some h ->
  dict_get OFFSETS field_name = Ok fi ->
  type fi = "int32" ->
  load_bytes (memory w) (base_address + offset fi) 4 = Some [b0; b1; b2; b3] ->
  Forall (fun b => 0 <= b < 256) [b0; b1; b2; b3] ->
  let u := b0 * 16777216 + b1 * 65536 + b2 * 256 + b3 in
  let n := if bool_decide (b0 < 128) then u else u - 4294967296 in
  (read_struct_field OFFSETS base_address field_name (self, w)).1 = Ret (VInt n)
  /\ - 2147483648 <= n <= 2147483647.
Proof.
  intros Hpm Hget Hty Hload Hraw u n.
  apply Forall_cons in Hraw as [H0 Hraw]. apply Forall_cons in Hraw as [H1 Hraw].
  apply Forall_cons in Hraw as [H2 Hraw]. apply Forall_cons in Hraw as [H3 _].
  unfold read_struct_field, bind.
  rewrite (ensure_attached_ok _ _ _ Hpm), Hget. simpl. rewrite Hty. simpl.
  rewrite (read_bytes_ok _ _ _ _ _ Hload). simpl.
  assert (Hn : from_bytes [b0; b1; b2; b3] = n).
  { unfold from_bytes, be_decode. simpl fold_left.
    change (2 ^ (8 * Z.of_nat (length [b0; b1; b2; b3]) - 1)) with 2147483648.
    subst n u. repeat case_bool_decide; lia. }
  rewrite Hn. split; [done|]. subst n u. case_bool_decide; lia.
Qed.

End CodecEdges.

(** ** Operations that only read *)

Definition is_read (a : access) : Prop :=
  match a with
  | ReadAccess _ _ => True
  | WriteAccess _ _ => False
  end.

(** From [w] to [w'] the target is the same and every access that was
    added is a read. *)
Definition reads_only (w w' : machine) : Prop :=
  same_target w w'
  /\ exists added, accesses w' = added ++ accesses w /\ Forall is_read added.

(** An operation that keeps the object as it is and only reads the
    process, whatever its outcome. *)
Definition read_only_op {A} (m : M A) : Prop :=
  forall s o s', m s = (o, s') -> s'.1 = s.1 /\ reads_only s.2 s'.2.

Lemma reads_only_refl w : reads_only w w.
Proof. split; [apply same_target_refl|]. exists []. by split. Qed.

Lemma reads_only_trans w1 w2 w3 :
  reads_only w1 w2 -> reads_only w2 w3 -> reads_only w1 w3.
Proof.
  intros [H12 (l12 & Hl12 & Hr12)] [H23 (l23 & Hl23 & Hr23)]. split.
  - by eapply same_target_trans.
  - exists (l23 ++ l12). split.
    + by rewrite Hl23, Hl12, app_assoc.
    + by apply Forall_app.
Qed.

Lemma reads_only_read w address length :
  reads_only w (record_access (ReadAccess address length) w).
Proof.
  split; [apply same_target_record_access|].
  exists [ReadAccess address length]. split; [done|]. by repeat constructor.
Qed.

Lemma read_only_ret {A} (a : A) : read_only_op (ret a).
Proof. intros s o s' [= <- <-]. split; [done|apply reads_only_refl]. Qed.

Lemma read_only_raise {A} e : read_only_op (@raise A e).
Proof. intros s o s' [= <- <-]. split; [done|apply reads_only_refl]. Qed.

Lemma read_only_lift {A} (r : result A) : read_only_op (lift r).
Proof. destruct r; [apply read_only_ret|apply read_only_raise]. Qed.

Lemma read_only_bind {A B} (m : M A) (k : A -> M B) :
  read_only_op m -> (forall a, read_only_op (k a)) -> read_only_op (bind m k).
Proof.
  intros Hm Hk s o s'. unfold bind.
  destruct (m s) as [[a|e|] s1] eqn:Hms; destruct (Hm _ _ _ Hms) as [H1 H2].
  - intros Hks. destruct (Hk a _ _ _ Hks) as [H3 H4]. split; [congruence|].
    by eapply reads_only_trans.
  - by intros [= <- <-].
  - by intros [= <- <-].
Qed.

Lemma read_only_ensure_attached : read_only_op ensure_attached.
Proof.
  intros [self w] o s'. unfold ensure_attached.
  destruct (pm self); intros [= <- <-]; (split; [done|apply reads_only_refl]).
Qed.

Lemma read_only_read_uchar address : read_only_op (read_uchar address).
Proof.
  intros [self w] o s'. unfold read_uchar.
  destruct (memory w !! address); intros [= <- <-];
    (split; [done|apply reads_only_read]).
Qed.

Lemma read_only_read_bytes address length : read_only_op (read_bytes address length).
Proof.
  intros [self w] o s'. unfold read_bytes.
  destruct (load_bytes _ _ _); intros [= <- <-];
    (split; [done|apply reads_only_read]).
Qed.

Lemma read_only_try_read m : read_only_op m -> read_only_op (try_read m).
Proof.
  intros Hm s o s'. unfold try_read.
  destruct (m s) as [[chunk|e|] s1] eqn:Hms; destruct (Hm _ _ _ Hms) as [H1 H2].
  - by intros [= <- <-].
  - destruct e; by intros [= <- <-].
  - by intros [= <- <-].
Qed.

Section ReadOnly.

Variable STRUCT_SIZE : Z.
Variable PADDING_LENGTH : Z.
Variable PRECEDING_ZEROES : Z.
Variable FAST_SCAN : bool.
Variable FAST_SCAN_START_ADDRESS : Z.
Variable OFFSETS : list (string * field_info).

Lemma read_only_read_struct_field base_address field_name :
  read_only_op (read_struct_field OFFSETS base_address field_name).
Proof.
  unfold read_struct_field.
  apply read_only_bind; [apply read_only_ensure_attached|]. intros _.
  apply read_only_bind; [apply read_only_lift|]. intros fi.
  repeat case_bool_decide.
  - apply read_only_bind; [apply read_only_read_uchar|]. intros b. apply read_only_ret.
  - apply read_only_bind; [apply read_only_read_uchar|]. intros b. apply read_only_ret.
  - apply read_only_bind; [apply read_only_read_bytes|]. intros b. apply read_only_ret.
  - apply read_only_raise.
Qed.

Lemma read_only_read_fields base_address names :
  read_only_op (read_fields OFFSETS base_address names).
Proof.
  induction names as [|name rest IH]; simpl; [apply read_only_ret|].
  apply read_only_bind; [apply read_only_read_struct_field|]. intros v.
  apply read_only_bind; [apply IH|]. intros vs. apply read_only_ret.
Qed.

Lemma read_only_get_character_data base_address :
  read_only_op (get_character_data OFFSETS base_address).
Proof.
  unfold get_character_data.
  apply read_only_bind; [apply read_only_ensure_attached|]. intros _.
  apply read_only_read_fields.
Qed.

Lemma read_only_scan_step h max_address address :
  read_only_op (scan_step STRUCT_SIZE PADDING_LENGTH PRECEDING_ZEROES
                  h max_address address).
Proof.
  unfold scan_step.
  apply read_only_bind.
  { intros [self w] o s' [= <- <-]. split; [done|apply reads_only_refl]. }
  intros [mbi|]; [|apply read_only_ret].
  destruct (_ && _); [|apply read_only_ret].
  apply read_only_bind; [apply read_only_try_read, read_only_read_bytes|].
  intros [chunk|]; [|apply read_only_ret].
  apply read_only_bind; [apply read_only_lift|].
  intros [a|]; apply read_only_ret.
Qed.

Lemma read_only_scan_loop fuel h max_address : forall address,
  read_only_op (scan_loop STRUCT_SIZE PADDING_LENGTH PRECEDING_ZEROES
                  fuel h max_address address).
Proof.
  induction fuel as [|fuel IH]; intros address; simpl.
  - intros s o s' [= <- <-]. split; [done|apply reads_only_refl].
  - case_bool_decide; [|apply read_only_ret].
    apply read_only_bind; [apply read_only_scan_step|].
    intros [address'|found]; [apply IH|apply read_only_ret].
Qed.

Lemma read_only_find_first fuel :
  read_only_op (find_first_character_address STRUCT_SIZE PADDING_LENGTH
                  PRECEDING_ZEROES FAST_SCAN FAST_SCAN_START_ADDRESS fuel).
Proof.
  unfold find_first_character_address.
  apply read_only_bind; [apply read_only_ensure_attached|]. intros _.
  apply read_only_bind.
  { intros [self w] o s'. unfold process_handle.
    destruct (pm self); intros [= <- <-]; (split; [done|apply reads_only_refl]). }
  intros h. apply read_only_bind.
  { unfold get_memory_bounds.
    apply read_only_bind; [apply read_only_ensure_attached|]. intros _.
    intros [self w] o s' [= <- <-]. split; [done|apply reads_only_refl]. }
  intros [lo [max_address|]]; simpl; [apply read_only_scan_loop|apply read_only_raise].
Qed.

Lemma read_only_collect_addresses first_address indices : forall addresses,
  read_only_op (collect_addresses STRUCT_SIZE first_address indices addresses).
Proof.
  induction indices as [|i rest IH]; intros addresses; simpl; [apply read_only_ret|].
  apply read_only_bind; [apply read_only_read_uchar|]. intros b.
  destruct (_ || _); [apply IH|apply read_only_ret].
Qed.

Lemma read_only_get_character_addresses fuel max_characters :
  read_only_op (get_character_addresses STRUCT_SIZE PADDING_LENGTH PRECEDING_ZEROES
                  FAST_SCAN FAST_SCAN_START_ADDRESS fuel max_characters).
Proof.
  unfold get_character_addresses.
  apply read_only_bind; [apply read_only_ensure_attached|]. intros _.
  apply read_only_bind; [apply read_only_find_first|].
  intros [first_address|]; [apply read_only_collect_addresses|apply read_only_ret].
Qed.

Lemma read_only_read_characters addresses :
  read_only_op (read_characters OFFSETS addresses).
Proof.
  induction addresses as [|address rest IH]; simpl; [apply read_only_ret|].
  apply read_only_bind; [apply read_only_get_character_data|]. intros d.
  apply read_only_bind; [apply IH|]. intros ds. apply read_only_ret.
Qed.

(** X11: a scan never writes.  Whatever [get_all_character_data] returns
    or raises, and however far it got, the object keeps its handle, the
    memory of the process is what it was, and every access made was a
    read; the same holds for the run of the scanner thread around it. *)
Theorem scan_reads_only (fuel : nat) (max_characters : Z) (s : state) :
  let data := get_all_character_data STRUCT_SIZE PADDING_LENGTH PRECEDING_ZEROES
                FAST_SCAN FAST_SCAN_START_ADDRESS OFFSETS fuel max_characters s in
  let worker := run STRUCT_SIZE PADDING_LENGTH PRECEDING_ZEROES
                  FAST_SCAN FAST_SCAN_START_ADDRESS OFFSETS fuel max_characters s in
  data.2.1 = s.1
  /\ memory data.2.2 = memory s.2
  /\ (exists added, accesses data.2.2 = added ++ accesses s.2 /\ Forall is_read added)
  /\ final worker = data.2.
Proof.
  intros data worker.
  assert (Hop : read_only_op
            (get_all_character_data STRUCT_SIZE PADDING_LENGTH PRECEDING_ZEROES
               FAST_SCAN FAST_SCAN_START_ADDRESS OFFSETS fuel max_characters)).
  { unfold get_all_character_data.
    apply read_only_bind; [apply read_only_ensure_attached|]. intros _.
    apply read_only_bind; [apply read_only_get_character_addresses|].
    intros addresses. apply read_only_read_characters. }
  subst worker. unfold run. fold data.
  destruct data as [o s'] eqn:Hdata.
  destruct (Hop _ _ _ Hdata) as [Hself [(_ & _ & _ & _ & Hmem) Hreads]].
  simpl. split; [done|]. split; [done|]. split; [done|].
  by destruct o.
Qed.

End ReadOnly.

(** ** The record enumerator, continued *)

Lemma seqZ_split m n (pre post : list Z) :
  seqZ m n = pre ++ post ->
  pre = seqZ m (Z.of_nat (length pre))
  /\ post = seqZ (m + Z.of_nat (length pre)) (n - Z.of_nat (length pre))
  /\ Z.of_nat (length pre) <= Z.max 0 n.
Proof.
  intros Heq.
  assert (Hlen : Z.to_nat n = (length pre + length post)%nat).
  { rewrite <- length_seqZ with (m := m), Heq. apply length_app. }
  assert (Hle : Z.of_nat (length pre) <= Z.max 0 n) by lia.
  destruct (decide (length pre = O)) as [Hz|Hnz].
  - destruct pre; [|done]. simpl in *. rewrite Z.add_0_r, Z.sub_0_r. by split.
  - replace n with (Z.of_nat (length pre) + (n - Z.of_nat (length pre))) in Heq by lia.
    rewrite seqZ_app in Heq by lia.
    apply app_inj_1 in Heq as [H1 H2]; [|by rewrite length_seqZ, Nat2Z.id].
    by split.
Qed.

Section Enumerator.

Variable STRUCT_SIZE : Z.
Variable PADDING_LENGTH : Z.
Variable PRECEDING_ZEROES : Z.
Variable FAST_SCAN : bool.
Variable FAST_SCAN_START_ADDRESS : Z.

Local Abbreviation find_first :=
  (find_first_character_address STRUCT_SIZE PADDING_LENGTH PRECEDING_ZEROES
     FAST_SCAN FAST_SCAN_START_ADDRESS).
Local Abbreviation character_addresses :=
  (get_character_addresses STRUCT_SIZE PADDING_LENGTH PRECEDING_ZEROES
     FAST_SCAN FAST_SCAN_START_ADDRESS).
Local Abbreviation flag := (flag_byte STRUCT_SIZE).
Local Abbreviation address_of := (record_address STRUCT_SIZE).

(** Where the loop of the enumerator stops when it returns: at the end of
    the indices, or at the first flag byte that is not valid. *)
Lemma collect_addresses_result first_address indices :
  forall addresses self w l s',
    collect_addresses STRUCT_SIZE first_address indices addresses (self, w) = (Ret l, s') ->
    exists pre post,
      indices = pre ++ post
      /\ l = addresses ++ (address_of first_address <$> pre)
      /\ (forall i, i ∈ pre ->
            exists b, flag w first_address i = Some b /\ valid_flag b)
      /\ (post = []
          \/ exists i post' b, post = i :: post'
               /\ flag w first_address i = Some b /\ ~ valid_flag b).
Proof.
  induction indices as [|i rest IH]; intros addresses self w l s'; simpl.
  - intros [= <- <-]. exists [], []. split; [done|]. split; [by rewrite app_nil_r|].
    split; [|by left]. intros i Hi. by apply elem_of_nil in Hi.
  - unfold bind, read_uchar.
    destruct (memory w !! (first_address + i * STRUCT_SIZE)) as [b|] eqn:Hb; [|done].
    destruct (bool_decide (b = 0) || bool_decide (b = 128)) eqn:Hvalid.
    + intros Hrest. apply IH in Hrest as (pre & post & -> & -> & Hpre & Hpost).
      exists (i :: pre), post. split; [done|]. split; [by rewrite <- app_assoc|].
      split; [|done]. intros j [->|Hj]%elem_of_cons; [|by apply Hpre].
      exists b. split; [done|].
      apply orb_true_iff in Hvalid as [?%bool_decide_eq_true|?%bool_decide_eq_true];
        [by left|by right].
    + intros [= <- <-]. exists [], (i :: rest). split; [done|].
      split; [by rewrite app_nil_r|]. split.
      * intros j Hj. by apply elem_of_nil in Hj.
      * right. exists i, rest, b. split; [done|]. split; [done|].
        apply orb_false_iff in Hvalid as [H0%bool_decide_eq_false H1%bool_decide_eq_false].
        by intros [?|?].
Qed.

Lemma collect_addresses_unreadable first_address pre k post :
  forall addresses self w,
    (forall i, i ∈ pre ->
       exists b, flag w first_address i = Some b /\ valid_flag b) ->
    flag w first_address k = None ->
    (collect_addresses STRUCT_SIZE first_address (pre ++ k :: post) addresses (self, w)).1
    = Raise (MemoryReadError (address_of first_address k) 1).
Proof.
  induction pre as [|i rest IH]; intros addresses self w Hvalid Hnone; simpl.
  - unfold bind, read_uchar. unfold flag_byte in Hnone. by rewrite Hnone.
  - destruct (Hvalid i) as (b & Hb & Hflag); [by left|].
    unfold bind. rewrite (read_uchar_ok _ _ _ _ Hb).
    assert (Hok : bool_decide (b = 0) || bool_decide (b = 128) = true).
    { destruct Hflag as [-> | ->]; done. }
    rewrite Hok. apply IH; [|done].
    intros j Hj. apply Hvalid. by right.
Qed.

(** X12: what the enumerator returns is always an initial stretch of the
    table: no list without a first address, and otherwise the addresses of
    candidates 0 to [k - 1] for some [k] up to [max_characters], each with
    a valid flag byte in memory, where [k] is [max_characters] or the
    first candidate whose flag byte is not valid. *)
Theorem get_character_addresses_result fuel max_characters s l s' :
  character_addresses fuel max_characters s = (Ret l, s') ->
  (exists s1, find_first fuel s = (Ret None, s1) /\ l = [])
  \/ (exists first_address s1 k,
        find_first fuel s = (Ret (Some first_address), s1)
        /\ 0 <= k <= Z.max 0 max_characters
        /\ l = address_of first_address <$> seqZ 0 k
        /\ (forall i, 0 <= i < k ->
              exists b, flag s.2 first_address i = Some b /\ valid_flag b)
        /\ (k = Z.max 0 max_characters
            \/ exists b, flag s.2 first_address k = Some b /\ ~ valid_flag b)).
Proof.
  destruct s as [self w]. intros Hrun.
  destruct (find_first fuel (self, w)) as [[r|e|] s1] eqn:Hfind.
  - rewrite (get_character_addresses_run _ _ _ _ _ _ _ _ _ _ _ Hfind) in Hrun.
    destruct r as [first_address|]; [|left; injection Hrun as <- <-; eauto].
    right. destruct s1 as [self1 w1].
    destruct (find_first_same_target _ _ _ _ _ _ _ _ _ _ Hfind) as [_ Hw].
    simpl in Hw.
    apply collect_addresses_result in Hrun as (pre & post & Hsplit & -> & Hpre & Hpost).
    unfold Py.range in Hsplit. rewrite Z.sub_0_r in Hsplit.
    apply seqZ_split in Hsplit as (Hpre_eq & Hpost_eq & Hle).
    exists first_address, (self1, w1), (Z.of_nat (length pre)).
    split; [done|]. split; [lia|]. split; [by rewrite <- Hpre_eq|]. split.
    + intros i Hi. rewrite <- (flag_byte_same_target _ _ _ _ _ Hw).
      apply Hpre. rewrite Hpre_eq. apply elem_of_seqZ. lia.
    + destruct Hpost as [->|(i & post' & b & -> & Hb & Hinvalid)].
      * left. symmetry in Hpost_eq.
        assert (Hlen : length (seqZ (0 + Z.of_nat (length pre))
                          (max_characters - Z.of_nat (length pre))) = O)
          by (by rewrite Hpost_eq).
        rewrite length_seqZ in Hlen. lia.
      * right. exists b. rewrite <- (flag_byte_same_target _ _ _ _ _ Hw).
        split; [|done].
        assert (Hi : seqZ (0 + Z.of_nat (length pre))
                       (max_characters - Z.of_nat (length pre)) !! O = Some i)
          by (by rewrite <- Hpost_eq).
        apply lookup_seqZ in Hi as [-> _].
        by replace (0 + Z.of_nat (length pre) + Z.of_nat 0)
             with (Z.of_nat (length pre)) in Hb by lia.
  - exfalso. unfold get_character_addresses, bind in Hrun.
    destruct (pm self) as [h|] eqn:Hpm.
    + rewrite (ensure_attached_ok _ _ _ Hpm) in Hrun. by rewrite Hfind in Hrun.
    + by rewrite (ensure_attached_none _ _ Hpm) in Hrun.
  - exfalso. unfold get_character_addresses, bind in Hrun.
    destruct (pm self) as [h|] eqn:Hpm.
    + rewrite (ensure_attached_ok _ _ _ Hpm) in Hrun. by rewrite Hfind in Hrun.
    + by rewrite (ensure_attached_none _ _ Hpm) in Hrun.
Qed.

(** X13: a flag byte that cannot be read is not the end of the table: when
    the flag bytes of candidates 0 to [k - 1] are valid and that of
    candidate [k], [k < max_characters], is unreadable, the enumerator
    raises MemoryReadError for that address and returns no list. *)
Theorem unreadable_flag_raises fuel max_characters s first_address s1 k :
  find_first fuel s = (Ret (Some first_address), s1) ->
  0 <= k < max_characters ->
  (forall i, 0 <= i < k ->
     exists b, flag s.2 first_address i = Some b /\ valid_flag b) ->
  flag s.2 first_address k = None ->
  (character_addresses fuel max_characters s).1
  = Raise (MemoryReadError (address_of first_address k) 1).
Proof.
  destruct s as [self w]. destruct s1 as [self1 w1]. intros Hfind Hk Hvalid Hnone.
  rewrite (get_character_addresses_run _ _ _ _ _ _ _ _ _ _ _ Hfind).
  destruct (find_first_same_target _ _ _ _ _ _ _ _ _ _ Hfind) as [_ Hw]. simpl in *.
  unfold Py.range.
  replace (max_characters - 0) with (k + (1 + (max_characters - k - 1))) by lia.
  rewrite seqZ_app by lia. rewrite (seqZ_app _ 1) by lia.
  change (seqZ (0 + k) 1) with [0 + k]. simpl app. rewrite Z.add_0_l.
  apply collect_addresses_unreadable.
  - intros i Hi%elem_of_seqZ. rewrite (flag_byte_same_target _ _ _ _ _ Hw).
    apply Hvalid. lia.
  - by rewrite (flag_byte_same_target _ _ _ _ _ Hw).
Qed.

(** *** What a located address points at *)

(** A region size is a [c_size_t]: it is not negative. *)
Definition sizes_nonneg (w : machine) : Prop :=
  forall address mbi, query w address = Some mbi -> 0 <= RegionSize mbi.

Lemma sizes_nonneg_same_target w w' :
  same_target w w' -> sizes_nonneg w -> sizes_nonneg w'.
Proof. intros (_ & _ & _ & Hq & _) H a mbi. rewrite Hq. apply H. Qed.

Lemma advance_nondecreasing w max_address address :
  sizes_nonneg w -> address <= advance address (region_at w max_address address).
Proof.
  intros Hpos. unfold region_at.
  destruct (query w address) as [mbi|] eqn:Hq; simpl; [|lia].
  specialize (Hpos _ _ Hq).
  destruct (qualifies mbi); [destruct (load_bytes _ _ _)|]; simpl; lia.
Qed.

Lemma region_at_readable w max_address base size chunk :
  region_at w max_address base = Readable size chunk ->
  base < max_address ->
  (forall (k : nat) b, chunk !! k = Some b -> memory w !! (base + Z.of_nat k) = Some b)
  /\ Z.of_nat (length chunk) <= max_address - base.
Proof.
  unfold region_at. destruct (query w base) as [mbi|]; [|done].
  destruct (qualifies mbi); [|done].
  destruct (load_bytes _ _ _) as [bytes|] eqn:Hload; [|done].
  intros [= <- <-] Hlt. apply load_bytes_spec in Hload as [Hlen Hbytes].
  split; [done|]. rewrite Hlen. lia.
Qed.

Hypothesis PRECEDING_ZEROES_nonneg : 0 <= PRECEDING_ZEROES.
Hypothesis PADDING_LENGTH_nonneg : 0 <= PADDING_LENGTH.
Hypothesis PADDING_LENGTH_fits : PADDING_LENGTH < STRUCT_SIZE.

(** An address the loop returns lies in a readable region it met. *)
Lemma scan_loop_found h max_address fuel : forall address self w a s',
  sizes_nonneg w ->
  scan_loop STRUCT_SIZE PADDING_LENGTH PRECEDING_ZEROES fuel h max_address address
    (self, w) = (Ret (Some a), s') ->
  exists base size chunk i,
    address <= base < max_address
    /\ region_at w max_address base = Readable size chunk
    /\ a = base + i
    /\ first_table_offset STRUCT_SIZE PADDING_LENGTH PRECEDING_ZEROES chunk i.
Proof.
  induction fuel as [|fuel IH]; intros address self w a s' Hpos; simpl; [done|].
  case_bool_decide as Hlt; [|done]. unfold bind.
  destruct (scan_step_run STRUCT_SIZE PADDING_LENGTH PRECEDING_ZEROES
              h max_address address self w) as (w' & Hw' & ->).
  pose proof (advance_nondecreasing w max_address address Hpos) as Hadv.
  assert (Hnext : forall next,
            address <= next ->
            scan_loop STRUCT_SIZE PADDING_LENGTH PRECEDING_ZEROES fuel h max_address
              next (self, w') = (Ret (Some a), s') ->
            exists base size chunk i,
              address <= base < max_address
              /\ region_at w max_address base = Readable size chunk
              /\ a = base + i
              /\ first_table_offset STRUCT_SIZE PADDING_LENGTH PRECEDING_ZEROES chunk i).
  { intros next Hle Hloop.
    apply IH in Hloop as (base & size & chunk & i & Hb & Hr & Ha & Hf);
      [|by eapply sizes_nonneg_same_target].
    rewrite (region_at_same_target _ _ _ _ Hw') in Hr.
    exists base, size, chunk, i. split; [lia|]. by split. }
  destruct (region_at w max_address address) as [|size|size|size chunk] eqn:Hr;
    try (by apply Hnext).
  destruct (search_chunk_first STRUCT_SIZE PADDING_LENGTH PRECEDING_ZEROES
              PRECEDING_ZEROES_nonneg PADDING_LENGTH_nonneg PADDING_LENGTH_fits
              chunk address) as (r0 & -> & Hres).
  destruct r0 as [a0|]; [|by apply Hnext].
  intros [= <- <-]. destruct Hres as (i & -> & Hfirst).
  exists address, size, chunk, i. split; [lia|]. by split.
Qed.

Lemma located_table self w h fuel a s' :
  pm self = Some h ->
  sizes_nonneg w ->
  find_first fuel (self, w) = (Ret (Some a), s') ->
  start_address FAST_SCAN FAST_SCAN_START_ADDRESS + PRECEDING_ZEROES <= a
  /\ a + 4 * STRUCT_SIZE <= lpMaximumApplicationAddress w
  /\ (forall k, a - PRECEDING_ZEROES <= k < a -> memory w !! k = Some 0)
  /\ (forall j, 0 <= j < 4 ->
        memory w !! (a + j * STRUCT_SIZE) = Some 0x80
        /\ forall k, a + j * STRUCT_SIZE + STRUCT_SIZE - PADDING_LENGTH <= k
                     < a + j * STRUCT_SIZE + STRUCT_SIZE ->
             memory w !! k = Some 0).
Proof.
  intros Hpm Hpos Hfind.
  destruct (decide (lpMaximumApplicationAddress w = 0)) as [Hmax|Hmax].
  { by rewrite (find_first_null_bound _ _ _ _ _ _ _ _ _ Hpm Hmax) in Hfind. }
  rewrite (find_first_run _ _ _ _ _ _ _ _ _ Hpm Hmax) in Hfind.
  apply scan_loop_found in Hfind as (base & size & chunk & i & Hb & Hr & -> & Hfirst);
    [|done].
  destruct (region_at_readable _ _ _ _ _ Hr) as [Hmem Hlen]; [lia|].
  destruct Hfirst as (Hc & [Hzero Hsig] & _).
  destruct (considered_bounds _ _ _ PRECEDING_ZEROES_nonneg PADDING_LENGTH_nonneg
              PADDING_LENGTH_fits _ _ Hc) as (Hlo & Hhi & Hwin).
  unfold considered in Hc.
  assert (Hat : forall k, 0 <= k -> forall b,
            chunk !! Z.to_nat k = Some b -> memory w !! (base + k) = Some b).
  { intros k Hk b Hkb. apply Hmem in Hkb. by rewrite Z2Nat.id in Hkb. }
  split; [lia|]. split; [lia|]. split.
  - intros k Hk. replace k with (base + (k - base)) by lia.
    apply Hat; [lia|]. apply Hzero. lia.
  - intros j Hj. destruct (Hsig j Hj) as [Hflag Hpad].
    destruct (Hwin j Hj) as [Hj0 Hj1]. split.
    + replace (base + i + j * STRUCT_SIZE) with (base + (i + j * STRUCT_SIZE)) by lia.
      by apply Hat.
    + intros k Hk. replace k with (base + (k - base)) by lia.
      apply Hat; [lia|]. apply Hpad. lia.
Qed.

(** X14: an address the locator returns is a table start in the memory of
    the process: it lies at least [PRECEDING_ZEROES] bytes above the start
    address of the scan, the four records end at or below the maximum
    application address, the [PRECEDING_ZEROES] bytes before it are zero,
    and each of the four records has the flag byte 0x80 and
    [PADDING_LENGTH] zero bytes at its end. *)
Theorem located_table_in_memory self w h fuel a s' :
  pm self = Some h ->
  sizes_nonneg w ->
  find_first fuel (self, w) = (Ret (Some a), s') ->
  start_address FAST_SCAN FAST_SCAN_START_ADDRESS + PRECEDING_ZEROES <= a
  /\ a + 4 * STRUCT_SIZE <= lpMaximumApplicationAddress w
  /\ (forall k, a - PRECEDING_ZEROES <= k < a -> memory w !! k = Some 0)
  /\ (forall j, 0 <= j < 4 ->
        memory w !! (a + j * STRUCT_SIZE) = Some 0x80
        /\ forall k, a + j * STRUCT_SIZE + STRUCT_SIZE - PADDING_LENGTH <= k
                     < a + j * STRUCT_SIZE + STRUCT_SIZE ->
             memory w !! k = Some 0).
Proof. apply located_table. Qed.

(** X15: the locator and the enumerator agree on the first four records:
    once the locator has found a table, the enumerator asked for at most
    four characters returns exactly that many addresses, and asked for
    more it returns, if it returns, a list that begins with the four
    located records. *)
Theorem located_records_enumerated self w h fuel first_address s1 max_characters :
  pm self = Some h ->
  sizes_nonneg w ->
  find_first fuel (self, w) = (Ret (Some first_address), s1) ->
  (0 <= max_characters <= 4 ->
     (character_addresses fuel max_characters (self, w)).1
     = Ret (address_of first_address <$> seqZ 0 max_characters))
  /\ (forall l, 4 <= max_characters ->
        (character_addresses fuel max_characters (self, w)).1 = Ret l ->
        take 4 l = address_of first_address <$> seqZ 0 4).
Proof.
  intros Hpm Hpos Hfind.
  destruct (located_table self w h fuel first_address s1 Hpm Hpos Hfind)
    as (_ & _ & _ & Hrecords).
  destruct s1 as [self1 w1].
  destruct (find_first_same_target _ _ _ _ _ _ _ _ _ _ Hfind) as [_ Hw]. simpl in Hw.
  assert (Hflags : forall j, 0 <= j < 4 ->
            exists b, flag w1 first_address j = Some b /\ valid_flag b).
  { intros j Hj. exists 0x80. rewrite (flag_byte_same_target _ _ _ _ _ Hw).
    split; [apply (Hrecords j Hj)|by right]. }
  rewrite (get_character_addresses_run _ _ _ _ _ _ _ _ _ _ _ Hfind).
  unfold Py.range. rewrite Z.sub_0_r. split.
  - intros Hmax.
    destruct (collect_addresses_all STRUCT_SIZE first_address
                (seqZ 0 max_characters) [] self1 w1) as (w' & _ & ->); [|done].
    intros i Hi%elem_of_seqZ. apply Hflags. lia.
  - intros l Hmax Hl.
    destruct (collect_addresses _ _ _ _ _) as [o s2] eqn:Hrun. simpl in Hl. subst o.
    apply collect_addresses_result in Hrun as (pre & post & Hsplit & -> & _ & Hpost).
    apply seqZ_split in Hsplit as (Hpre_eq & Hpost_eq & Hle).
    assert (Hk : 4 <= Z.of_nat (length pre)).
    { destruct (decide (4 <= Z.of_nat (length pre))) as [|Hlt]; [done|exfalso].
      destruct Hpost as [->|(i & post' & b & -> & Hb & Hinvalid)].
      - assert (Hlen : length (seqZ (0 + Z.of_nat (length pre))
                          (max_characters - Z.of_nat (length pre))) = O)
          by (by rewrite <- Hpost_eq).
        rewrite length_seqZ in Hlen. lia.
      - assert (Hi : seqZ (0 + Z.of_nat (length pre))
                       (max_characters - Z.of_nat (length pre)) !! O = Some i)
          by (by rewrite <- Hpost_eq).
        apply lookup_seqZ in Hi as [-> _].
        destruct (Hflags (0 + Z.of_nat (length pre) + Z.of_nat 0)) as (b' & Hb' & Hvalid);
          [lia|].
        rewrite Hb in Hb'. injection Hb' as <-. by apply Hinvalid. }
    rewrite app_nil_l, <- fmap_take. f_equal. rewrite Hpre_eq.
    replace (Z.of_nat (length pre)) with (4 + (Z.of_nat (length pre) - 4)) by lia.
    rewrite seqZ_app by lia. by apply take_app_length'.
Qed.

(** *** A process without a region to scan *)

Lemma scan_step_skips h max_address address self w :
  match query w address with
  | Some mbi => qualifies mbi = false
  | None => True
  end ->
  scan_step STRUCT_SIZE PADDING_LENGTH PRECEDING_ZEROES h max_address address (self, w)
  = (Ret (Continue (advance address (region_at w max_address address))), (self, w)).
Proof.
  unfold scan_step, bind, VirtualQueryEx, region_at.
  destruct (query w address) as [mbi|]; [|done].
  fold (qualifies mbi). by intros ->.
Qed.

(** X16: when no region of the process qualifies (every query fails, or
    reports a region that is not committed or not mapped read-write), the
    locator returns "not found" without reading one byte of the process:
    the machine, with its record of accesses, is what it was. *)
Theorem no_region_no_read self w h :
  pm self = Some h ->
  lpMaximumApplicationAddress w <> 0 ->
  (forall address,
     match query w address with
     | Some mbi => qualifies mbi = false /\ 0 < RegionSize mbi
     | None => True
     end) ->
  exists turns, forall fuel, (turns <= fuel)%nat ->
    find_first fuel (self, w) = (Ret None, (self, w)).
Proof.
  intros Hpm Hmax Hnone.
  assert (Hloop : forall (n : nat) fuel address,
            lpMaximumApplicationAddress w - address <= Z.of_nat n -> (n < fuel)%nat ->
            scan_loop STRUCT_SIZE PADDING_LENGTH PRECEDING_ZEROES fuel h
              (lpMaximumApplicationAddress w) address (self, w)
            = (Ret None, (self, w))).
  { induction n as [|n IH]; intros [|fuel] address Hn Hf; try lia; simpl.
    - by rewrite bool_decide_false by lia.
    - case_bool_decide as Hlt; [|done]. unfold bind.
      rewrite scan_step_skips.
      2:{ specialize (Hnone address). destruct (query w address); [|done]. apply Hnone. }
      apply IH; [|lia].
      assert (address < advance address
                (region_at w (lpMaximumApplicationAddress w) address)); [|lia].
      apply advance_increases. intros a mbi Ha.
      specialize (Hnone a). rewrite Ha in Hnone. apply Hnone. }
  exists (S (Z.to_nat (lpMaximumApplicationAddress w
                       - start_address FAST_SCAN FAST_SCAN_START_ADDRESS))).
  intros fuel Hf. rewrite (find_first_run _ _ _ _ _ _ _ _ _ Hpm Hmax).
  eapply Hloop; [|exact Hf]. lia.
Qed.

End Enumerator.

(** ** Records of characters *)

Section Characters.

Variable STRUCT_SIZE : Z.
Variable PADDING_LENGTH : Z.
Variable PRECEDING_ZEROES : Z.
Variable FAST_SCAN : bool.
Variable FAST_SCAN_START_ADDRESS : Z.
Variable OFFSETS : list (string * field_info).

Local Abbreviation character_addresses :=
  (get_character_addresses STRUCT_SIZE PADDING_LENGTH PRECEDING_ZEROES
     FAST_SCAN FAST_SCAN_START_ADDRESS).
Local Abbreviation all_character_data :=
  (get_all_character_data STRUCT_SIZE PADDING_LENGTH PRECEDING_ZEROES
     FAST_SCAN FAST_SCAN_START_ADDRESS OFFSETS).

(** What a read returns depends on the handle and the memory only. *)
Lemma read_struct_field_same_target base_address field_name self w w' :
  same_target w w' ->
  (read_struct_field OFFSETS base_address field_name (self, w')).1
  = (read_struct_field OFFSETS base_address field_name (self, w)).1.
Proof.
  intros (_ & _ & _ & _ & Hmem). unfold read_struct_field, bind.
  destruct (pm self) as [h|] eqn:Hpm;
    [|by rewrite !(ensure_attached_none _ _ Hpm)].
  rewrite !(ensure_attached_ok _ _ _ Hpm).
  destruct (dict_get OFFSETS field_name) as [fi|e]; [|done]. simpl.
  repeat case_bool_decide; unfold bind, read_uchar, read_bytes; try rewrite Hmem;
    try done.
  - by destruct (memory w !! _).
  - by destruct (memory w !! _).
  - by destruct (load_bytes _ _ _).
Qed.

Lemma read_fields_result base_address names : forall self w d s',
  read_fields OFFSETS base_address names (self, w) = (Ret d, s') ->
  d.*1 = names
  /\ forall name v, (name, v) ∈ d ->
       (read_struct_field OFFSETS base_address name (self, w)).1 = Ret v.
Proof.
  induction names as [|name rest IH]; intros self w d s'; simpl.
  - intros [= <- <-]. split; [done|]. intros name v Hin. by apply elem_of_nil in Hin.
  - unfold bind.
    destruct (read_struct_field OFFSETS base_address name (self, w))
      as [[v|e|] [self1 w1]] eqn:Hread; [|done|done].
    destruct (read_only_read_struct_field OFFSETS base_address name _ _ _ Hread)
      as [Hself [Hw _]]. simpl in Hself, Hw. subst self1.
    destruct (read_fields OFFSETS base_address rest (self, w1))
      as [[vs|e|] s2] eqn:Hrest; [|done|done].
    intros [= <- <-]. apply IH in Hrest as [Hnames Hvalues].
    split; [by rewrite fmap_cons, Hnames|].
    intros name' v' [[= -> ->]|Hin]%elem_of_cons.
    + by rewrite Hread.
    + rewrite <- (read_struct_field_same_target _ _ _ _ _ Hw). by apply Hvalues.
Qed.

(** X17: the data of a character, when it is returned, has one entry per
    field declared in [OFFSETS], in the order of the table, and each value
    is what [read_struct_field] gives for that field: no field is left out
    and none is added. *)
Theorem get_character_data_fields base_address s d s' :
  get_character_data OFFSETS base_address s = (Ret d, s') ->
  d.*1 = OFFSETS.*1
  /\ forall name v, (name, v) ∈ d ->
       (read_struct_field OFFSETS base_address name s).1 = Ret v.
Proof.
  destruct s as [self w]. unfold get_character_data, bind.
  destruct (pm self) as [h|] eqn:Hpm;
    [|by rewrite (ensure_attached_none _ _ Hpm)].
  rewrite (ensure_attached_ok _ _ _ Hpm). apply read_fields_result.
Qed.

(** One field of an unsupported type is enough for no record to be read. *)
Lemma read_fields_unsupported base_address names name fi :
  name ∈ names ->
  dict_get OFFSETS name = Ok fi ->
  type fi <> "byte" -> type fi <> "bool" -> type fi <> "int32" ->
  forall s d s', read_fields OFFSETS base_address names s <> (Ret d, s').
Proof.
  intros Hin Hget H1 H2 H3.
  induction names as [|name' rest IH]; [by apply elem_of_nil in Hin|].
  intros [self w] d s'. simpl. unfold bind.
  destruct (read_struct_field OFFSETS base_address name' (self, w))
    as [[v|e|] s1] eqn:Hread; [|done|done].
  apply elem_of_cons in Hin as [<-|Hin].
  - exfalso. unfold read_struct_field, bind in Hread.
    destruct (pm self) as [h|] eqn:Hpm.
    + rewrite (ensure_attached_ok _ _ _ Hpm), Hget in Hread. simpl in Hread.
      by rewrite !bool_decide_false in Hread by done.
    + by rewrite (ensure_attached_none _ _ Hpm) in Hread.
  - destruct (read_fields OFFSETS base_address rest s1) as [[vs|e|] s2] eqn:Hrest;
      [|done|done].
    exfalso. by apply (IH Hin s1 vs s2).
Qed.

(** X18: the field table is all or nothing: when [OFFSETS] declares one
    field of a type other than byte, bool and int32, [get_character_data]
    returns for no address and no state. *)
Theorem unsupported_descriptor_blocks_records name fi :
  name ∈ OFFSETS.*1 ->
  dict_get OFFSETS name = Ok fi ->
  type fi <> "byte" -> type fi <> "bool" -> type fi <> "int32" ->
  forall base_address s d s',
    get_character_data OFFSETS base_address s <> (Ret d, s').
Proof.
  intros Hin Hget H1 H2 H3 base_address [self w] d s'.
  unfold get_character_data, bind.
  destruct (pm self) as [h|] eqn:Hpm;
    [|by rewrite (ensure_attached_none _ _ Hpm)].
  rewrite (ensure_attached_ok _ _ _ Hpm).
  by eapply read_fields_unsupported.
Qed.

Lemma get_character_data_same_target base_address self w w' :
  same_target w w' ->
  (get_character_data OFFSETS base_address (self, w')).1
  = (get_character_data OFFSETS base_address (self, w)).1.
Proof.
  intros Hw. unfold get_character_data, bind.
  destruct (pm self) as [h|] eqn:Hpm;
    [|by rewrite !(ensure_attached_none _ _ Hpm)].
  rewrite !(ensure_attached_ok _ _ _ Hpm).
  generalize (map fst OFFSETS). intros names. revert w w' Hw.
  induction names as [|name rest IH]; intros w w' Hw; simpl; [done|].
  unfold bind.
  pose proof (read_struct_field_same_target base_address name self w w' Hw) as Hfst.
  destruct (read_struct_field OFFSETS base_address name (self, w'))
    as [o' [self1' w1']] eqn:Hread'.
  destruct (read_struct_field OFFSETS base_address name (self, w))
    as [o [self1 w1]] eqn:Hread.
  simpl in Hfst. subst o'.
  destruct (read_only_read_struct_field OFFSETS _ _ _ _ _ Hread') as [Hs' [Hw1' _]].
  destruct (read_only_read_struct_field OFFSETS _ _ _ _ _ Hread) as [Hs [Hw1 _]].
  simpl in *. subst self1 self1'.
  destruct o as [v|e|]; [|done|done].
  assert (Hww : same_target w1 w1').
  { destruct Hw as (A1 & A2 & A3 & A4 & A5). destruct Hw1 as (B1 & B2 & B3 & B4 & B5).
    destruct Hw1' as (C1 & C2 & C3 & C4 & C5). repeat split; congruence. }
  specialize (IH w1 w1' Hww).
  destruct (read_fields OFFSETS base_address rest (self, w1')) as [o' s2'].
  destruct (read_fields OFFSETS base_address rest (self, w1)) as [o s2].
  simpl in IH. subst o'. by destruct o.
Qed.

Lemma read_characters_result addresses : forall self w data s',
  read_characters OFFSETS addresses (self, w) = (Ret data, s') ->
  Forall2 (fun address d =>
             (get_character_data OFFSETS address (self, w)).1 = Ret d)
    addresses data.
Proof.
  induction addresses as [|address rest IH]; intros self w data s'; simpl.
  - intros [= <- <-]. constructor.
  - unfold bind.
    destruct (get_character_data OFFSETS address (self, w))
      as [[d|e|] [self1 w1]] eqn:Hdata; [|done|done].
    destruct (read_only_get_character_data OFFSETS address _ _ _ Hdata)
      as [Hself [Hw _]]. simpl in Hself, Hw. subst self1.
    destruct (read_characters OFFSETS rest (self, w1)) as [[ds|e|] s2] eqn:Hrest;
      [|done|done].
    intros [= <- <-]. constructor; [by rewrite Hdata|].
    apply IH in Hrest. eapply Forall2_impl; [exact Hrest|].
    intros a d' Hd. by rewrite <- (get_character_data_same_target _ _ _ _ Hw).
Qed.

(** X19: [get_all_character_data] is [get_character_data] over the
    addresses of [get_character_addresses]: when it returns, the
    enumerator has returned a list of addresses, there is one record per
    address, in the same order, and each record is the data of the
    character at its address. *)
Theorem get_all_character_data_records fuel max_characters s data s' :
  all_character_data fuel max_characters s = (Ret data, s') ->
  exists addresses,
    (character_addresses fuel max_characters s).1 = Ret addresses
    /\ length data = length addresses
    /\ Forall2 (fun address d =>
                  (get_character_data OFFSETS address s).1 = Ret d)
         addresses data.
Proof.
  destruct s as [self w]. unfold get_all_character_data, bind.
  destruct (pm self) as [h|] eqn:Hpm;
    [|by rewrite (ensure_attached_none _ _ Hpm)].
  rewrite (ensure_attached_ok _ _ _ Hpm).
  destruct (character_addresses fuel max_characters (self, w))
    as [[addresses|e|] [self1 w1]] eqn:Haddr; [|done|done].
  destruct (read_only_get_character_addresses _ _ _ _ _ _ _ _ _ _ Haddr)
    as [Hself [Hw _]]. simpl in Hself, Hw. subst self1.
  intros Hall%read_characters_result.
  exists addresses. split; [done|].
  split; [symmetry; by eapply Forall2_length|].
  eapply Forall2_impl; [exact Hall|].
  intros a d Hd. by rewrite <- (get_character_data_same_target _ _ _ _ Hw).
Qed.

(** *** The scanner thread *)

Local Abbreviation scanning_status :=
  (status_update (Text "Scanning memory for character structs...") "#f0f0f0").

(** X20: run without an attached process, the scanner thread does not
    fail: it emits the scanning status and then one error status that
    carries the not-attached error, returns, and touches nothing. *)
Theorem run_not_attached fuel max_characters self w :
  pm self = None ->
  run STRUCT_SIZE PADDING_LENGTH PRECEDING_ZEROES FAST_SCAN FAST_SCAN_START_ADDRESS
    OFFSETS fuel max_characters (self, w)
  = {| emitted := [scanning_status;
                   status_update (ErrorScanning not_attached) "#ff5555"];
       returned := Ret tt;
       final := (self, w) |}.
Proof.
  intros Hpm. unfold run, get_all_character_data, bind.
  by rewrite (ensure_attached_none _ _ Hpm).
Qed.

(** X21: a scan that finds no table is a completed scan, not an error:
    when the locator returns "not found" the thread emits the scanning
    status and then [scan_finished] with the empty list. *)
Theorem run_no_table fuel max_characters s s1 :
  find_first_character_address STRUCT_SIZE PADDING_LENGTH PRECEDING_ZEROES
    FAST_SCAN FAST_SCAN_START_ADDRESS fuel s = (Ret None, s1) ->
  run STRUCT_SIZE PADDING_LENGTH PRECEDING_ZEROES FAST_SCAN FAST_SCAN_START_ADDRESS
    OFFSETS fuel max_characters s
  = {| emitted := [scanning_status; scan_finished []];
       returned := Ret tt;
       final := s1 |}.
Proof.
  destruct s as [self w]. intros Hfind.
  unfold run, get_all_character_data, bind.
  destruct (pm self) as [h|] eqn:Hpm.
  - rewrite (ensure_attached_ok _ _ _ Hpm).
    by rewrite (get_character_addresses_run _ _ _ _ _ _ _ _ _ _ _ Hfind).
  - unfold find_first_character_address, bind in Hfind.
    by rewrite (ensure_attached_none _ _ Hpm) in Hfind.
Qed.

End Characters.

(** ** Attaching again *)

(** X22: closing and attaching again to a process that can be opened
    leaves the object attached with the new handle and the machine
    untouched, and the operations work again: [get_memory_bounds] returns
    the bounds instead of the not-attached error. *)
Theorem reattach_after_close self w h :
  open_process w (process_name self) = Some h ->
  let s2 := (attach (close (self, w)).2).2 in
  (attach (close (self, w)).2).1 = Ret true
  /\ s2 = (set_pm (Some h) self, w)
  /\ get_memory_bounds s2
     = (Ret (c_void_p (lpMinimumApplicationAddress w),
             c_void_p (lpMaximumApplicationAddress w)), s2).
Proof.
  intros Hopen. unfold close.
  destruct (pm self) as [h0|] eqn:Hpm; simpl; rewrite Hopen; simpl;
    (split; [done|]); (split; [by destruct self; simpl in *; subst|]); done.
Qed.

(** ** The monitor: scans started by [start_scan] *)

Module MonitorFacts.

Import Gui.

Section Facts.

Variable worker_signals : nat -> list signal.
Variable located_address : option Z.
Variable PROCESS_NAME : string.

Local Abbreviation handle := (Gui.handle worker_signals located_address PROCESS_NAME).
Local Abbreviation handle_all :=
  (Gui.handle_all worker_signals located_address PROCESS_NAME).

(** At most one scan is waiting for its timer or running, and none is
    while the process has not been found. *)
Definition one_scan (g : GameProcessMonitor) : Prop :=
  (armed_timers g + length (workers_running g) <= 1)%nat
  /\ (attached g = false -> armed_timers g = O /\ workers_running g = []).

(** The process stays attached and "Rescan Memory" is not clicked. *)
Definition quiet (e : event) : Prop :=
  e <> RescanClicked /\ e <> Timeout false.

Lemma finish_worker_running id g :
  (length (workers_running (finish_worker worker_signals id g))
   <= length (workers_running g))%nat
  /\ armed_timers (finish_worker worker_signals id g) = armed_timers g
  /\ attached (finish_worker worker_signals id g) = attached g
  /\ (workers_running g = [] ->
      workers_running (finish_worker worker_signals id g) = []).
Proof.
  unfold finish_worker. case_bool_decide as Hin; simpl.
  - split; [apply length_filter|]. split; [done|]. split; [done|].
    intros Hnil. rewrite Hnil in Hin. by apply elem_of_nil in Hin.
  - by repeat split.
Qed.

Lemma stop_scanner_running g :
  (length (workers_running (stop_scanner worker_signals g))
   <= length (workers_running g))%nat
  /\ armed_timers (stop_scanner worker_signals g) = armed_timers g
  /\ attached (stop_scanner worker_signals g) = attached g
  /\ (workers_running g = [] ->
      workers_running (stop_scanner worker_signals g) = []).
Proof.
  unfold stop_scanner. destruct (scanner g) as [id|]; [|by repeat split].
  apply (finish_worker_running id g).
Qed.

Lemma handle_one_scan e g : quiet e -> one_scan g -> one_scan (handle e g).
Proof.
  intros [Hclick Hdetach] Hg. pose proof Hg as [Hcount Hidle].
  destruct e as [[|]| | |id|]; try done; simpl.
  - (* Timeout true *)
    unfold check_process. destruct (attached g) eqn:Hatt; simpl; [exact Hg|].
    destruct (Hidle eq_refl) as [Harmed Hrun].
    unfold start_scan. simpl. destruct (scanner g); simpl; rewrite ?Harmed, ?Hrun;
      split; simpl; try lia; done.
  - (* SingleShot *)
    destruct (armed_timers g) as [|n] eqn:Harmed; [exact Hg|].
    unfold _begin_scan. split; simpl.
    + rewrite length_app. simpl. lia.
    + intros Hatt. destruct (Hidle Hatt) as [? _]. done.
  - (* WorkerReturns *)
    destruct (finish_worker_running id g) as (Hlen & Harmed & Hatt & Hnil).
    split; [lia|]. rewrite Hatt, Harmed. intros Hf.
    destruct (Hidle Hf) as [? ?]. split; [done|by apply Hnil].
  - (* Deliver *)
    destruct (signal_queue g) as [|sig rest]; [exact Hg|].
    destruct sig as [msg color|data]; [exact Hg|].
    unfold populate_character_fields.
    match goal with
    | |- one_scan (stop_scanner _ ?g0) =>
        destruct (stop_scanner_running g0) as (Hlen & Harmed & Hatt & Hnil)
    end.
    simpl in *. split; [lia|]. rewrite Hatt, Harmed. intros Hf.
    destruct (Hidle Hf) as [? ?]. split; [done|by apply Hnil].
Qed.

(** X23: on the path through [start_scan] the monitor keeps to one scan
    at a time: from the start of the program, whatever the order of timer
    ticks that find the process, single-shot timers firing, workers
    returning and signals being delivered, at most one scan is waiting for
    its timer or running, as long as the process is not lost and "Rescan
    Memory" is not clicked. *)
Theorem start_scan_path_one_worker (events : list event) :
  Forall quiet events ->
  (armed_timers (handle_all events init)
   + length (workers_running (handle_all events init)) <= 1)%nat.
Proof.
  intros Hquiet.
  assert (Hinit : one_scan init) by (split; [simpl; lia|done]).
  assert (Hall : forall g, one_scan g -> one_scan (handle_all events g)).
  { induction Hquiet as [|e rest He _ IH]; intros g Hg; [done|].
    unfold Gui.handle_all. simpl. apply IH. by apply handle_one_scan. }
  apply (Hall init Hinit).
Qed.

(** X24: losing the process stops the scanner but not the timer: after a
    tick that does not find the process the monitor is detached, its
    buttons are disabled, the first address is forgotten and the thread it
    held is no longer running; a single-shot timer armed by [start_scan]
    stays armed, and when it fires a worker is started although the
    process is not attached. *)
Theorem detach_keeps_timer (g : GameProcessMonitor) :
  last_status g <> status_detached ->
  let g' := handle (Timeout false) g in
  attached g' = false
  /\ scanner g' = None
  /\ first_character_address g' = None
  /\ apply_changes_enabled g' = false
  /\ rescan_enabled g' = false
  /\ (forall id, scanner g = Some id -> id ∉ workers_running g')
  /\ armed_timers g' = armed_timers g
  /\ (armed_timers g <> O ->
      workers_running (handle SingleShot g')
      = workers_running g' ++ [threads_created g']
      /\ attached (handle SingleShot g') = false).
Proof.
  intros Hstatus g'. subst g'. simpl. unfold check_process.
  assert (Hstop : forall g0,
            scanner (stop_scanner worker_signals g0) = None
            /\ (forall id, scanner g0 = Some id ->
                  id ∉ workers_running (stop_scanner worker_signals g0))
            /\ armed_timers (stop_scanner worker_signals g0) = armed_timers g0
            /\ attached (stop_scanner worker_signals g0) = attached g0
            /\ first_character_address (stop_scanner worker_signals g0)
               = first_character_address g0).
  { intros g0. unfold stop_scanner.
    destruct (scanner g0) as [id0|] eqn:Hscanner; simpl; [|by repeat split].
    unfold finish_worker. case_bool_decide as Hin; simpl.
    - split; [done|]. split; [|done]. intros id [= <-].
      intros [Hne _]%list_elem_of_filter. by apply Hne.
    - split; [done|]. split; [|done]. by intros id [= <-]. }
  destruct (last_status g) eqn:Hlast; [| |done];
    match goal with
    | |- context [stop_scanner worker_signals ?g0] =>
        destruct (Hstop g0) as (Hnone & Hgone & Harmed & Hattached & Hfirst)
    end;
    simpl in *; rewrite Hattached, Hfirst, Hnone, Harmed.
  all: split; [done|].
  all: split; [done|].
  all: split; [done|].
  all: split; [done|].
  all: split; [done|].
  all: split; [done|].
  all: split; [done|].
  all: intros Hne; destruct (armed_timers g); [done|]; simpl.
  all: by rewrite ?Hattached.
Qed.

End Facts.

End MonitorFacts.

(** ** Applying changes *)

Module ApplyFacts.

Import Apply.

Lemma dict_get_set_ne {V} (d : list (string * V)) key value key' :
  key' <> key -> dict_get (dict_set d key value) key' = dict_get d key'.
Proof.
  intros Hne. induction d as [|[k v] rest IH]; simpl.
  - by rewrite bool_decide_false by congruence.
  - case_bool_decide as Hk; simpl.
    + subst k. by rewrite !bool_decide_false by congruence.
    + case_bool_decide; [done|]. apply IH.
Qed.

Lemma getitem_position {A} (data : list A) index x :
  Py.getitem data index = Some x ->
  data !! position data index = Some x /\ (position data index < length data)%nat.
Proof.
  unfold Py.getitem, position. intros H.
  assert (data !! (if bool_decide (0 <= index) then Z.to_nat index
                   else Z.to_nat (Z.of_nat (length data) + index)) = Some x) as Hx.
  { case_bool_decide; [done|]. by case_bool_decide. }
  split; [done|]. by eapply lookup_lt_Some.
Qed.

Section Facts.

Variable STRUCT_SIZE : Z.
Variable OFFSETS : list (string * field_info).
Variable CHARACTERS : list (string * Z).
Variable NORMAL_LEVEL_UNLOCKS_FLAT : list (string * list Z).
Variable INSANE_LEVEL_UNLOCKS_FLAT : list (string * list Z).

Local Abbreviation apply_changes :=
  (apply_current_changes STRUCT_SIZE OFFSETS CHARACTERS
     NORMAL_LEVEL_UNLOCKS_FLAT INSANE_LEVEL_UNLOCKS_FLAT).

(** The address of the record of the character with identifier [id]. *)
Definition record_base (first_address id : Z) : Z :=
  first_address + (id - 1) * STRUCT_SIZE.

(** [a] is a byte of no declared field of the record at [base]. *)
Definition outside_fields (base a : Z) : Prop :=
  forall name fi, dict_get OFFSETS name = Ok fi -> ~ in_field base fi a.

Lemma write_fields_frame remember base fields : forall block s o block' s',
  write_fields OFFSETS remember base fields block s = (o, block', s') ->
  s'.1 = s.1
  /\ forall a, outside_fields base a -> memory s'.2 !! a = memory s.2 !! a.
Proof.
  induction fields as [|[name value] rest IH]; intros block [self w] o block' s'; simpl.
  - by intros [= <- <- <-].
  - destruct (write_struct_field OFFSETS base name value (self, w)) as [o1 s1] eqn:Hwrite.
    destruct (write_frame OFFSETS _ _ _ _ _ _ _ Hwrite) as (Hself & Hfail & Hframe).
    assert (Hstep : forall a, outside_fields base a -> memory s1.2 !! a = memory w !! a).
    { intros a Hout. destruct (dict_get OFFSETS name) as [fi|e] eqn:Hget.
      - apply (Hframe fi a eq_refl). by apply (Hout name).
      - rewrite Hfail; [done|]. intros ->.
        unfold write_struct_field, bind in Hwrite.
        destruct (pm self) as [h|] eqn:Hpm.
        + by rewrite (ensure_attached_ok _ _ _ Hpm), Hget in Hwrite.
        + by rewrite (ensure_attached_none _ _ Hpm) in Hwrite. }
    destruct o1 as [[]|e|].
    + intros Hrest. apply IH in Hrest as [Hself' Hmem].
      split; [congruence|]. intros a Hout. rewrite Hmem by done. by apply Hstep.
    + intros [= <- <- <-]. by split.
    + intros [= <- <- <-]. by split.
Qed.

Lemma write_fields_block base fields : forall block s o block' s',
  write_fields OFFSETS true base fields block s = (o, block', s') ->
  forall name, name ∉ fields.*1 -> dict_get block' name = dict_get block name.
Proof.
  induction fields as [|[field_name value] rest IH]; intros block s o block' s'; simpl.
  - by intros [= <- <- <-].
  - destruct (write_struct_field OFFSETS base field_name value s) as [[[]|e|] s1].
    + intros Hrest name Hnot. rewrite ?fmap_cons in Hnot.
      apply not_elem_of_cons in Hnot as [Hne Hnot]. simpl in Hne.
      rewrite (IH _ _ _ _ _ Hrest name Hnot). by apply dict_get_set_ne.
    + by intros [= <- <- <-].
    + by intros [= <- <- <-].
Qed.

(** X25: changes are applied to a located character only: if the method
    changes anything in the process or records any access to it, then a
    character of [CHARACTERS] is selected, the first address is known and
    not zero, and the scanned data has an entry for that character. *)
Theorem apply_needs_target ui m s o m' s' :
  apply_changes ui m s = (o, m', s') ->
  s' <> s ->
  exists selected_name id first_address block,
    current_character_name m = Some selected_name
    /\ dict_get CHARACTERS selected_name = Ok id
    /\ first_character_address m = Some first_address
    /\ first_address <> 0
    /\ Py.getitem (character_data m) (id - 1) = Some block.
Proof.
  unfold apply_current_changes.
  destruct (current_character_name m) as [selected_name|] eqn:Hname;
    [|by intros [= <- <- <-]].
  case_bool_decide; [by intros [= <- <- <-]|].
  destruct (dict_get CHARACTERS selected_name) as [id|e] eqn:Hid;
    [|by intros [= <- <- <-]].
  destruct (first_character_address m) as [first_address|] eqn:Hfirst;
    [|by intros [= <- <- <-]].
  case_bool_decide as Hnz; [by intros [= <- <- <-]|].
  unfold apply_to_character.
  destruct (Py.getitem (character_data m) (id - 1)) as [block|] eqn:Hblock.
  - intros _ _. exists selected_name, id, first_address, block. by repeat split.
  - by intros [= <- <- <-].
Qed.

(** X26: the scanned data is not checked against the selection: with a
    character selected whose index is at or beyond the number of scanned
    characters, the method raises IndexError; nothing is written and no
    status is logged. *)
Theorem apply_beyond_scanned_data ui m s selected_name id first_address :
  current_character_name m = Some selected_name ->
  selected_name <> "" ->
  dict_get CHARACTERS selected_name = Ok id ->
  first_character_address m = Some first_address ->
  first_address <> 0 ->
  Z.of_nat (length (character_data m)) <= id - 1 ->
  apply_changes ui m s = (Raise IndexError, m, s).
Proof.
  intros Hname Hne Hid Hfirst Hnz Hshort. unfold apply_current_changes.
  rewrite Hname, bool_decide_false, Hid, Hfirst by done.
  rewrite bool_decide_false by done. unfold apply_to_character.
  assert (Hnone : Py.getitem (character_data m) (id - 1) = None).
  { unfold Py.getitem. rewrite bool_decide_true by lia.
    apply lookup_ge_None. lia. }
  by rewrite Hnone.
Qed.

Lemma apply_to_character_frame ui m s selected_name id first_address o m' s' :
  apply_to_character STRUCT_SIZE OFFSETS NORMAL_LEVEL_UNLOCKS_FLAT
    INSANE_LEVEL_UNLOCKS_FLAT ui m s selected_name id first_address = (o, m', s') ->
  s'.1 = s.1
  /\ forall a, outside_fields (record_base first_address id) a ->
       memory s'.2 !! a = memory s.2 !! a.
Proof.
  unfold apply_to_character, record_base.
  destruct (Py.getitem _ _) as [block|]; [|by intros [= <- <- <-]].
  cbv zeta.
  destruct (write_fields OFFSETS false _ (plain_fields ui) block s)
    as [[o1 b1] s1] eqn:Hplain.
  destruct (write_fields_frame _ _ _ _ _ _ _ _ Hplain) as [Hself1 Hmem1].
  destruct o1 as [[]|e|]; [|by intros [= <- <- <-]|by intros [= <- <- <-]].
  destruct (Levels.flat_to_bytes NORMAL_LEVEL_UNLOCKS_FLAT _) as [normal|e];
    [|by intros [= <- <- <-]].
  destruct (Levels.flat_to_bytes INSANE_LEVEL_UNLOCKS_FLAT _) as [insane|e];
    [|by intros [= <- <- <-]].
  destruct (write_fields OFFSETS true _ _ block s1) as [[o2 b2] s2] eqn:Hrest.
  destruct (write_fields_frame _ _ _ _ _ _ _ _ Hrest) as [Hself2 Hmem2].
  assert (Htwo : s2.1 = s.1
            /\ forall a, outside_fields (first_address + (id - 1) * STRUCT_SIZE) a ->
                 memory s2.2 !! a = memory s.2 !! a).
  { split; [congruence|]. intros a Ha. rewrite Hmem2 by done. by apply Hmem1. }
  destruct o2 as [[]|e|]; by intros [= <- <- <-].
Qed.

(** X27: the method writes to the record of the selected character only:
    when every declared field lies inside a struct, whatever the widgets
    hold and whether or not a write fails on the way, the object keeps its
    handle and no byte outside the [STRUCT_SIZE] bytes of that record
    changes. *)
Theorem apply_stays_in_record ui m s o m' s' selected_name id first_address :
  (forall name fi, dict_get OFFSETS name = Ok fi ->
     0 <= offset fi /\ offset fi + field_width (type fi) <= STRUCT_SIZE) ->
  current_character_name m = Some selected_name ->
  dict_get CHARACTERS selected_name = Ok id ->
  first_character_address m = Some first_address ->
  apply_changes ui m s = (o, m', s') ->
  s'.1 = s.1
  /\ forall a, ~ (record_base first_address id <= a
                  < record_base first_address id + STRUCT_SIZE) ->
       memory s'.2 !! a = memory s.2 !! a.
Proof.
  intros Hfit Hname Hid Hfirst. unfold apply_current_changes.
  rewrite Hname, Hid, Hfirst.
  case_bool_decide; [by intros [= <- <- <-]|].
  case_bool_decide; [by intros [= <- <- <-]|].
  intros [Hself Hmem]%apply_to_character_frame. split; [done|].
  intros a Ha. apply Hmem. intros name fi Hget Hin. apply Ha.
  destruct (Hfit name fi Hget). unfold in_field in Hin. lia.
Qed.

(** X28: the scanned data follows the level and stat fields only: after
    the method has run, the list of characters has its length, every other
    character has its data, and in the data of the selected character a
    field that is neither a level byte nor a stat of a spin box (the two
    check boxes, the four combo boxes) holds what it held, although its
    new value has been written to the process. *)
Theorem apply_keeps_other_data ui m s o m' s' selected_name id first_address block :
  current_character_name m = Some selected_name ->
  selected_name <> "" ->
  dict_get CHARACTERS selected_name = Ok id ->
  first_character_address m = Some first_address ->
  first_address <> 0 ->
  Py.getitem (character_data m) (id - 1) = Some block ->
  apply_changes ui m s = (o, m', s') ->
  length (character_data m') = length (character_data m)
  /\ (forall k, k <> position (character_data m) (id - 1) ->
        character_data m' !! k = character_data m !! k)
  /\ exists block',
       character_data m' !! position (character_data m) (id - 1) = Some block'
       /\ forall name,
            name ∉ ["normal_level_unlocks_0"; "normal_level_unlocks_1";
                    "normal_level_unlocks_2"; "insane_level_unlocks_0";
                    "insane_level_unlocks_1"; "insane_level_unlocks_2"]
                   ++ (spinbox_values ui).*1 ->
            dict_get block' name = dict_get block name.
Proof.
  intros Hname Hne Hid Hfirst Hnz Hblock. unfold apply_current_changes.
  rewrite Hname, bool_decide_false, Hid, Hfirst by done.
  rewrite bool_decide_false by done. unfold apply_to_character. rewrite Hblock.
  destruct (getitem_position _ _ _ Hblock) as [Hat Hlt].
  cbv zeta.
  assert (Hsame : forall o0 s0,
            (o0, m, s0) = (o, m', s') ->
            length (character_data m') = length (character_data m)
            /\ (forall k, k <> position (character_data m) (id - 1) ->
                  character_data m' !! k = character_data m !! k)
            /\ exists block',
                 character_data m' !! position (character_data m) (id - 1) = Some block'
                 /\ forall name,
                      name ∉ ["normal_level_unlocks_0"; "normal_level_unlocks_1";
                              "normal_level_unlocks_2"; "insane_level_unlocks_0";
                              "insane_level_unlocks_1"; "insane_level_unlocks_2"]
                             ++ (spinbox_values ui).*1 ->
                      dict_get block' name = dict_get block name).
  { intros o0 s0 [= <- <- <-]. split; [done|]. split; [done|]. by exists block. }
  destruct (write_fields OFFSETS false _ (plain_fields ui) block s) as [[o1 b1] s1].
  destruct o1 as [[]|e|]; [|apply Hsame|apply Hsame].
  destruct (Levels.flat_to_bytes NORMAL_LEVEL_UNLOCKS_FLAT _) as [normal|e];
    [|apply Hsame].
  destruct (Levels.flat_to_bytes INSANE_LEVEL_UNLOCKS_FLAT _) as [insane|e];
    [|apply Hsame].
  destruct (write_fields OFFSETS true _ _ block s1) as [[o2 b2] s2] eqn:Hrest.
  assert (Hkept : forall name,
            name ∉ ["normal_level_unlocks_0"; "normal_level_unlocks_1";
                    "normal_level_unlocks_2"; "insane_level_unlocks_0";
                    "insane_level_unlocks_1"; "insane_level_unlocks_2"]
                   ++ (spinbox_values ui).*1 ->
            dict_get b2 name = dict_get block name).
  { intros name Hnot. eapply write_fields_block; [exact Hrest|].
    rewrite fmap_app. intros [Hin|Hin]%elem_of_app; apply Hnot, elem_of_app.
    - left. destruct normal as [[n0 n1] n2], insane as [[i0 i1] i2]. exact Hin.
    - right. unfold stat_fields in Hin. rewrite <- list_fmap_compose in Hin.
      apply list_elem_of_fmap in Hin as ([stat value] & -> & Hin).
      apply list_elem_of_fmap. by exists (stat, value). }
  assert (Hstored : forall o0 m0,
            character_data m0
            = <[position (character_data m) (id - 1) := b2]> (character_data m) ->
            (o0, m0, s2) = (o, m', s') ->
            length (character_data m') = length (character_data m)
            /\ (forall k, k <> position (character_data m) (id - 1) ->
                  character_data m' !! k = character_data m !! k)
            /\ exists block',
                 character_data m' !! position (character_data m) (id - 1) = Some block'
                 /\ forall name,
                      name ∉ ["normal_level_unlocks_0"; "normal_level_unlocks_1";
                              "normal_level_unlocks_2"; "insane_level_unlocks_0";
                              "insane_level_unlocks_1"; "insane_level_unlocks_2"]
                             ++ (spinbox_values ui).*1 ->
                      dict_get block' name = dict_get block name).
  { intros o0 m0 Hdata [= <- <- <-]. rewrite Hdata.
    split; [apply length_insert|]. split.
    - intros k Hk. by apply list_lookup_insert_ne.
    - exists b2. split; [by apply list_lookup_insert_eq|done]. }
  destruct o2 as [[]|e|]; by apply Hstored.
Qed.

End Facts.

End ApplyFacts.

(** ** The further properties on concrete data *)

Module Examples.

Import Scenario.

(** *** Level unlocks *)

Definition LEVELS : list (string * list Z) :=
  [("None", [0; 0]); ("Barbarian Boss", [0; 1]); ("Thieves' Forest", [0; 3]);
   ("Desert", [1; 1]); ("Final Battle", [2; 7])].

Lemma LEVELS_pairs : LevelFacts.pairs LEVELS.
Proof. repeat constructor. Defined.

(** Entry 3, "Desert", goes to the bytes (0xFF, 1, 0) and back. *)
Lemma flat_index_roundtrip_witness :
  exists bytes,
    Levels.flat_to_bytes LEVELS 3 = Ok bytes
    /\ Levels.pick_cascading_flat_index bytes LEVELS = Ok 3.
Proof.
  apply (LevelFacts.flat_index_roundtrip LEVELS 3 "Desert" 1 1 LEVELS_pairs).
  - reflexivity.
  - right. split; [by left|discriminate].
  - intros k name' Hk.
    assert (k = 0 \/ k = 1 \/ k = 2)%nat as [-> | [-> | ->]] by lia; discriminate.
Defined.

(** With byte 2 set, bytes 0 and 1 do not matter. *)
Lemma pick_index_in_range_witness :
  Levels.pick_cascading_flat_index (3, 9, 7) LEVELS
  = Levels.pick_cascading_flat_index (0xFF, 0xFF, 7) LEVELS.
Proof.
  apply (proj1 (proj2 (LevelFacts.pick_index_in_range LEVELS 0xFF 0xFF 7))).
  discriminate.
Defined.

(** The bytes (3, 1, 0) are written back as (0xFF, 1, 0). *)
Lemma pick_then_flat_to_bytes_witness :
  exists idx,
    Levels.pick_cascading_flat_index (3, 1, 0) LEVELS = Ok idx
    /\ Levels.flat_to_bytes LEVELS idx = Ok (0xFF, 1, 0).
Proof.
  apply (LevelFacts.pick_then_flat_to_bytes LEVELS (3, 1, 0) LEVELS_pairs).
  exists 3%nat, "Desert". reflexivity.
Defined.

(** The index -1 of an empty combo box gives three zero bytes. *)
Lemma flat_to_bytes_cascaded_witness :
  Levels.flat_to_bytes LEVELS (-1) = Ok (0, 0, 0).
Proof.
  apply (proj1 (LevelFacts.flat_to_bytes_cascaded LEVELS (-1))). simpl. lia.
Defined.

(** *** The field codec *)

Definition gold : field_info := {| offset := 4; type := "int32" |}.
Definition level : field_info := {| offset := 1; type := "byte" |}.
Definition unlocked : field_info := {| offset := 0; type := "bool" |}.

(** Writing the gold of the first record leaves the byte at address 19
    as it was. *)
Lemma write_struct_field_frame_witness :
  memory (write_struct_field OFFSETS 10 "gold" (VInt 77)
            (attached_process, machine_of table)).2.2 !! 19
  = memory (machine_of table) !! 19.
Proof.
  destruct (write_struct_field OFFSETS 10 "gold" (VInt 77)
              (attached_process, machine_of table)) as [o s'] eqn:Hwrite.
  destruct (write_struct_field_frame OFFSETS _ _ _ _ _ _ _ Hwrite) as (_ & _ & Hframe).
  apply (Hframe gold 19 eq_refl). unfold in_field. simpl.
  change (field_width "int32") with 4. lia.
Defined.

(** Writing the gold of the first record does not change the level read
    from the second one. *)
Lemma disjoint_fields_independent_witness :
  (read_struct_field OFFSETS 60 "level"
     (write_struct_field OFFSETS 10 "gold" (VInt 77)
        (attached_process, machine_of table)).2).1
  = (read_struct_field OFFSETS 60 "level" (attached_process, machine_of table)).1.
Proof.
  destruct (write_struct_field OFFSETS 10 "gold" (VInt 77)
              (attached_process, machine_of table)) as [o s'] eqn:Hwrite.
  apply (disjoint_fields_independent OFFSETS 10 "gold" gold (VInt 77) 60 "level" level
           attached_process (machine_of table) o s' eq_refl eq_refl); [|exact Hwrite].
  intros a. unfold in_field. simpl.
  change (field_width "int32") with 4. change (field_width "byte") with 1. lia.
Defined.

(** 2^31 does not fit an int32 field. *)
Lemma int32_overflow_witness :
  write_struct_field OFFSETS 10 "gold" (VInt 2147483648)
    (attached_process, machine_of table)
  = (Raise OverflowError, (attached_process, machine_of table)).
Proof.
  apply (int32_overflow OFFSETS 10 "gold" gold 2147483648 attached_process
           (machine_of table) 1); (reflexivity || lia).
Defined.

(** No field is called "mana". *)
Lemma undeclared_field_witness :
  read_struct_field OFFSETS 10 "mana" (attached_process, machine_of table)
  = (Raise (KeyError "mana"), (attached_process, machine_of table)).
Proof.
  refine (proj1 (undeclared_field OFFSETS 10 "mana" (VInt 0) attached_process
                   (machine_of table) 1 eq_refl _)).
  intros Hin. cbn in Hin.
  repeat (apply elem_of_cons in Hin as [Hin | Hin]; [discriminate|]).
  by apply elem_of_nil in Hin.
Defined.

(** The flag byte 0x80 of the first record survives a read and write back. *)
Lemma read_then_write_back_witness :
  exists v w1 w2,
    read_struct_field OFFSETS 10 "character_unlocked"
      (attached_process, machine_of table) = (Ret v, (attached_process, w1))
    /\ write_struct_field OFFSETS 10 "character_unlocked" v (attached_process, w1)
       = (Ret tt, (attached_process, w2))
    /\ memory w2 = memory (machine_of table).
Proof.
  destruct (read_then_write_back OFFSETS 10 "character_unlocked" unlocked [0x80]
              attached_process (machine_of table) 1)
    as (v & w1 & w2 & Hread & Hwrite & _ & Hbool).
  - reflexivity.
  - reflexivity.
  - right. by left.
  - reflexivity.
  - repeat constructor; lia.
  - exists v, w1, w2. split; [done|]. split; [done|].
    apply (proj1 (Hbool eq_refl)). by right.
Defined.

(** The four bytes 7 7 7 7 read as 0x07070707. *)
Lemma int32_read_big_endian_witness :
  (read_struct_field OFFSETS 10 "gold" (attached_process, machine_of table)).1
  = Ret (VInt 117901063).
Proof.
  refine (proj1 (int32_read_big_endian OFFSETS 10 "gold" gold 7 7 7 7
                   attached_process (machine_of table) 1 _ _ _ _ _)).
  - reflexivity.
  - reflexivity.
  - reflexivity.
  - reflexivity.
  - repeat constructor; lia.
Defined.

(** *** The locator and the enumerator *)

Abbreviation find_first := (find_first_character_address STRUCT_SIZE PADDING_LENGTH
  PRECEDING_ZEROES FAST_SCAN FAST_SCAN_START_ADDRESS).
Abbreviation addresses_of := (get_character_addresses STRUCT_SIZE PADDING_LENGTH
  PRECEDING_ZEROES FAST_SCAN FAST_SCAN_START_ADDRESS).

(** The table alone, and the table followed by a byte that is no flag. *)
Definition bare : state := (attached_process, machine_of table).
Definition ended : state := (attached_process, machine_of (table ++ [0x42])).

Lemma lengths :
  0 <= PRECEDING_ZEROES /\ 0 <= PADDING_LENGTH /\ PADDING_LENGTH < STRUCT_SIZE.
Proof. unfold PRECEDING_ZEROES, PADDING_LENGTH, STRUCT_SIZE. lia. Defined.

Lemma sizes_nonneg_machine_of bytes : sizes_nonneg (machine_of bytes).
Proof. intros a mbi [= <-]. simpl. lia. Defined.

Lemma four_flags i :
  0 <= i < 4 ->
  exists b, flag_byte STRUCT_SIZE (machine_of table) 10 i = Some b /\ valid_flag b.
Proof.
  intros Hi. exists 0x80. split; [|by right].
  assert (i = 0 \/ i = 1 \/ i = 2 \/ i = 3) as [-> | [-> | [-> | ->]]] by lia;
    reflexivity.
Defined.

(** The four addresses found are the first four candidates, and
    candidate 4 carries a byte that is no flag. *)
Lemma get_character_addresses_result_witness :
  exists first_address k,
    [10; 60; 110; 160] = record_address STRUCT_SIZE first_address <$> seqZ 0 k
    /\ (k = 0 `max` 42
        \/ exists b, flag_byte STRUCT_SIZE ended.2 first_address k = Some b
                     /\ ~ valid_flag b).
Proof.
  destruct (get_character_addresses_result STRUCT_SIZE PADDING_LENGTH PRECEDING_ZEROES
              FAST_SCAN FAST_SCAN_START_ADDRESS 1 42 ended [10; 60; 110; 160]
              (addresses_of 1 42 ended).2)
    as [(s1 & _ & Hnil) | (a & s1 & k & _ & _ & Hl & _ & Hstop)].
  - vm_compute. reflexivity.
  - discriminate Hnil.
  - exists a, k. by split.
Defined.

(** Past the bare table no byte is mapped: candidate 4 cannot be read. *)
Lemma unreadable_flag_raises_witness :
  (addresses_of 1 42 bare).1 = Raise (MemoryReadError 210 1).
Proof.
  apply (unreadable_flag_raises STRUCT_SIZE PADDING_LENGTH PRECEDING_ZEROES FAST_SCAN
           FAST_SCAN_START_ADDRESS 1 42 bare 10 (find_first 1 bare).2 4).
  - vm_compute. reflexivity.
  - lia.
  - apply four_flags.
  - reflexivity.
Defined.

(** The address 10 has the flag byte of record 2 at address 110. *)
Lemma located_table_in_memory_witness :
  memory (machine_of table) !! 110 = Some 0x80.
Proof.
  destruct lengths as (H1 & H2 & H3).
  destruct (located_table_in_memory STRUCT_SIZE PADDING_LENGTH PRECEDING_ZEROES
              FAST_SCAN FAST_SCAN_START_ADDRESS H1 H2 H3 attached_process
              (machine_of table) 1 1 10 (find_first 1 bare).2)
    as (_ & _ & _ & Hrecords).
  - reflexivity.
  - apply sizes_nonneg_machine_of.
  - vm_compute. reflexivity.
  - apply (Hrecords 2). lia.
Defined.

(** Asked for three characters, the enumerator returns the first three
    records of the table. *)
Lemma located_records_enumerated_witness :
  (addresses_of 1 3 bare).1 = Ret [10; 60; 110].
Proof.
  destruct lengths as (H1 & H2 & H3).
  apply (proj1 (located_records_enumerated STRUCT_SIZE PADDING_LENGTH PRECEDING_ZEROES
                  FAST_SCAN FAST_SCAN_START_ADDRESS H1 H2 H3 attached_process
                  (machine_of table) 1 1 10 (find_first 1 bare).2 3 eq_refl
                  (sizes_nonneg_machine_of table) ltac:(vm_compute; reflexivity))).
  lia.
Defined.

(** A process whose address space is free memory in pages of 4096 bytes. *)
Definition free_page : MEMORY_BASIC_INFORMATION :=
  {| BaseAddress := 0; AllocationBase := 0; AllocationProtect := 0;
     RegionSize := 4096; State := 0x10000; Protect := 0x01; Type_ := 0 |}.

Definition free_machine : machine :=
  {| open_process := fun _ => Some 1;
     lpMinimumApplicationAddress := 0;
     lpMaximumApplicationAddress := 8192;
     query := fun _ => Some free_page;
     memory := ∅;
     accesses := [] |}.

(** Nothing of the free machine is read. *)
Lemma no_region_no_read_witness :
  exists turns, forall fuel, (turns <= fuel)%nat ->
    find_first fuel (attached_process, free_machine)
    = (Ret None, (attached_process, free_machine)).
Proof.
  apply (no_region_no_read STRUCT_SIZE PADDING_LENGTH PRECEDING_ZEROES FAST_SCAN
           FAST_SCAN_START_ADDRESS attached_process free_machine 1).
  - reflexivity.
  - discriminate.
  - intros address. simpl. split; [reflexivity|lia].
Defined.

(** *** Records and the worker *)

(** The three fields whose types are supported. *)
Definition SUPPORTED : list (string * field_info) := take 3 OFFSETS.

(** The level in the record at 10 is the level read from the process. *)
Lemma get_character_data_fields_witness :
  (read_struct_field SUPPORTED 10 "level" bare).1 = Ret (VInt 7).
Proof.
  refine (proj2 (get_character_data_fields SUPPORTED 10 bare
                   [("character_unlocked", VBool true); ("level", VInt 7);
                    ("gold", VInt 117901063)]
                   (get_character_data SUPPORTED 10 bare).2 _) "level" (VInt 7) _).
  - vm_compute. reflexivity.
  - apply elem_of_cons. right. apply elem_of_cons. by left.
Defined.

(** With the float field declared, no record is ever returned. *)
Lemma unsupported_descriptor_blocks_records_witness :
  get_character_data OFFSETS 10 bare <> (Ret [], bare).
Proof.
  refine (unsupported_descriptor_blocks_records OFFSETS "ratio"
            {| offset := 8; type := "float" |} _ eq_refl _ _ _ 10 bare [] bare);
    [|discriminate..].
  do 3 (apply elem_of_cons; right). apply elem_of_cons. by left.
Defined.

(** What the scan of the ended table returns. *)
Definition scanned_records : list character :=
  Eval vm_compute in
    match (get_all_character_data STRUCT_SIZE PADDING_LENGTH PRECEDING_ZEROES FAST_SCAN
             FAST_SCAN_START_ADDRESS SUPPORTED 1 42 ended).1 with
    | Ret data => data
    | _ => []
    end.

(** One record for each of the four addresses. *)
Lemma get_all_character_data_records_witness :
  exists addresses,
    (addresses_of 1 42 ended).1 = Ret addresses
    /\ length scanned_records = length addresses
    /\ length scanned_records = 4%nat.
Proof.
  destruct (get_all_character_data_records STRUCT_SIZE PADDING_LENGTH PRECEDING_ZEROES
              FAST_SCAN FAST_SCAN_START_ADDRESS SUPPORTED 1 42 ended scanned_records
              (get_all_character_data STRUCT_SIZE PADDING_LENGTH PRECEDING_ZEROES
                 FAST_SCAN FAST_SCAN_START_ADDRESS SUPPORTED 1 42 ended).2)
    as (addresses & Haddresses & Hlen & _).
  - vm_compute. reflexivity.
  - exists addresses. split; [exact Haddresses|]. split; [exact Hlen|reflexivity].
Defined.

(** The worker on the closed process reports the error and returns. *)
Lemma run_not_attached_witness :
  emitted (run STRUCT_SIZE PADDING_LENGTH PRECEDING_ZEROES FAST_SCAN
             FAST_SCAN_START_ADDRESS OFFSETS 1 42 (closed_process, machine_of table))
  = [status_update (Text "Scanning memory for character structs...") "#f0f0f0";
     status_update (ErrorScanning not_attached) "#ff5555"].
Proof.
  by rewrite (run_not_attached STRUCT_SIZE PADDING_LENGTH PRECEDING_ZEROES FAST_SCAN
                FAST_SCAN_START_ADDRESS OFFSETS 1 42 closed_process (machine_of table)
                eq_refl).
Defined.

(** The worker on the free machine completes with no records. *)
Lemma run_no_table_witness :
  emitted (run STRUCT_SIZE PADDING_LENGTH PRECEDING_ZEROES FAST_SCAN
             FAST_SCAN_START_ADDRESS OFFSETS 3 42 (attached_process, free_machine))
  = [status_update (Text "Scanning memory for character structs...") "#f0f0f0";
     scan_finished []].
Proof.
  by rewrite (run_no_table STRUCT_SIZE PADDING_LENGTH PRECEDING_ZEROES FAST_SCAN
                FAST_SCAN_START_ADDRESS OFFSETS 3 42 (attached_process, free_machine)
                (attached_process, free_machine) eq_refl).
Defined.

(** The scenario's process can be closed and attached again. *)
Lemma reattach_after_close_witness :
  (attach (close bare).2).1 = Ret true.
Proof.
  apply (proj1 (reattach_after_close attached_process (machine_of table) 1 eq_refl)).
Defined.

(** *** The monitor *)

Definition scan_signals (id : nat) : list signal :=
  emitted (run STRUCT_SIZE PADDING_LENGTH PRECEDING_ZEROES FAST_SCAN
             FAST_SCAN_START_ADDRESS SUPPORTED 1 42 ended).

Definition session : list Gui.event :=
  [Gui.Timeout true; Gui.SingleShot; Gui.Timeout true; Gui.WorkerReturns 0;
   Gui.Deliver; Gui.Deliver; Gui.Timeout true].

(** A session without the rescan button: the process is found and
    scanned, and the timer keeps finding it. *)
Lemma start_scan_path_one_worker_witness :
  let g := Gui.handle_all scan_signals (Some 10) "game.exe" session Gui.init in
  (Gui.armed_timers g + length (Gui.workers_running g) <= 1)%nat.
Proof.
  apply (MonitorFacts.start_scan_path_one_worker scan_signals (Some 10) "game.exe"
           session).
  repeat constructor; discriminate.
Defined.

(** The process goes away right after it was found. *)
Lemma detach_keeps_timer_witness :
  Gui.armed_timers
    (Gui.handle scan_signals (Some 10) "game.exe" (Gui.Timeout false)
       (Gui.handle scan_signals (Some 10) "game.exe" (Gui.Timeout true) Gui.init))
  = 1%nat.
Proof.
  destruct (MonitorFacts.detach_keeps_timer scan_signals (Some 10) "game.exe"
              (Gui.handle scan_signals (Some 10) "game.exe" (Gui.Timeout true)
                 Gui.init))
    as (_ & _ & _ & _ & _ & _ & Htimers & _).
  - discriminate.
  - exact Htimers.
Defined.

(** *** Applying the edits *)

Definition RECORD_FIELDS : list (string * field_info) :=
  [("is_character_unlocked", {| offset := 0; type := "byte" |});
   ("insane_mode", {| offset := 1; type := "byte" |});
   ("weapon", {| offset := 2; type := "byte" |});
   ("animal_type", {| offset := 3; type := "byte" |});
   ("relic_unlocks", {| offset := 4; type := "byte" |});
   ("skull", {| offset := 5; type := "byte" |});
   ("normal_level_unlocks_0", {| offset := 6; type := "byte" |});
   ("normal_level_unlocks_1", {| offset := 7; type := "byte" |});
   ("normal_level_unlocks_2", {| offset := 8; type := "byte" |});
   ("insane_level_unlocks_0", {| offset := 9; type := "byte" |});
   ("insane_level_unlocks_1", {| offset := 10; type := "byte" |});
   ("insane_level_unlocks_2", {| offset := 11; type := "byte" |});
   ("level", {| offset := 12; type := "byte" |});
   ("gold", {| offset := 16; type := "int32" |})].

Definition CHARACTERS : list (string * Z) :=
  [("Green Knight", 1); ("Red Knight", 2)].

Definition ui : Apply.widgets :=
  {| Apply.character_unlocked_checked := true;
     Apply.insane_mode_unlocked_checked := false;
     Apply.combo_current_data := fun _ => VInt 3;
     Apply.combo_current_index := fun _ => 3;
     Apply.spinbox_values := [("level", 99); ("gold", 1000)] |}.

Definition scanned_block : character :=
  [("is_character_unlocked", VInt 0x80); ("weapon", VInt 7); ("level", VInt 7)].

Definition monitor (data : list character) : Apply.editor :=
  {| Apply.current_character_name := Some "Red Knight";
     Apply.first_character_address := Some 10;
     Apply.character_data := data;
     Apply.status_log := [] |}.

Abbreviation apply_changes := (Apply.apply_current_changes STRUCT_SIZE RECORD_FIELDS
  CHARACTERS LEVELS LEVELS ui).

Lemma RECORD_FIELDS_fit name fi :
  dict_get RECORD_FIELDS name = Ok fi ->
  0 <= offset fi /\ offset fi + field_width (type fi) <= STRUCT_SIZE.
Proof.
  unfold RECORD_FIELDS. cbn [dict_get].
  repeat (case_bool_decide; [intros [= <-]; vm_compute; split; discriminate|]).
  discriminate.
Defined.

(** The edit of the Red Knight changes the process: it had a character,
    an address and a scanned record to work on. *)
Lemma apply_needs_target_witness :
  exists id first_address block,
    dict_get CHARACTERS "Red Knight" = Ok id
    /\ first_address <> 0
    /\ Py.getitem [scanned_block; scanned_block] (id - 1) = Some block.
Proof.
  destruct (apply_changes (monitor [scanned_block; scanned_block]) bare)
    as [[o m'] s'] eqn:Hrun.
  destruct (ApplyFacts.apply_needs_target STRUCT_SIZE RECORD_FIELDS CHARACTERS LEVELS
              LEVELS ui (monitor [scanned_block; scanned_block]) bare o m' s' Hrun)
    as (name & id & a & block & [= <-] & Hid & _ & Ha & Hblock).
  - intros ->. apply (f_equal (fun r => length (accesses r.2.2))) in Hrun.
    vm_compute in Hrun. discriminate Hrun.
  - exists id, a, block. split; [exact Hid|]. split; [exact Ha|exact Hblock].
Defined.

(** Only one record was scanned: the edit of the second character
    raises IndexError and writes nothing. *)
Lemma apply_beyond_scanned_data_witness :
  apply_changes (monitor [scanned_block]) bare
  = (Raise IndexError, monitor [scanned_block], bare).
Proof.
  apply (ApplyFacts.apply_beyond_scanned_data STRUCT_SIZE RECORD_FIELDS CHARACTERS
           LEVELS LEVELS ui (monitor [scanned_block]) bare "Red Knight" 2 10);
    first [reflexivity | discriminate | simpl; lia].
Defined.

(** The edit of the Red Knight, whose record is at 60, leaves the flag
    byte of the record at 110 as it was. *)
Lemma apply_stays_in_record_witness :
  memory (apply_changes (monitor [scanned_block; scanned_block]) bare).2.2 !! 110
  = memory (machine_of table) !! 110.
Proof.
  destruct (apply_changes (monitor [scanned_block; scanned_block]) bare)
    as [[o m'] s'] eqn:Hrun.
  destruct (ApplyFacts.apply_stays_in_record STRUCT_SIZE RECORD_FIELDS CHARACTERS
              LEVELS LEVELS ui (monitor [scanned_block; scanned_block]) bare o m' s'
              "Red Knight" 2 10 RECORD_FIELDS_fit eq_refl eq_refl eq_refl Hrun)
    as [_ Hframe].
  apply (Hframe 110). vm_compute. intros [_ H]. discriminate H.
Defined.

(** The edit of the Red Knight leaves the scanned record of the Green
    Knight as it was. *)
Lemma apply_keeps_other_data_witness :
  Apply.character_data
    (apply_changes (monitor [scanned_block; scanned_block]) bare).1.2 !! 0%nat
  = Some scanned_block.
Proof.
  destruct (apply_changes (monitor [scanned_block; scanned_block]) bare)
    as [[o m'] s'] eqn:Hrun.
  destruct (ApplyFacts.apply_keeps_other_data STRUCT_SIZE RECORD_FIELDS CHARACTERS
              LEVELS LEVELS ui (monitor [scanned_block; scanned_block]) bare o m' s'
              "Red Knight" 2 10 scanned_block eq_refl ltac:(discriminate) eq_refl
              eq_refl ltac:(discriminate) eq_refl Hrun)
    as (_ & Hothers & _).
  apply (Hothers 0%nat). discriminate.
Defined.

End Examples.
